(** * Legal-metrology label checker: field extraction, rule evaluation and
      image similarity

    A shallow embedding of [src/lib/metrology.ts] (the OCR field extractor
    [parseFieldsFromRawText] and the rule evaluator [validateLocally]), of the
    average-hash similarity [cvSimilarityClient] and of the label/colour
    similarity [googleCVSimilarity], with the properties stated about them.

    Further on come the chat client of [src/lib/ai_gemini.ts] (the choice of
    a model name, the list of models and [generateWithGemini], run over a
    model of the network), the text of a direct OCR call of [src/lib/api.ts]
    and the payload of a data URL of [src/lib/cv_google.ts], with further
    properties of all of these and of the extractor, the evaluator and the
    two similarity strategies, and the direct scan of [src/pages/Scanner.tsx]
    that puts the OCR call, the extractor and the evaluator together.

    JavaScript strings are sequences of UTF-16 code units, regular expressions
    are run by a backtracking matcher that follows the ECMAScript pattern
    semantics, and JavaScript numbers are IEEE 754 binary64 values. *)

From Stdlib Require Import ZArith NArith String Ascii List Bool Floats Lia.
From Stdlib Require Import Sorted Permutation DecimalString.
From stdpp Require Import gmap.
Import ListNotations.

Set Warnings "-inexact-float,-clear-no-such-hyp".

Local Open Scope N_scope.

(** ** JavaScript strings *)

Module JS.

(** A UTF-16 code unit. *)
Definition cu := N.
Definition jsstring := list cu.

(** An ASCII literal of the source, as a JavaScript string. *)
Definition str (s : string) : jsstring :=
  List.map N_of_ascii (list_ascii_of_string s).

(** U+20B9, the rupee sign: one code unit. *)
Definition rupee : cu := 0x20B9.

Definition in_range (lo hi c : cu) : bool := (lo <=? c) && (c <=? hi).

(** [\d] *)
Definition is_digit (c : cu) : bool := in_range 48 57 c.

(** ECMAScript LineTerminator: LF, CR, U+2028, U+2029. *)
Definition is_line_terminator (c : cu) : bool :=
  (c =? 10) || (c =? 13) || (c =? 0x2028) || (c =? 0x2029).

(** ECMAScript WhiteSpace: TAB, VT, FF, SP, NBSP, ZWNBSP and category Zs. *)
Definition is_white_space (c : cu) : bool :=
  (c =? 9) || (c =? 11) || (c =? 12) || (c =? 32) || (c =? 0xA0) ||
  (c =? 0x1680) || in_range 0x2000 0x200A c || (c =? 0x202F) ||
  (c =? 0x205F) || (c =? 0x3000) || (c =? 0xFEFF).

(** [\s], and the characters removed by [String.prototype.trim]. *)
Definition is_space (c : cu) : bool := is_white_space c || is_line_terminator c.

(** [\w] without the unicode flag, as used by [\b]. *)
Definition is_word_char (c : cu) : bool :=
  in_range 97 122 c || in_range 65 90 c || is_digit c || (c =? 95).

Definition to_upper (c : cu) : cu := if in_range 97 122 c then c - 32 else c.
Definition to_lower (c : cu) : cu := if in_range 65 90 c then c + 32 else c.

(** Canonicalize of a pattern without the unicode flag. Every pattern
    character of this program is ASCII or the rupee sign. A code unit above
    127 is never canonicalized to an ASCII one, and no character has the rupee
    sign as its upper case, so only the ASCII part of the upper-case mapping
    can make two characters compared here equal. *)
Definition canonicalize (c : cu) : cu := to_upper c.

(** [s.toLowerCase()] on the ASCII letters captured by the unit pattern. *)
Definition toLowerCase (s : jsstring) : jsstring := List.map to_lower s.

Definition eqb (a b : jsstring) : bool := bool_decide (a = b).

(** Truthiness of a possibly undefined string: [!!s]. *)
Definition truthy (o : option jsstring) : bool :=
  match o with
  | Some (_ :: _) => true
  | _ => false
  end.

(** [s.trim()] *)
Fixpoint trim_start (s : jsstring) : jsstring :=
  match s with
  | c :: s' => if is_space c then trim_start s' else s
  | [] => []
  end.

Definition trim (s : jsstring) : jsstring :=
  rev (trim_start (rev (trim_start s))).

Fixpoint starts_with (needle s : jsstring) : bool :=
  match needle, s with
  | [], _ => true
  | n :: needle', c :: s' => (n =? c) && starts_with needle' s'
  | _ :: _, [] => false
  end.

(** [s.includes(needle)] *)
Fixpoint includes (s needle : jsstring) : bool :=
  starts_with needle s ||
  match s with
  | [] => false
  | _ :: s' => includes s' needle
  end.

(** [arr.indexOf(x)] on an array of strings, [-1] when [x] is not there. *)
Fixpoint indexOf (arr : list jsstring) (x : jsstring) : Z :=
  match arr with
  | [] => (-1)%Z
  | y :: arr' =>
      if eqb y x then 0%Z
      else let i := indexOf arr' x in if (i <? 0)%Z then (-1)%Z else (i + 1)%Z
  end.

(** [arr[i]]: [undefined] outside the array. *)
Definition index (arr : list jsstring) (i : Z) : option jsstring :=
  if (i <? 0)%Z then None else nth_error arr (Z.to_nat i).

(** String conversion of a value spliced into a template literal or handed
    to [RegExp.prototype.test]. *)
Definition to_string (o : option jsstring) : jsstring :=
  match o with
  | Some s => s
  | None => str "undefined"
  end.

End JS.

Import JS.

(** ** Failure as data *)

(** What a JavaScript evaluation can end in besides a value: a [TypeError]
    from reading a property of [null] or [undefined], an [Error] thrown by
    the program, and, for this model only, a matcher that used up its step
    budget. *)
Inductive error := TypeError | Error (message : string) | FuelExhausted.

Inductive result (A : Type) :=
| Ok (a : A)
| Throw (e : error).
Arguments Ok {A} a.
Arguments Throw {A} e.

Definition bind {A B} (x : result A) (f : A -> result B) : result B :=
  match x with
  | Ok a => f a
  | Throw e => Throw e
  end.

Notation "'let*' x ':=' c 'in' k" := (bind c (fun x => k))
  (at level 10, x name, c at level 100, k at level 200).

(** ** Regular expressions *)

Module Regex.

(** A member of a character class. *)
Inductive citem :=
| IChar (c : cu)
| IRange (lo hi : cu)
| IDigit
| ISpace.

Inductive atom :=
| Lit (c : cu)
| Dot
| Class (items : list citem).

Inductive regex :=
| Empty
| Atom (a : atom)
| Seq (r1 r2 : regex)
| Alt (r1 r2 : regex)
| Quant (r : regex) (min : nat) (max : option nat) (greedy : bool)
| Group (n : nat) (r : regex)
| AssertStart
| AssertEnd
| WordBoundary.

Definition citem_match (icase : bool) (it : citem) (c : cu) : bool :=
  match it with
  | IChar a => if icase then canonicalize a =? canonicalize c else a =? c
  | IRange lo hi =>
      in_range lo hi c ||
      (icase && (in_range lo hi (to_upper c) || in_range lo hi (to_lower c)))
  | IDigit => is_digit c
  | ISpace => is_space c
  end.

Definition atom_match (icase : bool) (a : atom) (c : cu) : bool :=
  match a with
  | Lit a => citem_match icase (IChar a) c
  | Dot => negb (is_line_terminator c)
  | Class items => existsb (fun it => citem_match icase it c) items
  end.

(** The matcher state: the input before the current position (nearest
    character first), the input from the current position on, and the
    captures made so far (latest first). *)
Record mstate := MState {
  prev : jsstring;
  rest : jsstring;
  caps : list (nat * jsstring)
}.

Inductive outcome :=
| Matched (y : mstate)
| Failure
| OutOfFuel.

Definition continuation := mstate -> outcome.

(** The text between two states of one run. *)
Definition span (x y : mstate) : jsstring :=
  rev (firstn (length (prev y) - length (prev x)) (prev y)).

Definition set_cap (n : nat) (s : jsstring) (y : mstate) : mstate :=
  MState (prev y) (rest y) ((n, s) :: caps y).

Fixpoint get_cap (n : nat) (cs : list (nat * jsstring)) : option jsstring :=
  match cs with
  | [] => None
  | (k, s) :: cs' => if Nat.eqb k n then Some s else get_cap n cs'
  end.

Definition is_word_at (s : jsstring) : bool :=
  match s with
  | c :: _ => is_word_char c
  | [] => false
  end.

(** RepeatMatcher of the ECMAScript pattern semantics. An iteration that
    consumed nothing once [min] is reached is rejected. No pattern of this
    program has a group inside a quantifier, so the clearing of the inner
    captures at each iteration has nothing to do here. [fuel] bounds the
    number of iterations; [m] supplies more than any run can use. *)
Fixpoint repeat_matcher (fuel : nat) (mr : mstate -> continuation -> outcome)
    (min : nat) (max : option nat) (greedy : bool)
    (x : mstate) (c : continuation) : outcome :=
  match fuel with
  | O => OutOfFuel
  | S fuel' =>
      match max with
      | Some O => c x
      | _ =>
          let d := fun y =>
            if Nat.eqb min 0 && Nat.eqb (length (rest y)) (length (rest x))
            then Failure
            else repeat_matcher fuel' mr (Nat.pred min) (option_map Nat.pred max)
                   greedy y c in
          if negb (Nat.eqb min 0) then mr x d
          else if greedy then
            match mr x d with
            | Failure => c x
            | z => z
            end
          else
            match c x with
            | Failure => mr x d
            | z => z
            end
      end
  end.

(** The matcher of a pattern, in continuation-passing style as in the
    language definition: [c] is called on the state after the pattern, and
    its failure makes the matcher try its next choice. *)
Fixpoint m (icase : bool) (r : regex) (x : mstate) (c : continuation) : outcome :=
  match r with
  | Empty => c x
  | Atom a =>
      match rest x with
      | ch :: s' =>
          if atom_match icase a ch then c (MState (ch :: prev x) s' (caps x))
          else Failure
      | [] => Failure
      end
  | Seq r1 r2 => m icase r1 x (fun y => m icase r2 y c)
  | Alt r1 r2 =>
      match m icase r1 x c with
      | Failure => m icase r2 x c
      | z => z
      end
  | Quant r min max greedy =>
      repeat_matcher (S (min + length (rest x))) (m icase r) min max greedy x c
  | Group n r => m icase r x (fun y => c (set_cap n (span x y) y))
  | AssertStart =>
      match prev x with
      | [] => c x
      | _ :: _ => Failure
      end
  | AssertEnd =>
      match rest x with
      | [] => c x
      | _ :: _ => Failure
      end
  | WordBoundary =>
      if xorb (is_word_at (prev x)) (is_word_at (rest x)) then c x else Failure
  end.

(** A compiled pattern with its [i] flag. *)
Record regexp := RegExp {
  pattern : regex;
  ignoreCase : bool
}.

(** The array returned by a successful match: element 0, the text before and
    after it, and the numbered groups. *)
Record match_result := MatchResult {
  before : jsstring;
  matched : jsstring;
  after : jsstring;
  groups : list (nat * jsstring)
}.

(** Element [n] of the array: [undefined] for a group that took no part. *)
Definition group (n : nat) (mr : match_result) : option jsstring :=
  match n with
  | O => Some (matched mr)
  | S _ => get_cap n (groups mr)
  end.

Definition start_state (pre s : jsstring) : mstate := MState pre s [].

Definition result_of (pre : jsstring) (y : mstate) : match_result :=
  MatchResult (rev pre) (span (start_state pre []) y) (rest y) (caps y).

(** RegExpBuiltinExec without the global and sticky flags: the first
    position, from the left, at which the pattern matches. *)
Fixpoint exec_from (re : regexp) (pre s : jsstring) : result (option match_result) :=
  match m (ignoreCase re) (pattern re) (start_state pre s) Matched with
  | Matched y => Ok (Some (result_of pre y))
  | OutOfFuel => Throw FuelExhausted
  | Failure =>
      match s with
      | [] => Ok None
      | ch :: s' => exec_from re (ch :: pre) s'
      end
  end.

(** [re.exec(s)], which is also [s.match(re)] for a pattern without [g]. *)
Definition exec (re : regexp) (s : jsstring) : result (option match_result) :=
  exec_from re [] s.

(** [re.test(s)] *)
Definition test (re : regexp) (s : jsstring) : result bool :=
  let* r := exec re s in
  Ok (match r with Some _ => true | None => false end).

(** [s.replace(re, repl)] for a pattern without [g] and a replacement
    without [$] patterns: the first match only. *)
Definition replace (re : regexp) (repl s : jsstring) : result jsstring :=
  let* r := exec re s in
  Ok (match r with
      | Some mr => before mr ++ repl ++ after mr
      | None => s
      end).

(** [s.replace(re, repl)] for a pattern with [g]: every match, left to
    right; [skip] counts the characters of the current match still to be
    dropped, and an empty match is followed by one copied character. *)
Fixpoint replace_from (re : regexp) (repl pre : jsstring) (skip : nat)
    (s : jsstring) : result jsstring :=
  match skip with
  | S k =>
      match s with
      | [] => Ok []
      | ch :: s' => replace_from re repl (ch :: pre) k s'
      end
  | O =>
      match m (ignoreCase re) (pattern re) (start_state pre s) Matched with
      | OutOfFuel => Throw FuelExhausted
      | Matched y =>
          let n := (length (prev y) - length pre)%nat in
          match s with
          | [] => Ok repl
          | ch :: s' =>
              match n with
              | O => let* t := replace_from re repl (ch :: pre) 0 s' in
                     Ok (repl ++ ch :: t)
              | S k => let* t := replace_from re repl (ch :: pre) k s' in
                       Ok (repl ++ t)
              end
          end
      | Failure =>
          match s with
          | [] => Ok []
          | ch :: s' => let* t := replace_from re repl (ch :: pre) 0 s' in
                        Ok (ch :: t)
          end
      end
  end.

Definition replace_all (re : regexp) (repl s : jsstring) : result jsstring :=
  replace_from re repl [] 0 s.

(** [s.split(re)] without a limit and for a separator without groups. The
    separator is tried at every position before the end of the string; a
    match that is empty at the start of the current piece is passed over.
    [cur] is the current piece, latest character first. *)
Fixpoint split_from (re : regexp) (pre cur : jsstring) (skip : nat)
    (s : jsstring) : result (list jsstring) :=
  match s with
  | [] => Ok [rev cur]
  | ch :: s' =>
      match skip with
      | S k => split_from re (ch :: pre) cur k s'
      | O =>
          match m (ignoreCase re) (pattern re) (start_state pre s) Matched with
          | OutOfFuel => Throw FuelExhausted
          | Failure => split_from re (ch :: pre) (ch :: cur) 0 s'
          | Matched y =>
              match (length (prev y) - length pre)%nat, cur with
              | O, [] => split_from re (ch :: pre) (ch :: cur) 0 s'
              | O, _ :: _ => let* t := split_from re (ch :: pre) [ch] 0 s' in
                             Ok (rev cur :: t)
              | S k, _ => let* t := split_from re (ch :: pre) [] k s' in
                          Ok (rev cur :: t)
              end
          end
      end
  end.

Definition split (re : regexp) (s : jsstring) : result (list jsstring) :=
  match s with
  | [] =>
      match m (ignoreCase re) (pattern re) (start_state [] []) Matched with
      | OutOfFuel => Throw FuelExhausted
      | Matched _ => Ok []
      | Failure => Ok [[]]
      end
  | _ :: _ => split_from re [] [] 0 s
  end.

(** The code unit of an ASCII character of a pattern. *)
Definition chr (a : string) : cu :=
  match a with
  | String c _ => N_of_ascii c
  | EmptyString => 0
  end.

(** A run of literal characters. *)
Fixpoint lits (s : jsstring) : regex :=
  match s with
  | [] => Empty
  | [c] => Atom (Lit c)
  | c :: s' => Seq (Atom (Lit c)) (lits s')
  end.

(** The literal characters of an ASCII word. *)
Definition word (s : string) : regex := lits (str s).

(** [r1|r2|...|rn] *)
Fixpoint alts (rs : list regex) : regex :=
  match rs with
  | [] => Empty
  | [r] => r
  | r :: rs' => Alt r (alts rs')
  end.

(** [r1 r2 ... rn] *)
Fixpoint seqs (rs : list regex) : regex :=
  match rs with
  | [] => Empty
  | [r] => r
  | r :: rs' => Seq r (seqs rs')
  end.

(** "\d", "\s", "r*", "r+", "r?", "r*?" and "r{lo,hi}". *)
Definition digit : regex := Atom (Class [IDigit]).
Definition space : regex := Atom (Class [ISpace]).
Definition star (r : regex) : regex := Quant r 0 None true.
Definition plus (r : regex) : regex := Quant r 1 None true.
Definition opt (r : regex) : regex := Quant r 0 (Some 1%nat) true.
Definition lazy_star (r : regex) : regex := Quant r 0 None false.
Definition times (r : regex) (lo hi : nat) : regex := Quant r lo (Some hi) true.

End Regex.

Import Regex.

(** ** The field extractor and the rule evaluator ([metrology.ts]) *)

Module Metrology.

(** [OCRExtractedFields]: every property is optional. *)
Record ExtractedFields := {
  generic_name : option jsstring;
  mrp : option jsstring;
  net_quantity : option jsstring;
  unit : option jsstring;
  manufacturer_name : option jsstring;
  manufacturer_address : option jsstring;
  month_year : option jsstring;
  consumer_care : option jsstring;
  raw_text : option jsstring
}.

Definition UNIT_MAP : list (jsstring * jsstring) :=
  [ (str "g", str "g");
    (str "gram", str "g");
    (str "grams", str "g");
    (str "kg", str "kg");
    (str "kilogram", str "kg");
    (str "kilograms", str "kg");
    (str "ml", str "ml");
    (str "l", str "L");
    (str "lt", str "L");
    (str "liter", str "L");
    (str "litre", str "L");
    (str "liters", str "L");
    (str "litres", str "L");
    (str "pcs", str "pcs");
    (str "piece", str "pcs");
    (str "pieces", str "pcs") ].

(** [obj[key]] on a record of strings; an undefined key reads the property
    named "undefined". *)
Fixpoint lookup_key (obj : list (jsstring * jsstring)) (key : jsstring)
    : option jsstring :=
  match obj with
  | [] => None
  | (k, v) :: obj' => if JS.eqb k key then Some v else lookup_key obj' key
  end.

Definition get_prop (obj : list (jsstring * jsstring)) (key : option jsstring)
    : option jsstring :=
  lookup_key obj (to_string key).

(** [a || b] on possibly undefined strings. *)
Definition or_else (a b : option jsstring) : option jsstring :=
  if truthy a then a else b.

(** [m[n]]: reading an element of a match result throws on [null]. *)
Definition elem (mr : option match_result) (n : nat) : result (option jsstring) :=
  match mr with
  | Some r => Ok (group n r)
  | None => Throw TypeError
  end.

(** Truthiness of a match result: an array is truthy, [null] is not. *)
Definition is_match (mr : option match_result) : bool :=
  match mr with
  | Some _ => true
  | None => false
  end.

(** [arr.find(pred)] *)
Fixpoint find (pred : jsstring -> result bool) (arr : list jsstring)
    : result (option jsstring) :=
  match arr with
  | [] => Ok None
  | l :: arr' =>
      let* b := pred l in
      if b then Ok (Some l) else find pred arr'
  end.

(** [s?.f()] *)
Definition opt_chain (f : jsstring -> result jsstring) (o : option jsstring)
    : result (option jsstring) :=
  match o with
  | Some s => let* t := f s in Ok (Some t)
  | None => Ok None
  end.

(** [Boolean(s)] on a string, the predicate of [filter(Boolean)]. *)
Definition nonempty (s : jsstring) : bool :=
  match s with
  | [] => false
  | _ :: _ => true
  end.

(** The patterns of [parseFieldsFromRawText], in source order. *)

(** "/\u20B9/g" *)
Definition rupee_re : regexp := RegExp (Atom (Lit rupee)) false.

(** "/\r?\n/" *)
Definition newline_re : regexp :=
  RegExp (Seq (opt (Atom (Lit 13))) (Atom (Lit 10))) false.

(** "\d{1,5}(?:[\.,]\d{2})?" *)
Definition mrp_amount : regex :=
  Seq (times digit 1 5)
      (opt (Seq (Atom (Class [IChar (chr "."); IChar (chr ",")])) (times digit 2 2))).

(** "/(?:₹|rs\.?\s* )(\d{1,5}(?:[\.,]\d{2})?)/i", written here with a blank
    between the star and the parenthesis that closes the prefix. *)
Definition mrp_re : regexp :=
  RegExp
    (Seq (Alt (Atom (Lit rupee))
              (seqs [word "rs"; opt (Atom (Lit (chr "."))); star space]))
         (Group 1 mrp_amount))
    true.

(** "\d{1,4}(?:[\.,]\d{1,2})?" *)
Definition qty_amount : regex :=
  Seq (times digit 1 4)
      (opt (Seq (Atom (Class [IChar (chr "."); IChar (chr ",")])) (times digit 1 2))).

(** The alternatives of the unit group, in pattern order. *)
Definition unit_tokens : list string :=
  [ "kg"; "gram"; "grams"; "g"; "ml"; "l"; "lt"; "liter"; "litre"; "liters";
    "litres"; "pcs"; "piece"; "pieces" ]%string.

(** "/(\d{1,4}(?:[\.,]\d{1,2})?)\s*(kg|gram|...|pieces)\b/i" *)
Definition qty_re : regexp :=
  RegExp
    (seqs [ Group 1 qty_amount; star space;
            Group 2 (alts (List.map word unit_tokens)); WordBoundary ])
    true.

(** "/\b(0[1-9]|1[0-2])\s*[\/\.\-]\s*(20\d{2}|19\d{2})\b/" *)
Definition my_re : regexp :=
  RegExp
    (seqs [ WordBoundary;
            Group 1 (Alt (Seq (Atom (Lit (chr "0")))
                              (Atom (Class [IRange (chr "1") (chr "9")])))
                         (Seq (Atom (Lit (chr "1")))
                              (Atom (Class [IRange (chr "0") (chr "2")]))));
            star space;
            Atom (Class [IChar (chr "/"); IChar (chr "."); IChar (chr "-")]);
            star space;
            Group 2 (Alt (Seq (word "20") (times digit 2 2))
                         (Seq (word "19") (times digit 2 2)));
            WordBoundary ])
    false.

(** "/manufact|mfg\.?\s*by|packer|importer/i" *)
Definition manuf_re : regexp :=
  RegExp
    (alts [ word "manufact";
            seqs [word "mfg"; opt (Atom (Lit (chr "."))); star space; word "by"];
            word "packer";
            word "importer" ])
    true.

(** "/.*?:\s*/i" *)
Definition label_re : regexp :=
  RegExp (seqs [lazy_star (Atom Dot); Atom (Lit (chr ":")); star space]) true.

(** "/[0-9,]/" *)
Definition addr_re : regexp :=
  RegExp (Atom (Class [IRange (chr "0") (chr "9"); IChar (chr ",")])) false.

(** "[-\s]" *)
Definition dash_or_space : regex := Atom (Class [IChar (chr "-"); ISpace]).

(** "/(1[89]00[-\s]?\d{3}[-\s]?\d{3,4}|\b\d{10}\b)/" *)
Definition care_re : regexp :=
  RegExp
    (Group 1
       (Alt (seqs [ Atom (Lit (chr "1"));
                    Atom (Class [IChar (chr "8"); IChar (chr "9")]);
                    word "00"; opt dash_or_space; times digit 3 3;
                    opt dash_or_space; times digit 3 4 ])
            (seqs [WordBoundary; times digit 10 10; WordBoundary])))
    false.

(** "/name\s*:/i" *)
Definition name_re : regexp :=
  RegExp (seqs [word "name"; star space; Atom (Lit (chr ":"))]) true.

(** The comma. *)
Definition comma : cu := chr ",".

(** "/,/g" *)
Definition comma_re : regexp := RegExp (Atom (Lit (chr ","))) false.

(** The characters of a string that are not commas. *)
Definition without_commas (s : jsstring) : jsstring :=
  List.filter (fun ch => negb (comma =? ch)) s.

Definition parseFieldsFromRawText (raw : jsstring) : result ExtractedFields :=
  (* normalize rupee symbol *)
  let* text := replace_all rupee_re [rupee] (to_string (or_else (Some raw) (Some []))) in
  let* pieces := split newline_re text in
  let lines := List.filter nonempty (List.map trim pieces) in
  (* [lower], the lower-cased text, is computed by the source and never used *)
  let* mrpMatch := exec mrp_re text in
  let* qtyMatch := exec qty_re text in
  let* qty :=
    if is_match qtyMatch then
      let* g1 := elem qtyMatch 1 in
      let* net_quantity := opt_chain (replace_all comma_re []) g1 in
      let* g2 := elem qtyMatch 2 in
      let uRaw := option_map toLowerCase g2 in
      Ok (net_quantity, or_else (get_prop UNIT_MAP uRaw) uRaw)
    else Ok (None, None) in
  let* myMatch := exec my_re text in
  let* manufLine := find (test manuf_re) lines in
  let* manufacturer_name := opt_chain (replace label_re []) manufLine in
  let idx := if truthy manufLine then indexOf lines (to_string manufLine) else (-1)%Z in
  let next := index lines (idx + 1) in
  let* manufacturer_address :=
    if (0 <=? idx)%Z && (idx + 1 <? Z.of_nat (length lines))%Z then
      let* looks := test addr_re (to_string next) in
      Ok (if looks then next else None)
    else Ok None in
  let* careMatch := exec care_re text in
  let* nameLine := find (test name_re) lines in
  let* generic_name :=
    if truthy nameLine then
      let* t := replace label_re [] (to_string nameLine) in Ok (Some (trim t))
    else Ok None in
  let* mrp :=
    if is_match mrpMatch then
      if includes text [rupee] then
        let* g1 := elem mrpMatch 1 in Ok (Some (rupee :: to_string g1))
      else elem mrpMatch 0
    else Ok None in
  let* month_year :=
    if is_match myMatch then
      let* g1 := elem myMatch 1 in
      let* g2 := elem myMatch 2 in
      Ok (Some (to_string g1 ++ str "/" ++ to_string g2))
    else Ok None in
  let* consumer_care :=
    if is_match careMatch then elem careMatch 0 else Ok None in
  Ok {| generic_name := generic_name;
        mrp := mrp;
        net_quantity := fst qty;
        unit := snd qty;
        manufacturer_name := manufacturer_name;
        manufacturer_address := manufacturer_address;
        month_year := month_year;
        consumer_care := consumer_care;
        raw_text := Some raw |}.

(** [RuleResult] and [SummaryResult] of [types/api.ts]. *)
Record RuleResult := {
  rule_key : string;
  passed : bool;
  confidence : float
}.

Record SummaryResult := {
  compliant : bool;
  violations : list string;
  violation_count : nat
}.

(** The closure [add] of [validateLocally]: [rules.push(...)]. *)
Definition add (rules : list RuleResult) (key : string) (ok : bool)
    : list RuleResult :=
  rules ++ [ {| rule_key := key; passed := ok;
                confidence := if ok then 0.95%float else 0.7%float |} ].

(** [b && t] with [t] evaluated only when [b] holds. *)
Definition and_then (b : bool) (t : result bool) : result bool :=
  if b then t else Ok false.

(** "/^\d+(?:\.\d+)?$/" *)
Definition numeric_re : regexp :=
  RegExp (seqs [ AssertStart; plus digit;
                 opt (Seq (Atom (Lit (chr "."))) (plus digit)); AssertEnd ])
         false.

(** "/\d/" *)
Definition digit_re : regexp := RegExp digit false.

(** "/mrp|price|₹|rs\.?/i" *)
Definition prominent_re : regexp :=
  RegExp (alts [ word "mrp"; word "price"; Atom (Lit rupee);
                 Seq (word "rs") (opt (Atom (Lit (chr ".")))) ])
         true.

(** The array literal of the [net_quantity_unit_valid] rule. *)
Definition valid_units : list jsstring :=
  [str "g"; str "kg"; str "ml"; str "L"; str "cm"; str "m"; str "pcs"].

(** [arr.includes(x)], where an undefined [x] equals no string. *)
Definition array_includes (arr : list jsstring) (x : option jsstring) : bool :=
  match x with
  | Some s => existsb (fun y => JS.eqb y s) arr
  | None => false
  end.

Definition validateLocally (ex : ExtractedFields)
    : result (list RuleResult * SummaryResult) :=
  let rules := [] in
  let rules := add rules "manufacturer_address_present"
                 (truthy (or_else (manufacturer_name ex) (manufacturer_address ex))) in
  let rules := add rules "generic_name_present" (truthy (generic_name ex)) in
  let rules := add rules "net_quantity_present" (truthy (net_quantity ex)) in
  let* numeric := and_then (truthy (net_quantity ex))
                    (test numeric_re (to_string (net_quantity ex))) in
  let rules := add rules "net_quantity_numeric" numeric in
  let rules := add rules "net_quantity_unit_valid"
                 (truthy (unit ex) && array_includes valid_units (unit ex)) in
  let rules := add rules "month_year_present" (truthy (month_year ex)) in
  let rules := add rules "mrp_present" (truthy (mrp ex)) in
  let* format := and_then (truthy (mrp ex)) (test digit_re (to_string (mrp ex))) in
  let rules := add rules "mrp_format_valid" format in
  (* Heuristic for prominence (just presence in raw_text here) *)
  let* prominent := and_then (truthy (raw_text ex))
                      (test prominent_re (to_string (raw_text ex))) in
  let rules := add rules "mrp_prominent_in_text" prominent in
  let rules := add rules "consumer_care_present" (truthy (consumer_care ex)) in
  let failed := List.map rule_key (List.filter (fun r => negb (passed r)) rules) in
  let summary := {| compliant := Nat.eqb (length failed) 0;
                    violations := failed;
                    violation_count := length failed |} in
  Ok (rules, summary).

End Metrology.

Import Metrology.

(** ** JavaScript numbers *)

Module Num.

Local Open Scope float_scope.

(** The number with the value of an integer (exact below [2^53]). *)
Definition of_Z (z : Z) : float :=
  SF2Prim (binary_normalize prec emax z 0 false).

Definition of_nat (n : nat) : float := of_Z (Z.of_nat n).

(** [a >= b] *)
Definition geb (a b : float) : bool := b <=? a.

(** The integer [n] for which [n / 100 - m * 2^e] is closest to zero, the
    larger one when there are two. *)
Definition round_half_up_100 (m : positive) (e : Z) : Z :=
  if (0 <=? e)%Z then (Z.pos m * 2 ^ e * 100)%Z
  else ((2 * (Z.pos m * 100) + 2 ^ (- e)) / (2 * 2 ^ (- e)))%Z.

(** [Number(x.toFixed(2))]: [toFixed] prints the decimal [n / 100] for the
    integer [n] above, and [Number] reads it back as the nearest number.
    Not-a-number and the infinities print as themselves, and so does a
    magnitude of [1e21] or more; a negative number is printed with its sign
    before the rounding of its magnitude. *)
Definition toFixed2 (x : float) : float :=
  match Prim2SF x with
  | S754_nan => x
  | S754_infinity _ => x
  | S754_zero _ => 0
  | S754_finite sign m e =>
      if 1e21 <=? abs x then x
      else
        match round_half_up_100 m e with
        | Z.pos n =>
            let q := SF2Prim (SFdiv prec emax (S754_finite false n 0)
                                              (S754_finite false 100 0)) in
            if sign then - q else q
        | _ => if sign then -0 else 0
        end
  end.

(** [x || 0] on a possibly missing number. *)
Definition or_zero (o : option float) : float :=
  match o with
  | Some x => if is_zero x || is_nan x then 0 else x
  | None => 0
  end.

(** [Math.min(a, b)] *)
Definition min (a b : float) : float :=
  if is_nan a then a
  else if is_nan b then b
  else if a <? b then a
  else if b <? a then b
  else if get_sign a then a else b.

End Num.

(** ** Image similarity *)

Module Similarity.

Local Open Scope float_scope.

Inductive Verdict := likely_match | likely_match_with_warnings | mismatch.

(** [CVSimilarityResponse] *)
Record SimilarityResult := {
  similarity : float;
  flags : list (string * bool);
  verdict : Verdict
}.

(** The verdict expression, which both strategies spell out alike. *)
Definition verdict_of (similarity : float) : Verdict :=
  if Num.geb similarity 0.85 then likely_match
  else if Num.geb similarity 0.7 then likely_match_with_warnings
  else mismatch.

(** *** Strategy A: average hash ([cv.ts]) *)

(** An element of a [Uint8ClampedArray]; [undefined] past its end. *)
Definition channel (o : option Z) : float :=
  match o with
  | Some v => Num.of_Z v
  | None => nan
  end.

(** The loop [for (i = 0; i < data.length; i += 4)] over the RGBA bytes. *)
Fixpoint gray_of (data : list Z) : list float :=
  match data with
  | [] => []
  | r :: data1 =>
      let g := hd_error data1 in
      let b := hd_error (tl data1) in
      (0.299 * channel (Some r) + 0.587 * channel g + 0.114 * channel b) ::
      match data1 with
      | _ :: _ :: _ :: data' => gray_of data'
      | _ => []
      end
  end.

(** [computeAHashBig], from the bytes that [getImageData] returned. *)
Definition computeAHashBig (data : list Z) : Z :=
  let gray := gray_of data in
  let avg := fold_left (fun a b => a + b) gray 0 / Num.of_nat (length gray) in
  fold_left (fun hash g => Z.lor (Z.shiftl hash 1) (if Num.geb g avg then 1 else 0)%Z)
            gray 0%Z.

(** The loop of [hammingDistanceHashBigInt]; it ends only when [x] reaches
    zero, so [None] stands for a loop still running after [fuel] rounds. *)
Fixpoint hamming_loop (fuel : nat) (x : Z) (count : nat) : option nat :=
  match fuel with
  | O => None
  | S fuel' =>
      if (x =? 0)%Z then Some count
      else hamming_loop fuel' (Z.land x (x - 1)) (S count)
  end.

Definition hammingDistanceHashBigInt (fuel : nat) (a b : Z) : option nat :=
  hamming_loop fuel (Z.lxor a b) 0.

(** [cvSimilarityClient], from the two fingerprints. *)
Definition similarity_of_hashes (fuel : nat) (h1 h2 : Z) : option SimilarityResult :=
  match hammingDistanceHashBigInt fuel h1 h2 with
  | None => None
  | Some dist =>
      let similarity := 1 - Num.of_nat dist / 64 in
      let flags := [("packaging_layout_diff"%string, Nat.ltb 0 dist)] in
      let verdict := verdict_of similarity in
      Some {| similarity := Num.toFixed2 similarity; flags := flags;
              verdict := verdict |}
  end.

Definition cvSimilarityClient (fuel : nat) (refData userData : list Z)
    : option SimilarityResult :=
  similarity_of_hashes fuel (computeAHashBig refData) (computeAHashBig userData).

(** *** Strategy B: labels and colours ([cv_google.ts]) *)

(** The parts of a Vision response that the function reads; every property
    may be missing. *)
Record Color := { red : option float; green : option float; blue : option float }.
Record ColorInfo := { color : option Color }.
Record EntityAnnotation := { description : option jsstring }.
Record AnnotateImageResponse := {
  labelAnnotations : option (list EntityAnnotation);
  dominantColors : option (list ColorInfo)
}.

Definition black : Color := {| red := Some 0; green := Some 0; blue := Some 0 |}.

Definition colorDistance (a b : Color) : float :=
  let dr := Num.or_zero (red a) - Num.or_zero (red b) in
  let dg := Num.or_zero (green a) - Num.or_zero (green b) in
  let db := Num.or_zero (blue a) - Num.or_zero (blue b) in
  sqrt (dr * dr + dg * dg + db * db).

Definition paletteSimilarity (a b : list ColorInfo) : float :=
  (* Compare top-N dominant colors via nearest-neighbor distance *)
  if Nat.eqb (length a) 0 || Nat.eqb (length b) 0 then 0
  else
    let aRGB := List.map (fun c => default black (color c)) a in
    let bRGB := List.map (fun c => default black (color c)) b in
    let '(total, count) :=
      fold_left
        (fun '(total, count) ca =>
           let best :=
             fold_left (fun best cb =>
                          let d := colorDistance ca cb in
                          if d <? best then d else best)
                       bRGB infinity in
           (* normalize distance 0..1 assuming max ~ 441.67 *)
           let sim := 1 - Num.min best 442 / 442 in
           (total + sim, S count))
        aRGB (0, O) in
    if Nat.eqb count 0 then 0 else total / Num.of_nat count.

(** [jaccardSimilarity] on two [Set]s of strings, which are lists of code
    units. *)
Definition jaccardSimilarity (a b : gset (list N)) : float :=
  if Nat.eqb (size a) 0 && Nat.eqb (size b) 0 then 0
  else
    let inter := set_fold (fun x n => if bool_decide (x ∈ b) then S n else n) O a in
    let union := (Z.of_nat (size a) + Z.of_nat (size b) - Z.of_nat inter)%Z in
    if (union =? 0)%Z then 0 else Num.of_nat inter / Num.of_Z union.

(** "/logo|brand|trademark/" *)
Definition logo_re : regexp :=
  RegExp (alts [word "logo"; word "brand"; word "trademark"]) false.

(** [labels.some(pred)] *)
Fixpoint some (pred : jsstring -> result bool) (arr : list jsstring) : result bool :=
  match arr with
  | [] => Ok false
  | l :: arr' => let* b := pred l in if b then Ok true else some pred arr'
  end.

Definition hasLogoIndication (labels : list jsstring) : result bool :=
  some (test logo_re) labels.

Section GoogleCV.

(** [String.prototype.toLowerCase] on label text of any script. *)
Variable lower : jsstring -> jsstring.

Definition labels_of (resp : AnnotateImageResponse) : list jsstring :=
  List.map (fun x => lower (default [] (description x)))
           (default [] (labelAnnotations resp)).

(** [googleCVSimilarity], from the two entries of [data.responses]. *)
Definition similarity_of_responses (refResp userResp : option AnnotateImageResponse)
    : result SimilarityResult :=
  match refResp, userResp with
  | Some refResp, Some userResp =>
      let refLabels := labels_of refResp in
      let userLabels := labels_of userResp in
      let labelSim := jaccardSimilarity (list_to_set refLabels) (list_to_set userLabels) in
      let refColors := firstn 5 (default [] (dominantColors refResp)) in
      let userColors := firstn 5 (default [] (dominantColors userResp)) in
      let colorSim := paletteSimilarity refColors userColors in
      (* Weighted similarity (labels heavier than colors) *)
      let similarity := Num.toFixed2 (labelSim * 0.7 + colorSim * 0.3) in
      let* refLogo := hasLogoIndication refLabels in
      let* userLogo := if refLogo then hasLogoIndication userLabels else Ok true in
      let flags := [ ("packaging_layout_diff"%string, similarity <? 1);
                     ("logo_mismatch"%string, negb refLogo || negb userLogo) ] in
      let verdict := verdict_of similarity in
      Ok {| similarity := similarity; flags := flags; verdict := verdict |}
  | _, _ => Throw (Error "Vision response missing")
  end.

End GoogleCV.

End Similarity.

Import Similarity.

(** ** Declarative semantics of patterns *)

(** [Run icase r x y]: the pattern [r] can take the matcher from state [x] to
    state [y]. The matcher explores these runs in priority order. *)
Inductive Run (icase : bool) : regex -> mstate -> mstate -> Prop :=
| run_empty x : Run icase Empty x x
| run_atom a x ch s' :
    rest x = ch :: s' -> atom_match icase a ch = true ->
    Run icase (Atom a) x (MState (ch :: prev x) s' (caps x))
| run_seq r1 r2 x y z :
    Run icase r1 x y -> Run icase r2 y z -> Run icase (Seq r1 r2) x z
| run_alt_l r1 r2 x y : Run icase r1 x y -> Run icase (Alt r1 r2) x y
| run_alt_r r1 r2 x y : Run icase r2 x y -> Run icase (Alt r1 r2) x y
| run_quant_stop r max greedy x : Run icase (Quant r 0 max greedy) x x
| run_quant_step r min max greedy x y z :
    max <> Some 0%nat ->
    Run icase r x y ->
    Run icase (Quant r (Nat.pred min) (option_map Nat.pred max) greedy) y z ->
    Run icase (Quant r min max greedy) x z
| run_group n r x y :
    Run icase r x y -> Run icase (Group n r) x (set_cap n (span x y) y)
| run_start x : prev x = [] -> Run icase AssertStart x x
| run_end x : rest x = [] -> Run icase AssertEnd x x
| run_boundary x :
    xorb (is_word_at (prev x)) (is_word_at (rest x)) = true ->
    Run icase WordBoundary x x.

(** The strings a pattern can consume, assertions taken as always true. *)
Fixpoint lang (icase : bool) (r : regex) (s : jsstring) : Prop :=
  match r with
  | Empty => s = []
  | Atom a => exists ch, s = [ch] /\ atom_match icase a ch = true
  | Seq r1 r2 => exists s1 s2, s = s1 ++ s2 /\ lang icase r1 s1 /\ lang icase r2 s2
  | Alt r1 r2 => lang icase r1 s \/ lang icase r2 s
  | Quant r min max _ =>
      exists ss, s = concat ss /\ Forall (lang icase r) ss /\
                 (min <= length ss)%nat /\
                 (forall k, max = Some k -> (length ss <= k)%nat)
  | Group _ r => lang icase r s
  | AssertStart | AssertEnd | WordBoundary => s = []
  end.

(** Patterns without capture groups. *)
Fixpoint groupless (r : regex) : bool :=
  match r with
  | Seq r1 r2 | Alt r1 r2 => groupless r1 && groupless r2
  | Quant r _ _ _ => groupless r
  | Group _ _ => false
  | _ => true
  end.

(** Quantifier bounds in order, as the pattern syntax demands. *)
Fixpoint well_formed (r : regex) : bool :=
  match r with
  | Seq r1 r2 | Alt r1 r2 => well_formed r1 && well_formed r2
  | Quant r min (Some max) _ => Nat.leb min max && well_formed r
  | Quant r _ None _ => well_formed r
  | Group _ r => well_formed r
  | _ => true
  end.

(** ** Vocabulary of the statements *)

Section Vocabulary.

Local Open Scope nat_scope.

(** [c] never reports an exhausted budget at or after the position of [x]. *)
Definition fuel_safe (x : mstate) (c : continuation) : Prop :=
  forall y, (length (rest y) <= length (rest x))%nat -> c y <> OutOfFuel.

(** Every character of [s] matches the atom [a]. *)
Definition all_match (icase : bool) (a : atom) (s : jsstring) : Prop :=
  Forall (fun ch => atom_match icase a ch = true) s.

(** The repetition of the atom [a] cannot go on into [tl]. *)
Definition stops_at (icase : bool) (a : atom) (tl : jsstring) : Prop :=
  match tl with
  | [] => True
  | ch :: _ => atom_match icase a ch = false
  end.

(** The lines of a text: its pieces between line breaks, trimmed, the empty
    ones dropped. *)
Definition lines_of (pieces : list jsstring) : list jsstring :=
  List.filter nonempty (List.map trim pieces).

(** The quantity and unit read off a match of the quantity pattern. *)
Definition qty_of (qtyMatch : option match_result) : option jsstring * option jsstring :=
  match qtyMatch with
  | Some mr =>
      (option_map without_commas (group 1 mr),
       or_else (get_prop UNIT_MAP (option_map toLowerCase (group 2 mr)))
               (option_map toLowerCase (group 2 mr)))
  | None => (None, None)
  end.

(** The ten rules, in evaluation order. *)
Definition RULE_KEYS : list string :=
  [ "manufacturer_address_present"; "generic_name_present";
    "net_quantity_present"; "net_quantity_numeric"; "net_quantity_unit_valid";
    "month_year_present"; "mrp_present"; "mrp_format_valid";
    "mrp_prominent_in_text"; "consumer_care_present" ]%string.

(** An amount: digits, then possibly a dot or a comma and more digits. *)
Definition amount_shape (ilo ihi dlo dhi : nat) (s : jsstring) : Prop :=
  exists ds frac,
    s = ds ++ frac /\
    Forall (fun ch => is_digit ch = true) ds /\ (ilo <= length ds <= ihi) /\
    (frac = [] \/
     exists sep ds', frac = sep :: ds' /\ (sep = chr "." \/ sep = chr ",") /\
                     Forall (fun ch => is_digit ch = true) ds' /\
                     (dlo <= length ds' <= dhi)).

(** The canonical units that [UNIT_MAP] maps the tokens to. *)
Definition canonical_units : list jsstring :=
  [str "g"; str "kg"; str "ml"; str "L"; str "pcs"].

(** A string of digits. *)
Definition all_digits (s : jsstring) : Prop :=
  Forall (fun ch => is_digit ch = true) s.

(** Digits, or digits, a dot and digits. *)
Definition numeric_shape (q : jsstring) : Prop :=
  (all_digits q /\ q <> []) \/
  exists ds ds', q = ds ++ chr "." :: ds' /\
                 all_digits ds /\ ds <> [] /\ all_digits ds' /\ ds' <> [].

(** [MM/YYYY]: a month from 01 to 12, a slash, a year that begins with 19 or
    20. *)
Definition is_month_year (s : jsstring) : bool :=
  match s with
  | [m1; m2; sl; y1; y2; y3; y4] =>
      ((m1 =? chr "0")%N && in_range (chr "1") (chr "9") m2 ||
       (m1 =? chr "1")%N && in_range (chr "0") (chr "2") m2) &&
      (sl =? chr "/")%N &&
      ((y1 =? chr "2")%N && (y2 =? chr "0")%N || (y1 =? chr "1")%N && (y2 =? chr "9")%N) &&
      is_digit y3 && is_digit y4
  | _ => false
  end.

(** An input in which no pattern of the extractor matches. *)
Definition no_recognizable_pattern (raw : jsstring) : Prop :=
  exec mrp_re raw = Ok None /\
  exec qty_re raw = Ok None /\
  exec my_re raw = Ok None /\
  exec care_re raw = Ok None /\
  forall pieces l,
    split newline_re raw = Ok pieces -> In l (lines_of pieces) ->
    test manuf_re l = Ok false /\ test name_re l = Ok false.

(** The record with every field absent but [raw_text]. *)
Definition no_fields (raw : jsstring) : ExtractedFields :=
  {| generic_name := None; mrp := None; net_quantity := None; unit := None;
     manufacturer_name := None; manufacturer_address := None;
     month_year := None; consumer_care := None; raw_text := Some raw |}.

(** The colon that ends a label. *)
Definition colon : cu := chr ":".

(** Following the words of C10: a line with everything up to its first
    colon stripped. *)
Fixpoint after_first_colon (line : jsstring) : jsstring :=
  match line with
  | [] => []
  | c :: line' => if (c =? colon)%N then line' else after_first_colon line'
  end.

(** The sample label text of the specification. *)
Definition sample : jsstring :=
  str "MRP " ++ [rupee] ++
  str "199.00 Net Qty: 250 g Mfg by: Acme Foods Ltd 12/2025 Consumer Care: 1800-123-4567".

(** The number of one bits among the lowest [bits] bits. *)
Fixpoint popcount (bits : nat) (x : Z) : nat :=
  match bits with
  | O => O
  | S n => (if Z.odd x then 1 else 0) + popcount n (Z.div2 x)
  end.

(** Equality of verdicts, as a boolean. *)
Definition verdict_eqb (a b : Verdict) : bool :=
  match a, b with
  | likely_match, likely_match
  | likely_match_with_warnings, likely_match_with_warnings
  | mismatch, mismatch => true
  | _, _ => false
  end.

(** The similarity of a distance, before rounding. *)
Definition similarity_of_distance (dist : nat) : float :=
  (1 - Num.of_nat dist / 64)%float.

(** What holds of each of the 65 possible distances: the similarity and its
    rounding lie between 0 and 1, and rounding moves it across no threshold. *)
Definition distance_ok (dist : nat) : bool :=
  let s := similarity_of_distance dist in
  (0 <=? s)%float && (s <=? 1)%float &&
  (0 <=? Num.toFixed2 s)%float && (Num.toFixed2 s <=? 1)%float &&
  verdict_eqb (verdict_of (Num.toFixed2 s)) (verdict_of s).

(** Following the specification's words: the Jaccard index of two sets is
    the size of their intersection over the size of their union, and 0 when
    both are empty. *)
Definition jaccard_index (a b : gset (list N)) : float :=
  if decide (a = ∅ /\ b = ∅) then 0%float
  else (Num.of_nat (size (a ∩ b)) / Num.of_nat (size (a ∪ b)))%float.

End Vocabulary.

(** * The rest of the program *)

(** ** More of the JavaScript library *)

Module JSLib.

(** [s.split(sep)] for a separator of one code unit: the pieces between its
    occurrences, one piece more than there are occurrences. *)
Fixpoint split_on (sep : cu) (s : jsstring) : list jsstring :=
  match s with
  | [] => [[]]
  | c :: s' =>
      if sep =? c then [] :: split_on sep s'
      else match split_on sep s' with
           | piece :: pieces => (c :: piece) :: pieces
           | [] => [[c]]
           end
  end.

(** [arr.pop()]: the last element, [undefined] for an empty array. *)
Fixpoint pop (arr : list jsstring) : option jsstring :=
  match arr with
  | [] => None
  | [x] => Some x
  | _ :: arr' => pop arr'
  end.

(** [arr.filter(pred)] *)
Fixpoint array_filter (pred : jsstring -> result bool) (arr : list jsstring)
    : result (list jsstring) :=
  match arr with
  | [] => Ok []
  | x :: arr' =>
      let* keep := pred x in
      let* kept := array_filter pred arr' in
      Ok (if keep then x :: kept else kept)
  end.

(** [arr.sort(cmp)] for a comparator that is consistent: the language
    requires the result to be sorted by it and the sort to be stable, which
    leaves one possible result, whatever the engine's algorithm; insertion
    from the right computes it. [cmp x y <= 0] keeps [x] before [y]. *)
Fixpoint sort_insert (cmp : jsstring -> jsstring -> result Z) (x : jsstring)
    (sorted : list jsstring) : result (list jsstring) :=
  match sorted with
  | [] => Ok [x]
  | y :: sorted' =>
      let* c := cmp x y in
      if (c <=? 0)%Z then Ok (x :: sorted)
      else let* r := sort_insert cmp x sorted' in Ok (y :: r)
  end.

Fixpoint array_sort (cmp : jsstring -> jsstring -> result Z) (arr : list jsstring)
    : result (list jsstring) :=
  match arr with
  | [] => Ok []
  | x :: arr' => let* sorted := array_sort cmp arr' in sort_insert cmp x sorted
  end.

(** [arr.join(sep)] on an array of strings. *)
Fixpoint join (sep : jsstring) (arr : list jsstring) : jsstring :=
  match arr with
  | [] => []
  | [x] => x
  | x :: arr' => x ++ sep ++ join sep arr'
  end.

(** An [Error] object with a message made at run time, and what a function
    that can throw one ends in. *)
Inductive completion (A : Type) :=
| Return (a : A)
| ThrowError (message : jsstring).
Arguments Return {A} a.
Arguments ThrowError {A} message.

End JSLib.

Import JSLib.

(** ** The choice of a model in the chat client ([ai_gemini.ts]) *)

Module Gemini.

Definition STABLE_DEFAULT_MODEL : jsstring := str "gemini-1.5-flash".

(** "/^models\//" *)
Definition models_prefix_re : regexp :=
  RegExp (Seq AssertStart (word "models/")) false.

(** "/-latest$/" *)
Definition latest_suffix_re : regexp :=
  RegExp (Seq (word "-latest") AssertEnd) false.

(** "/^gemini-1\.0/" *)
Definition gemini_10_re : regexp :=
  RegExp (Seq AssertStart (word "gemini-1.0")) false.

Definition normalizeModelName (input : option jsstring) : result jsstring :=
  let m := trim (to_string (or_else input (Some []))) in
  if negb (nonempty m) then Ok STABLE_DEFAULT_MODEL
  else
    (* Strip common prefixes and aliases *)
    let* m := replace models_prefix_re [] m in
    let m := if includes m (str "/")
             then to_string (or_else (pop (split_on (chr "/") m)) (Some m))
             else m in
    (* Remove -latest suffix *)
    let* m := replace latest_suffix_re [] m in
    (* Avoid old 1.0 family *)
    let* old := test gemini_10_re m in
    if old then Ok STABLE_DEFAULT_MODEL else Ok m.

(** [Array.from(new Set(arr))]: a [Set] keeps its values in the order of
    their first insertion. *)
Definition uniq (arr : list jsstring) : list jsstring :=
  fold_left (fun set x => if existsb (JS.eqb x) set then set else set ++ [x])
            arr [].

(** "/^gemini-1\.5-flash$/" *)
Definition flash_re : regexp :=
  RegExp (seqs [AssertStart; word "gemini-1.5-flash"; AssertEnd]) false.

(** "/^gemini-1\.5-flash-8b/" *)
Definition flash_8b_re : regexp :=
  RegExp (Seq AssertStart (word "gemini-1.5-flash-8b")) false.

(** "/^gemini-1\.5-pro/" *)
Definition pro_re : regexp :=
  RegExp (Seq AssertStart (word "gemini-1.5-pro")) false.

(** "/^gemini-/" *)
Definition gemini_re : regexp :=
  RegExp (Seq AssertStart (word "gemini-")) false.

(** The closure [score] of [sortByPreference]. Its values are small
    integers, which numbers represent exactly. *)
Definition score (m : jsstring) : result Z :=
  let* flash := test flash_re m in
  if flash then Ok 100%Z
  else
    let* flash_8b := test flash_8b_re m in
    if flash_8b then Ok 90%Z
    else
      let* pro := test pro_re m in
      if pro then Ok 80%Z
      else
        let* gemini := test gemini_re m in
        if gemini then Ok 50%Z else Ok 0%Z.

(** [models.slice().sort((a, b) => score(b) - score(a))] *)
Definition sortByPreference (models : list jsstring) : result (list jsstring) :=
  (* Prefer flash first, then flash-8b, then pro, then the rest *)
  array_sort (fun a b => let* sb := score b in let* sa := score a in Ok (sb - sa)%Z)
             models.

(** [getCandidateModels], from the list that [listModelsV1] returned. *)
Definition candidates_of (listed : list jsstring) : result (list jsstring) :=
  (* Start with our stable default, then add discovered ones in preferred order *)
  let preferred := [STABLE_DEFAULT_MODEL] in
  let* gemini := array_filter (test gemini_re) listed in
  let* discovered := sortByPreference gemini in
  Ok (uniq (preferred ++ discovered)).

End Gemini.

Import Gemini.

(** ** The model name in the earlier chat client ([ai_gemini.ts], v1beta) *)

Module GeminiBeta.

Definition DEFAULT_GEMINI_MODEL : jsstring := str "gemini-1.5-flash-latest".

(** "/^projects\//" *)
Definition projects_re : regexp :=
  RegExp (Seq AssertStart (word "projects/")) false.

(** "/-00\d$/" *)
Definition versioned_re : regexp :=
  RegExp (seqs [word "-00"; digit; AssertEnd]) false.

Definition normalizeModelName (input : option jsstring) : result jsstring :=
  let m := trim (to_string (or_else input (Some []))) in
  if negb (nonempty m) then Ok DEFAULT_GEMINI_MODEL
  else
    (* A Vertex AI publisher model or a versioned suffix falls back to a
       public model name *)
    let* vertex := test projects_re m in
    let* fall_back := if vertex then Ok true else test versioned_re m in
    if fall_back then Ok DEFAULT_GEMINI_MODEL else Ok m.

(** [GEMINI_MODEL], from the value of [VITE_GEMINI_MODEL]. *)
Definition GEMINI_MODEL (env : option jsstring) : result jsstring :=
  let* m := normalizeModelName env in
  Ok (to_string (or_else (Some m) (Some DEFAULT_GEMINI_MODEL))).

End GeminiBeta.

(** ** The text of a direct OCR call ([api.ts]) *)

Module Api.

(** The parts of an OCR.Space response body that the function reads. *)
Inductive ErrorMessages :=
| NoMessage
| OneMessage (s : jsstring)
| Messages (lines : list jsstring).

Record ParsedResult := { ParsedText : option jsstring }.

Record OCRData := {
  IsErroredOnProcessing : bool;
  ErrorMessage : ErrorMessages;
  ParsedResults : option (list (option ParsedResult))
}.

(** [r?.ParsedText || ""] *)
Definition parsed_text (r : option ParsedResult) : jsstring :=
  to_string (or_else (match r with
                      | Some r => ParsedText r
                      | None => None
                      end) (Some [])).

(** [scanOCRDirectOCRSpace], from the body of a response with an OK
    status. *)
Definition text_of_ocr_data (data : OCRData) : completion jsstring :=
  (* Handle OCR.Space error semantics (200 with error details) *)
  if IsErroredOnProcessing data then
    let msg := match ErrorMessage data with
               | Messages lines => join (str "; ") lines
               | OneMessage s => to_string (or_else (Some s) (Some (str "Errored on processing")))
               | NoMessage => str "Errored on processing"
               end in
    ThrowError (str "OCR.Space error: " ++ msg)
  else
    let results := default [] (ParsedResults data) in
    let textAggregated := trim (join [10] (List.map parsed_text results)) in
    if negb (nonempty textAggregated) then
      ThrowError (str "OCR returned empty text. Try a clearer image or different language setting.")
    else Return textAggregated.

End Api.

(** ** The payload of a data URL ([cv_google.ts]) *)

Module Vision.

(** [toBase64], from the data URL that the file reader produced:
    [dataUrl.split(",")[1] || ""]. *)
Definition base64_of_data_url (dataUrl : jsstring) : jsstring :=
  to_string (or_else (index (split_on (chr ",") dataUrl) 1) (Some [])).

End Vision.

(** ** Vocabulary of the further properties *)

Section MoreVocabulary.

(** Patterns whose quantified parts have no capture groups. *)
Fixpoint quant_groupless (r : regex) : bool :=
  match r with
  | Seq r1 r2 | Alt r1 r2 => quant_groupless r1 && quant_groupless r2
  | Quant r _ _ _ => groupless r
  | Group _ r => quant_groupless r
  | _ => true
  end.

(** Patterns without assertions. *)
Fixpoint assertion_free (r : regex) : bool :=
  match r with
  | Seq r1 r2 | Alt r1 r2 => assertion_free r1 && assertion_free r2
  | Quant r _ _ _ | Group _ r => assertion_free r
  | AssertStart | AssertEnd | WordBoundary => false
  | _ => true
  end.

(** One bound on the number of iterations allows no more than another. *)
Definition at_most (a b : option nat) : Prop :=
  match a, b with
  | _, None => True
  | Some i, Some j => (i <= j)%nat
  | None, Some _ => False
  end.

(** [s] has an occurrence of a string of the language of [r]. *)
Definition occurs (icase : bool) (r : regex) (s : jsstring) : Prop :=
  exists a w b, s = a ++ w ++ b /\ lang icase r w.

(** [s] has the lower-case word [w] in it, in upper or lower case. *)
Definition mentions (w : string) (s : jsstring) : Prop :=
  exists a v b, s = a ++ v ++ b /\ List.map to_lower v = str w.

(** The part of [s] before a final [w]. *)
Fixpoint drop_suffix (w s : jsstring) : option jsstring :=
  if JS.eqb w s then Some []
  else match s with
       | [] => None
       | c :: s' => option_map (cons c) (drop_suffix w s')
       end.

(** The model name that [normalizeModelName] computes from a name that is
    not blank. *)
Definition normalized (m : jsstring) : jsstring :=
  let m := if starts_with (str "models/") m then skipn 7 m else m in
  let m := if includes m (str "/")
           then to_string (or_else (pop (split_on (chr "/") m)) (Some m))
           else m in
  let m := default m (drop_suffix (str "-latest") m) in
  if starts_with (str "gemini-1.0") m then STABLE_DEFAULT_MODEL else m.

(** The score of a model name, by its spelling. *)
Definition score_of (m : jsstring) : Z :=
  if JS.eqb (str "gemini-1.5-flash") m then 100
  else if starts_with (str "gemini-1.5-flash-8b") m then 90
  else if starts_with (str "gemini-1.5-pro") m then 80
  else if starts_with (str "gemini-") m then 50
  else 0.

(** Earlier elements have keys at least as large as later ones. *)
Definition descending (key : jsstring -> Z) (a b : jsstring) : Prop :=
  (key b <= key a)%Z.

(** The elements of a list with a given key, in the order of the list. *)
Definition having (key : jsstring -> Z) (k : Z) (l : list jsstring)
    : list jsstring :=
  List.filter (fun m => (key m =? k)%Z) l.

(** A field that counts as present: defined and not the empty string. *)
Definition present (o : option jsstring) : option jsstring :=
  if truthy o then o else None.

(** A record with its empty fields taken away. *)
Definition without_empty (ex : ExtractedFields) : ExtractedFields :=
  {| generic_name := present (generic_name ex);
     mrp := present (mrp ex);
     net_quantity := present (net_quantity ex);
     unit := present (unit ex);
     manufacturer_name := present (manufacturer_name ex);
     manufacturer_address := present (manufacturer_address ex);
     month_year := present (month_year ex);
     consumer_care := present (consumer_care ex);
     raw_text := present (raw_text ex) |}.

(** The keys and results of a list of rules. *)
Definition outcomes (rules : list RuleResult) : list (string * bool) :=
  List.map (fun r => (rule_key r, passed r)) rules.

(** The verdict by the number of differing bits. *)
Definition verdict_of_distance (dist : nat) : Verdict :=
  if Nat.leb dist 9 then likely_match
  else if Nat.leb dist 19 then likely_match_with_warnings
  else mismatch.

(** What holds of each of the 65 possible distances: the verdict is the one
    of its band, and the rounded similarity is below 1 unless the distance
    is 0. *)
Definition band_ok (dist : nat) : bool :=
  let s := similarity_of_distance dist in
  verdict_eqb (verdict_of s) (verdict_of_distance dist) &&
  Bool.eqb (Num.toFixed2 s <? 1)%float (Nat.ltb 0 dist).

(** Image data with every alpha byte set to 255. *)
Fixpoint opaque (data : list Z) : list Z :=
  match data with
  | r :: g :: b :: _ :: data' => r :: g :: b :: 255%Z :: opaque data'
  | _ => data
  end.

(** What holds of the quotient of two sizes [i <= u], [u] not zero: it lies
    between 0 and 1, is 1 exactly when the sizes agree, and is 0 exactly
    when [i] is zero. *)
Definition ratio_ok (u i : nat) : bool :=
  let q := (Num.of_nat i / Num.of_nat u)%float in
  (0 <=? q)%float && (q <=? 1)%float &&
  Bool.eqb (q =? 1)%float (Nat.eqb i u) &&
  Bool.eqb (q =? 0)%float (Nat.eqb i 0).

(** A label that has one of the words of the logo pattern in it. *)
Definition names_logo (l : jsstring) : bool :=
  includes l (str "logo") || includes l (str "brand") ||
  includes l (str "trademark").

(** Whether both lists of labels have such a label. *)
Definition logos_agree (refLabels userLabels : list jsstring) : bool :=
  existsb names_logo refLabels && existsb names_logo userLabels.

(** A number that is neither not-a-number nor infinite. *)
Definition finite (x : float) : bool :=
  match Prim2SF x with
  | S754_zero _ | S754_finite _ _ _ => true
  | _ => false
  end.

(** A colour whose channels, where given, are such numbers. *)
Definition finite_channel (o : option float) : bool :=
  match o with
  | Some x => finite x
  | None => true
  end.

Definition finite_color (c : ColorInfo) : bool :=
  match color c with
  | Some rgb =>
      finite_channel (red rgb) && finite_channel (green rgb) &&
      finite_channel (blue rgb)
  | None => true
  end.

(** A value that is not below zero: zero of either sign, a positive number,
    positive infinity, or not-a-number. *)
Definition not_negative (x : spec_float) : Prop :=
  match x with
  | S754_zero _ | S754_nan => True
  | S754_infinity s | S754_finite s _ _ => s = false
  end.

(** Zero of either sign. *)
Definition zero_like (x : float) : Prop := exists s, Prim2SF x = S754_zero s.

(** The nearest-neighbour search of [paletteSimilarity]: the least distance
    from [ca] to a colour of [bRGB] that is below [start]. *)
Definition nearest (ca : Color) (bRGB : list Color) (start : float) : float :=
  fold_left (fun best cb => let d := colorDistance ca cb in
                            if (d <? best)%float then d else best) bRGB start.

(** The similarity and the verdict of a response compared with itself, by
    whether it has labels and colours. *)
Definition self_similarity (labels : list jsstring) (colors : list ColorInfo)
    : float :=
  match labels, colors with
  | _ :: _, _ :: _ => 1
  | _ :: _, [] => 0.7
  | [], _ :: _ => 0.3
  | [], [] => 0
  end.

Definition self_verdict (labels : list jsstring) (colors : list ColorInfo)
    : Verdict :=
  match labels, colors with
  | _ :: _, _ :: _ => likely_match
  | _ :: _, [] => likely_match_with_warnings
  | [], _ => mismatch
  end.

(** A name with a version suffix: it ends in "-00" and a digit. *)
Definition versioned (m : jsstring) : Prop :=
  exists p d, m = p ++ str "-00" ++ [d] /\ is_digit d = true.

(** A string of white space only. *)
Definition blank (s : jsstring) : Prop := Forall (fun c => is_space c = true) s.

(** White, and a palette entry of a colour. *)
Definition white : Color :=
  {| red := Some 255%float; green := Some 255%float; blue := Some 255%float |}.

Definition entry (rgb : Color) : ColorInfo := {| color := Some rgb |}.

(** A response with one label and the given colours. *)
Definition labelled (colors : list Color) : AnnotateImageResponse :=
  {| labelAnnotations := Some [ {| description := Some (str "label") |} ];
     dominantColors := Some (List.map entry colors) |}.

End MoreVocabulary.


(** ** What the browser gives the chat client *)

Module Web.

(** A value built by [JSON.parse]. *)
#[warnings="-register-all"]
Inductive json :=
| JNull
| JBool (b : bool)
| JNumber (x : float)
| JString (s : jsstring)
| JArray (items : list json)
| JObject (members : list (jsstring * json)).

(** [undefined], or a value. *)
Definition value := option json.

(** The own property [key] of an object. *)
Fixpoint own (key : jsstring) (members : list (jsstring * json)) : value :=
  match members with
  | [] => None
  | (k, v) :: members' => if JS.eqb k key then Some v else own key members'
  end.

(** [v?.key] for the property names that the client reads ([candidates],
    [content], [parts], [text], [models], [name]): only an object can have
    one of them, and nothing is read from [undefined] or [null]. *)
Definition prop (key : string) (v : value) : value :=
  match v with
  | Some (JObject members) => own (str key) members
  | _ => None
  end.

(** [v?.[0]]: the first element of an array, the first code unit of a
    string, the property [0] of an object. *)
Definition first (v : value) : value :=
  match v with
  | Some (JArray items) => hd_error items
  | Some (JString (c :: _)) => Some (JString [c])
  | Some (JObject members) => own (str "0") members
  | _ => None
  end.

(** Truthiness of a value: [!!v]. *)
Definition truthy_value (v : value) : bool :=
  match v with
  | None => false
  | Some JNull => false
  | Some (JBool b) => b
  | Some (JNumber x) => negb (is_zero x || is_nan x)
  | Some (JString s) => nonempty s
  | Some (JArray _) => true
  | Some (JObject _) => true
  end.

(** An error object. [new Error(message)] has the name [Error]; what the
    platform throws or rejects with has the platform's name and message. *)
Record ErrorObject := { name : jsstring; message : jsstring }.

Definition new_Error (message : jsstring) : ErrorObject :=
  {| name := str "Error"; message := message |}.

(** [String(e?.message || e)] for an error object [e]: its message when that
    is not empty, else what [Error.prototype.toString] makes of an empty
    message, the name. *)
Definition message_or_string (e : ErrorObject) : jsstring :=
  if nonempty (message e) then message e else name e.

(** The response of a request, as far as the client reads it: [res.text()]
    and [res.json()] can reject. *)
Record Response := {
  ok : bool;
  status : N;
  statusText : jsstring;
  text : option jsstring;
  json_body : ErrorObject + json
}.

(** One message of a conversation as it is sent,
    [{ role, parts: [{ text }] }]. *)
Record Content := { role : jsstring; part_text : jsstring }.

(** The body of a request before [JSON.stringify]:
    [{ contents, systemInstruction: { parts: [{ text }] } }], the second
    property only when there is an instruction. *)
Record Body := { contents : list Content; systemInstruction : option jsstring }.

(** A call of [fetch]: [fetch(url)], or a [POST] of a JSON body. *)
Inductive Request :=
| GET (url : jsstring)
| POST (url : jsstring) (body : Body).

Inductive Reply :=
| Resolved (res : Response)
| Rejected (reason : ErrorObject).

(** The platform: the reply to a request, which may depend on all the
    requests made before it, and the errors that the engine throws. *)
Record Platform := {
  network : list Request -> Reply;
  URIError : ErrorObject;
  TypeError_not_a_function : ErrorObject
}.

(** The decimal digits of a status code, as a template literal prints it. *)
Definition decimal (n : N) : jsstring :=
  str (NilEmpty.string_of_uint (N.to_uint n)).

(** Characters that [encodeURIComponent] leaves as they are: letters,
    digits and [-_.!~*'()]. *)
Definition unreserved (c : cu) : bool :=
  in_range 97 122 c || in_range 65 90 c || is_digit c ||
  existsb (N.eqb c) (str "-_.!~*'()").

Definition hex_digit (n : N) : cu := if n <? 10 then 48 + n else 55 + n.

(** [%XX] *)
Definition percent (byte : N) : jsstring :=
  [37; hex_digit (byte / 16); hex_digit (byte mod 16)].

(** The UTF-8 octets of a code point. *)
Definition utf8 (cp : N) : list N :=
  if cp <? 0x80 then [cp]
  else if cp <? 0x800 then [0xC0 + cp / 0x40; 0x80 + cp mod 0x40]
  else if cp <? 0x10000 then
    [0xE0 + cp / 0x1000; 0x80 + (cp / 0x40) mod 0x40; 0x80 + cp mod 0x40]
  else
    [0xF0 + cp / 0x40000; 0x80 + (cp / 0x1000) mod 0x40;
     0x80 + (cp / 0x40) mod 0x40; 0x80 + cp mod 0x40].

Definition escape (cp : N) : jsstring := concat (List.map percent (utf8 cp)).

(** [encodeURIComponent(s)], [None] where it throws a [URIError]: on a
    surrogate that is not part of a pair. *)
Fixpoint encodeURIComponent (s : jsstring) : option jsstring :=
  match s with
  | [] => Some []
  | c :: s' =>
      if unreserved c then option_map (cons c) (encodeURIComponent s')
      else if in_range 0xDC00 0xDFFF c then None
      else if in_range 0xD800 0xDBFF c then
        match s' with
        | d :: s'' =>
            if in_range 0xDC00 0xDFFF d then
              option_map (app (escape ((c - 0xD800) * 0x400 + (d - 0xDC00) + 0x10000)))
                         (encodeURIComponent s'')
            else None
        | [] => None
        end
      else option_map (app (escape c)) (encodeURIComponent s')
  end.

End Web.

(** ** The chat client ([ai_gemini.ts]) *)

Module GeminiClient.

Import Web.

Inductive Role := user | assistant.

Record ChatMessage := { role : Role; content : jsstring }.

(** What the client changes: the requests made so far, the module's
    [discoveredModels], and the variables [tried] and [lastError] of the call
    in progress. One call runs at a time. *)
Record State := {
  sent : list Request;
  discoveredModels : option (list jsstring);
  tried : list jsstring;
  lastError : option ErrorObject
}.

(** How an evaluation ends: with a value, with a thrown error object (a
    rejected promise), or with a failure of the pure part that no handler of
    the client is there for. *)
Inductive outcome (A : Type) :=
| Returns (a : A)
| Throws (e : ErrorObject)
| Fails (e : error).
Arguments Returns {A} a.
Arguments Throws {A} e.
Arguments Fails {A} e.

Definition M (A : Type) : Type := State -> outcome A * State.

Definition ret {A} (a : A) : M A := fun st => (Returns a, st).

Definition throw {A} (e : ErrorObject) : M A := fun st => (Throws e, st).

Definition bindM {A B} (c : M A) (k : A -> M B) : M B :=
  fun st =>
    match c st with
    | (Returns a, st') => k a st'
    | (Throws e, st') => (Throws e, st')
    | (Fails e, st') => (Fails e, st')
    end.

Notation "'let!' x ':=' c 'in' k" := (bindM c (fun x => k))
  (at level 10, x name, c at level 100, k at level 200).

(** [try { body } catch (err) { handler }] *)
Definition try_catch {A} (body : M A) (handler : ErrorObject -> M A) : M A :=
  fun st =>
    match body st with
    | (Throws e, st') => handler e st'
    | r => r
    end.

Definition lift {A} (r : result A) : M A :=
  fun st =>
    match r with
    | Ok a => (Returns a, st)
    | Throw e => (Fails e, st)
    end.

Definition read {A} (f : State -> A) : M A := fun st => (Returns (f st), st).

Definition write (f : State -> State) : M Datatypes.unit := fun st => (Returns tt, f st).

Definition set_discoveredModels (v : option (list jsstring)) (st : State) : State :=
  {| sent := sent st; discoveredModels := v; tried := tried st;
     lastError := lastError st |}.

Definition set_tried (v : list jsstring) (st : State) : State :=
  {| sent := sent st; discoveredModels := discoveredModels st; tried := v;
     lastError := lastError st |}.

Definition set_lastError (v : option ErrorObject) (st : State) : State :=
  {| sent := sent st; discoveredModels := discoveredModels st; tried := tried st;
     lastError := v |}.

Definition set_sent (v : list Request) (st : State) : State :=
  {| sent := v; discoveredModels := discoveredModels st; tried := tried st;
     lastError := lastError st |}.

Section Client.

Variable platform : Platform.

(** [GEMINI_API_KEY], a constant of the source. *)
Variable GEMINI_API_KEY : jsstring.

(** [await fetch(...)] *)
Definition fetch (req : Request) : M Response :=
  fun st =>
    let requests := sent st ++ [req] in
    match network platform requests with
    | Resolved res => (Returns res, set_sent requests st)
    | Rejected reason => (Throws reason, set_sent requests st)
    end.

(** [await res.json()] *)
Definition json_of (res : Response) : M json :=
  match json_body res with
  | inr data => ret data
  | inl reason => throw reason
  end.

(** [v || ""] *)
Definition or_empty (v : value) : json :=
  match v with
  | Some x => if truthy_value v then x else JString []
  | None => JString []
  end.

(** [data?.candidates?.[0]?.content?.parts?.[0]?.text || ""] *)
Definition first_text (data : json) : json :=
  or_empty (prop "text" (first (prop "parts" (prop "content"
             (first (prop "candidates" (Some data))))))).

(** [typeof m?.name === "string" ? m.name : ""] *)
Definition name_of (m : json) : jsstring :=
  match prop "name" (Some m) with
  | Some (JString s) => s
  | _ => []
  end.

Fixpoint map_result {A B} (f : A -> result B) (arr : list A) : result (list B) :=
  match arr with
  | [] => Ok []
  | x :: arr' => let* y := f x in let* ys := map_result f arr' in Ok (y :: ys)
  end.

Definition googleapis : jsstring := str "https://generativelanguage.googleapis.com/".

Definition listModelsV1 : M (option (list jsstring)) :=
  let! cached := read discoveredModels in
  match cached with
  | Some models => ret (Some models)
  | None =>
      let! _ :=
        try_catch
          (let url := googleapis ++ str "v1/models?key=" ++ GEMINI_API_KEY in
           let! res := fetch (GET url) in
           if negb (ok res) then
             throw (new_Error (str "ListModels " ++ decimal (status res) ++ str ": " ++
                               default (statusText res) (text res)))
           else
             let! data := json_of res in
             match (if truthy_value (prop "models" (Some data))
                    then prop "models" (Some data) else Some (JArray [])) with
             | Some (JArray models) =>
                 let! names :=
                   lift (map_result (replace models_prefix_re [])
                           (List.filter nonempty (List.map name_of models))) in
                 write (set_discoveredModels (Some (uniq names)))
             | _ => throw (TypeError_not_a_function platform)
             end)
          (fun e =>
             (* If listing fails (e.g., quota/restriction), fall back to defaults only *)
             write (set_discoveredModels (Some [])))
      in
      read discoveredModels
  end.

Definition getCandidateModels : M (list jsstring) :=
  let! listed := listModelsV1 in
  match listed with
  | Some listed => lift (candidates_of listed)
  | None => lift (Throw TypeError)
  end.

(** "/systemInstruction|system_instruction/" *)
Definition system_instruction_re : regexp :=
  RegExp (Alt (word "systemInstruction") (word "system_instruction")) false.

Definition ver : jsstring := str "v1".

(** [(discoveredModels ?? (discoveredModels = [])).push(model)] *)
Definition remember (model : jsstring) : M Datatypes.unit :=
  let! known := read discoveredModels in
  write (set_discoveredModels (Some (default [] known ++ [model]))).

(** "Gemini ${res.status}: ${txt || res.statusText}" *)
Definition failure (res : Response) (txt : jsstring) : ErrorObject :=
  new_Error (str "Gemini " ++ decimal (status res) ++ str ": " ++
             to_string (or_else (Some txt) (Some (statusText res)))).

(** The closure [attempt] of [generateWithGemini]: it returns the text of
    the reply, or [false]. *)
Definition attempt (contents : list Content) (systemInstruction : option jsstring)
    (model : jsstring) : M json :=
  let! encoded := match encodeURIComponent model with
                  | Some e => ret e
                  | None => throw (URIError platform)
                  end in
  let endpoint := googleapis ++ ver ++ str "/models/" ++ encoded ++
                  str ":generateContent?key=" ++ GEMINI_API_KEY in
  let! _ := write (fun st => set_tried (tried st ++ [ver ++ str "/" ++ model]) st) in
  (* Build body; use systemInstruction (camelCase) for v1 REST JSON *)
  let bodyAny := {| contents := contents;
                    systemInstruction := if truthy systemInstruction
                                         then systemInstruction else None |} in
  try_catch
    (let! res := fetch (POST endpoint bodyAny) in
     if negb (ok res) then
       let txt := default [] (text res) in
       (* If the server complains about system instruction field, retry without it *)
       let! complains :=
         if status res =? 400
         then lift (test system_instruction_re (to_string (or_else (Some txt) (Some []))))
         else ret false in
       if complains then
         let! res2 := fetch (POST endpoint {| contents := contents;
                                              systemInstruction := None |}) in
         if negb (ok res2) then
           let txt2 := default [] (text res2) in
           let! _ := write (set_lastError (Some (failure res2 txt2))) in
           ret (JBool false)
         else
           let! data2 := json_of res2 in
           let text2 := first_text data2 in
           if truthy_value (Some text2) then
             let! _ := write (set_lastError None) in
             let! _ := remember model in
             ret text2
           else
             let! _ := write (set_lastError (Some (new_Error (str "Gemini returned no text")))) in
             ret (JBool false)
       else
         (* For 404, indicate not found; for other retryable codes, keep trying *)
         if (status res =? 404) || (status res =? 403) || (status res =? 400) then
           let! _ := write (set_lastError (Some (failure res txt))) in
           ret (JBool false)
         else throw (failure res txt)
     else
       let! data := json_of res in
       let text := first_text data in
       if truthy_value (Some text) then
         let! _ := write (set_lastError None) in
         let! _ := remember model in
         ret text
       else
         let! _ := write (set_lastError (Some (new_Error (str "Gemini returned no text")))) in
         ret (JBool false))
    (fun err =>
       let! _ := write (set_lastError (Some err)) in
       ret (JBool false)).

(** [typeof out === "string" && out]: the text to return, if any. *)
Definition string_and_truthy (out : json) : option jsstring :=
  match out with
  | JString (c :: s) => Some (c :: s)
  | _ => None
  end.

(** [for (const m of models) { ... }] with a body that may return from the
    function: [Some text] stands for [return text]. *)
Fixpoint for_of (models : list jsstring) (body : jsstring -> M (option jsstring))
    : M (option jsstring) :=
  match models with
  | [] => ret None
  | m :: models' =>
      let! returned := body m in
      match returned with
      | Some text => ret (Some text)
      | None => for_of models' body
      end
  end.

Definition generateWithGemini (messages : list ChatMessage)
    (systemInstruction : option jsstring) : M jsstring :=
  if negb (nonempty GEMINI_API_KEY) then throw (new_Error (str "Gemini API key missing"))
  else
    (* Convert local messages to Gemini contents *)
    let contents :=
      List.map (fun m => {| Web.role := match role m with
                                        | assistant => str "model"
                                        | user => str "user"
                                        end;
                            part_text := content m |}) messages in
    let! _ := write (set_tried []) in
    let! _ := write (set_lastError None) in
    (* Build an initial list, then expand using ListModels if needed *)
    let! initial := lift (normalizeModelName (Some STABLE_DEFAULT_MODEL)) in
    let modelsToTry := uniq [initial] in
    (* First try the default *)
    let! returned :=
      for_of modelsToTry (fun m =>
        let! out := attempt contents systemInstruction m in
        ret (string_and_truthy out)) in
    match returned with
    | Some text => ret text
    | None =>
        (* If initial failed (e.g., 404), dynamically discover models and try compatible ones *)
        let! discovered := getCandidateModels in
        let! returned :=
          for_of discovered (fun m =>
            if negb (existsb (JS.eqb m) modelsToTry) then
              let! out := attempt contents systemInstruction m in
              ret (string_and_truthy out)
            else ret None) in
        match returned with
        | Some text => ret text
        | None =>
            (* If all attempts failed, throw a helpful error *)
            let! tried := read tried in
            let suffix := match tried with
                          | [] => []
                          | _ :: _ => str "; tried: " ++ join (str ", ") tried
                          end in
            let! lastError := read lastError in
            match lastError with
            | Some e => throw (new_Error (message_or_string e ++ suffix))
            | None => throw (new_Error (str "Gemini request failed" ++ suffix))
            end
        end
    end.

End Client.

End GeminiClient.

(** ** Vocabulary of the chat client's properties *)

Section ClientVocabulary.

Import Web GeminiClient.

Variable platform : Platform.
Variable GEMINI_API_KEY : jsstring.

(** The address of [generateContent] for an encoded model name. *)
Definition endpoint (encoded : jsstring) : jsstring :=
  googleapis ++ ver ++ str "/models/" ++ encoded ++ str ":generateContent?key=" ++
  GEMINI_API_KEY.

(** The address of the list of models. *)
Definition models_url : jsstring := googleapis ++ str "v1/models?key=" ++ GEMINI_API_KEY.

(** The entry of [tried] for a model. *)
Definition tried_entry (model : jsstring) : jsstring := ver ++ str "/" ++ model.

(** The messages as they are sent. *)
Definition contents_of (messages : list ChatMessage) : list Content :=
  List.map (fun m => {| Web.role := match role m with
                                    | assistant => str "model"
                                    | user => str "user"
                                    end;
                        part_text := content m |}) messages.

(** The request of an attempt, and its repetition without the system
    instruction. *)
Definition first_post (contents : list Content) (systemInstruction : option jsstring)
    (encoded : jsstring) : Request :=
  POST (endpoint encoded)
       {| contents := contents;
          systemInstruction := match systemInstruction with
                               | Some (_ :: _) => systemInstruction
                               | _ => None
                               end |}.

Definition second_post (contents : list Content) (encoded : jsstring) : Request :=
  POST (endpoint encoded) {| contents := contents; systemInstruction := None |}.

(** A reply that makes [attempt] ask again: status 400 with a text that
    names the system instruction. *)
Definition complains (reply : Reply) : bool :=
  match reply with
  | Resolved res =>
      negb (ok res) && (status res =? 400) &&
      (includes (default [] (text res)) (str "systemInstruction") ||
       includes (default [] (text res)) (str "system_instruction"))
  | Rejected _ => false
  end.

(** What [attempt] makes of the last reply it gets: the text of a good
    reply, which it returns after remembering the model, or an error to keep
    in [lastError]. *)
Definition verdict_of_reply (reply : Reply) : json + ErrorObject :=
  match reply with
  | Rejected reason => inr reason
  | Resolved res =>
      if ok res then
        match json_body res with
        | inl reason => inr reason
        | inr data =>
            if truthy_value (Some (first_text data)) then inl (first_text data)
            else inr (new_Error (str "Gemini returned no text"))
        end
      else inr (failure res (default [] (text res)))
  end.

Definition is_listing (req : Request) : bool :=
  match req with
  | GET _ => true
  | POST _ _ => false
  end.

(** The names in the reply to a listing request: [None] where reading them
    throws. *)
Definition listed_names (reply : Reply) : option (list jsstring) :=
  match reply with
  | Rejected _ => None
  | Resolved res =>
      if ok res then
        match json_body res with
        | inl _ => None
        | inr data =>
            match prop "models" (Some data) with
            | Some (JArray models) =>
                Some (List.map (fun n => if starts_with (str "models/") n
                                         then skipn 7 n else n)
                        (List.filter nonempty (List.map name_of models)))
            | v => if truthy_value v then None else Some []
            end
        end
      else None
  end.

(** A session: calls of [generateWithGemini] one after the other, whatever
    they end in. *)
Fixpoint session (calls : list (list ChatMessage * option jsstring)) (st : State)
    : State :=
  match calls with
  | [] => st
  | (messages, systemInstruction) :: calls' =>
      session calls'
        (snd (generateWithGemini platform GEMINI_API_KEY messages systemInstruction st))
  end.

(** Two platforms to run the client on: one without a network, whose every
    request is rejected, and one that answers every request with a text. *)
Definition offline : Platform :=
  {| network := fun _ => Rejected {| name := str "TypeError";
                                     message := str "Failed to fetch" |};
     URIError := {| name := str "URIError"; message := str "URI malformed" |};
     TypeError_not_a_function := {| name := str "TypeError";
                                    message := str "not a function" |} |}.

Definition answering (text : jsstring) : Platform :=
  {| network := fun _ =>
       Resolved {| ok := true; status := 200; statusText := str "OK"; text := None;
                   json_body :=
                     inr (JObject [(str "candidates",
                            JArray [JObject [(str "content",
                              JObject [(str "parts",
                                JArray [JObject [(str "text", JString text)]])])]])]) |};
     URIError := {| name := str "URIError"; message := str "URI malformed" |};
     TypeError_not_a_function := {| name := str "TypeError";
                                    message := str "not a function" |} |}.

(** The state of a page that has made no request yet. *)
Definition fresh : State :=
  {| sent := []; discoveredModels := None; tried := []; lastError := None |}.

End ClientVocabulary.

(** ** The direct scan of the scanner page ([Scanner.tsx]) *)

Module Scanner.

(** [ScanOCRResponse], as the page keeps it in [ocrResult]. *)
Record ScanOCRResponse := {
  scan_id : jsstring;
  extracted : ExtractedFields;
  rules : list RuleResult;
  summary : SummaryResult
}.

(** What the [try] block of [handleOCRFileSelected] ends in: the result that
    it sets, or the error toast, with the message of an [Error] as its
    description. *)
Inductive scan_end :=
| Result (res : ScanOCRResponse)
| Toast (description : jsstring)
| ToastOf (e : error).

(** The [try] block of [handleOCRFileSelected], from the body of the OCR
    response. *)
Definition direct_scan (data : Api.OCRData) : scan_end :=
  match Api.text_of_ocr_data data with
  | ThrowError description => Toast description
  | Return raw_text =>
      match (let* extracted := parseFieldsFromRawText raw_text in
             let* local := validateLocally extracted in
             Ok {| scan_id := str "direct-ocrspace"; extracted := extracted;
                   rules := fst local; summary := snd local |}) with
      | Ok res => Result res
      | Throw e => ToastOf e
      end
  end.

End Scanner.

(** * Properties of the matcher *)

Arguments repeat_matcher : simpl never.

Section MatcherFacts.

Variable icase : bool.

Lemma repeat_matcher_S fuel mr min max greedy x c :
  repeat_matcher (S fuel) mr min max greedy x c =
  match max with
  | Some O => c x
  | _ =>
      let d := fun y =>
        if Nat.eqb min 0 && Nat.eqb (length (rest y)) (length (rest x))
        then Failure
        else repeat_matcher fuel mr (Nat.pred min) (option_map Nat.pred max)
               greedy y c in
      if negb (Nat.eqb min 0) then mr x d
      else if greedy then
        match mr x d with
        | Failure => c x
        | z => z
        end
      else
        match c x with
        | Failure => mr x d
        | z => z
        end
  end.
Proof. reflexivity. Qed.

Lemma fuel_safe_mono x y c :
  (length (rest y) <= length (rest x))%nat -> fuel_safe x c -> fuel_safe y c.
Proof. intros Hle Hc z Hz. apply Hc. lia. Qed.

Lemma repeat_matcher_fuel (mr : mstate -> continuation -> outcome) :
  (forall x c, fuel_safe x c -> mr x c <> OutOfFuel) ->
  forall fuel min max greedy x c,
    (min + length (rest x) < fuel)%nat ->
    fuel_safe x c ->
    repeat_matcher fuel mr min max greedy x c <> OutOfFuel.
Proof.
  intros Hmr fuel. induction fuel as [|fuel IH]; intros min max greedy x c Hf Hc.
  - lia.
  - assert (Hcx : c x <> OutOfFuel) by (apply Hc; lia).
    assert (Hd : fuel_safe x (fun y =>
              if Nat.eqb min 0 && Nat.eqb (length (rest y)) (length (rest x))
              then Failure
              else repeat_matcher fuel mr (Nat.pred min) (option_map Nat.pred max)
                     greedy y c)).
    { intros y Hy.
      destruct (Nat.eqb min 0) eqn:Hmin; simpl.
      - destruct (Nat.eqb (length (rest y)) (length (rest x))) eqn:Hlen; [discriminate|].
        apply Nat.eqb_eq in Hmin. apply Nat.eqb_neq in Hlen. subst min.
        apply IH; [simpl in *; lia | eapply fuel_safe_mono; eauto].
      - apply Nat.eqb_neq in Hmin.
        apply IH; [lia | eapply fuel_safe_mono; eauto]. }
    specialize (Hmr x _ Hd).
    rewrite repeat_matcher_S.
    destruct max as [[|k]|]; auto;
      (destruct (Nat.eqb min 0); simpl in Hmr |- *; auto;
       destruct greedy;
       [ match goal with |- context [mr x ?d] => destruct (mr x d) end; congruence
       | destruct (c x); congruence ]).
Qed.

(** The step budget of the matcher is never used up. *)
Lemma m_fuel r : forall x c, fuel_safe x c -> m icase r x c <> OutOfFuel.
Proof.
  induction r; intros x c Hc; simpl.
  - apply Hc; lia.
  - destruct (rest x) as [|ch s'] eqn:Hr; [discriminate|].
    destruct (atom_match icase a ch); [|discriminate].
    apply Hc. simpl. rewrite Hr. simpl. lia.
  - apply IHr1. intros y Hy. apply IHr2. eapply fuel_safe_mono; eauto.
  - specialize (IHr1 x c Hc). specialize (IHr2 x c Hc).
    destruct (m icase r1 x c); congruence.
  - apply repeat_matcher_fuel; auto.
  - apply IHr. intros y Hy. apply Hc. simpl. lia.
  - destruct (prev x); [apply Hc; lia | discriminate].
  - destruct (rest x); [apply Hc; lia | discriminate].
  - destruct (xorb _ _); [apply Hc; lia | discriminate].
Qed.

Lemma fuel_safe_Matched x : fuel_safe x Matched.
Proof. intros y _. discriminate. Qed.

(** ** Every match of the matcher is a run of the pattern *)

Lemma repeat_matcher_sound r (mr : mstate -> continuation -> outcome) :
  (forall x c z, mr x c = Matched z -> exists y, Run icase r x y /\ c y = Matched z) ->
  forall fuel min max greedy x c z,
    (forall k, max = Some k -> (min <= k)%nat) ->
    repeat_matcher fuel mr min max greedy x c = Matched z ->
    exists y, Run icase (Quant r min max greedy) x y /\ c y = Matched z.
Proof.
  intros Hmr fuel.
  induction fuel as [|fuel IH]; intros min max greedy x c z Hwf H.
  - discriminate.
  - rewrite repeat_matcher_S in H.
    destruct (decide (max = Some 0%nat)) as [Hmax|Hmax].
    { subst max. assert (min = 0%nat) by (specialize (Hwf _ eq_refl); lia).
      subst min. exists x. split; [constructor | exact H]. }
    assert (Hstep : forall z',
      mr x (fun y =>
            if Nat.eqb min 0 && Nat.eqb (length (rest y)) (length (rest x))
            then Failure
            else repeat_matcher fuel mr (Nat.pred min) (option_map Nat.pred max)
                   greedy y c) = Matched z' ->
      exists y, Run icase (Quant r min max greedy) x y /\ c y = Matched z').
    { intros z' Hz'. apply Hmr in Hz' as (y & Hy & Hd).
      destruct (Nat.eqb min 0 && Nat.eqb (length (rest y)) (length (rest x)));
        [discriminate|].
      apply IH in Hd as (y' & Hy' & Hc).
      - exists y'. split; [econstructor; eauto | exact Hc].
      - intros k Hk. destruct max as [k'|]; [|discriminate].
        simpl in Hk. injection Hk as <-. specialize (Hwf _ eq_refl). lia. }
    assert (Hstop : forall z', min = 0%nat -> c x = Matched z' ->
      exists y, Run icase (Quant r min max greedy) x y /\ c y = Matched z').
    { intros z' -> Hz'. exists x. split; [constructor | exact Hz']. }
    assert (H' :
      (if negb (Nat.eqb min 0) then
         mr x (fun y =>
            if Nat.eqb min 0 && Nat.eqb (length (rest y)) (length (rest x))
            then Failure
            else repeat_matcher fuel mr (Nat.pred min) (option_map Nat.pred max)
                   greedy y c)
       else if greedy then
         match mr x (fun y =>
            if Nat.eqb min 0 && Nat.eqb (length (rest y)) (length (rest x))
            then Failure
            else repeat_matcher fuel mr (Nat.pred min) (option_map Nat.pred max)
                   greedy y c) with
         | Failure => c x
         | z => z
         end
       else
         match c x with
         | Failure =>
             mr x (fun y =>
               if Nat.eqb min 0 && Nat.eqb (length (rest y)) (length (rest x))
               then Failure
               else repeat_matcher fuel mr (Nat.pred min) (option_map Nat.pred max)
                      greedy y c)
         | z => z
         end) = Matched z).
    { destruct max as [[|k]|]; [congruence | exact H | exact H]. }
    clear H.
    destruct (Nat.eqb min 0) eqn:Hmin; cbn [negb] in H'.
    + apply Nat.eqb_eq in Hmin. destruct greedy.
      * match type of H' with match ?e with _ => _ end = _ => destruct e eqn:He end;
          [ injection H' as <-; eauto | eauto | discriminate ].
      * destruct (c x) eqn:He; [ injection H' as <-; eauto | eauto | discriminate ].
    + eauto.
Qed.

Lemma m_sound r :
  well_formed r = true ->
  forall x c z, m icase r x c = Matched z ->
                exists y, Run icase r x y /\ c y = Matched z.
Proof.
  induction r; intros Hwf x c z H; simpl in H.
  - exists x. split; [constructor | exact H].
  - destruct (rest x) as [|ch s'] eqn:Hr; [discriminate|].
    destruct (atom_match icase a ch) eqn:Ha; [|discriminate].
    eexists. split; [econstructor; eauto | exact H].
  - simpl in Hwf. apply andb_prop in Hwf as [Hwf1 Hwf2].
    apply IHr1 in H as (y & Hy & H); auto.
    apply IHr2 in H as (y' & Hy' & H); auto.
    exists y'. split; [econstructor; eauto | exact H].
  - simpl in Hwf. apply andb_prop in Hwf as [Hwf1 Hwf2].
    destruct (m icase r1 x c) eqn:H1.
    + injection H as ->. apply IHr1 in H1 as (y' & Hy' & H1); auto.
      exists y'. split; [apply run_alt_l; auto | exact H1].
    + apply IHr2 in H as (y' & Hy' & H); auto.
      exists y'. split; [apply run_alt_r; auto | exact H].
    + discriminate.
  - simpl in Hwf.
    eapply repeat_matcher_sound in H; eauto.
    + apply IHr. destruct max; [apply andb_prop in Hwf as [_ ?]|]; auto.
    + intros k ->. apply andb_prop in Hwf as [Hle _]. apply Nat.leb_le in Hle. exact Hle.
  - simpl in Hwf. apply IHr in H as (y & Hy & H); auto.
    eexists. split; [econstructor; eauto | exact H].
  - destruct (prev x) eqn:Hp; [|discriminate].
    exists x. split; [constructor; auto | exact H].
  - destruct (rest x) eqn:Hp; [|discriminate].
    exists x. split; [constructor; auto | exact H].
  - destruct (xorb _ _) eqn:Hp; [|discriminate].
    exists x. split; [constructor; auto | exact H].
Qed.

(** ** What a run consumes and captures *)

Lemma run_span r x y :
  Run icase r x y ->
  exists mid, rest x = mid ++ rest y /\ prev y = rev mid ++ prev x.
Proof.
  induction 1; try (exists []; split; reflexivity).
  - exists [ch]. split; [exact H | reflexivity].
  - destruct IHRun1 as (m1 & H1 & H2). destruct IHRun2 as (m2 & H3 & H4).
    exists (m1 ++ m2). rewrite H1, H3, H4, H2, rev_app_distr, !app_assoc. auto.
  - exact IHRun.
  - exact IHRun.
  - destruct IHRun1 as (m1 & H1' & H2'). destruct IHRun2 as (m2 & H3 & H4).
    exists (m1 ++ m2). rewrite H1', H3, H4, H2', rev_app_distr, !app_assoc. auto.
  - exact IHRun.
Qed.

Lemma span_of_mid x y mid :
  prev y = rev mid ++ prev x -> span x y = mid.
Proof.
  intros H. unfold span. rewrite H, length_app, Nat.add_sub.
  rewrite firstn_app, firstn_all, Nat.sub_diag. simpl.
  rewrite app_nil_r. apply rev_involutive.
Qed.

Lemma run_span' r x y :
  Run icase r x y ->
  rest x = span x y ++ rest y /\ prev y = rev (span x y) ++ prev x.
Proof.
  intros H. destruct (run_span _ _ _ H) as (mid & H1 & H2).
  rewrite (span_of_mid _ _ _ H2). auto.
Qed.

Lemma span_trans r1 r2 x y z :
  Run icase r1 x y -> Run icase r2 y z -> span x z = span x y ++ span y z.
Proof.
  intros H1 H2. apply run_span' in H1 as [_ H1]. apply run_span' in H2 as [_ H2].
  apply span_of_mid. rewrite H2, H1, rev_app_distr, app_assoc. reflexivity.
Qed.

Lemma span_refl x : span x x = [].
Proof. apply span_of_mid. reflexivity. Qed.

Lemma run_lang r x y : Run icase r x y -> lang icase r (span x y).
Proof.
  induction 1; simpl; try apply span_refl.
  - exists ch. split; [|assumption]. apply span_of_mid. reflexivity.
  - exists (span x y), (span y z). split; [eapply span_trans; eauto | auto].
  - left. assumption.
  - right. assumption.
  - exists []. rewrite span_refl. repeat split; auto; simpl; try lia. 
  - simpl in IHRun2. destruct IHRun2 as (ss & Hss & Hall & Hmin & Hmax).
    exists (span x y :: ss). simpl. rewrite <- Hss.
    split; [eapply span_trans; eauto|]. split; [constructor; auto|].
    split; [lia|]. intros k ->. destruct k; [congruence|].
    specialize (Hmax k eq_refl). lia.
  - assert (span x (set_cap n (span x y) y) = span x y) as -> by reflexivity.
    assumption.
Qed.

Lemma run_groupless r x y :
  Run icase r x y -> groupless r = true -> caps y = caps x.
Proof.
  induction 1; simpl; intros Hg; try reflexivity; try discriminate;
    try (apply andb_prop in Hg as [Hg1 Hg2]); auto.
  - rewrite IHRun2, IHRun1; auto.
  - rewrite IHRun2, IHRun1; auto.
Qed.

End MatcherFacts.

(** ** The built-in operations on patterns *)

Section ExecFacts.

Variable re : regexp.

Lemma start_fuel pre s :
  m (ignoreCase re) (pattern re) (start_state pre s) Matched <> OutOfFuel.
Proof. apply m_fuel, fuel_safe_Matched. Qed.

Lemma exec_from_here pre s y :
  m (ignoreCase re) (pattern re) (start_state pre s) Matched = Matched y ->
  exec_from re pre s = Ok (Some (result_of pre y)).
Proof. intros H. destruct s; simpl; rewrite H; reflexivity. Qed.

Lemma exec_from_total s : forall pre, exists r, exec_from re pre s = Ok r.
Proof.
  induction s as [|ch s IH]; intros pre; simpl;
    pose proof (start_fuel pre) as Hf.
  - specialize (Hf []). destruct (m _ _ _ _); eauto. congruence.
  - specialize (Hf (ch :: s)). destruct (m _ _ _ _); eauto. congruence.
Qed.

(** [exec], [test] and [replace] always return. *)
Lemma exec_total s : exists r, exec re s = Ok r.
Proof. apply exec_from_total. Qed.

Lemma test_total s : exists b, test re s = Ok b.
Proof. unfold test. destruct (exec_total s) as [r ->]. simpl. eauto. Qed.

Lemma replace_total repl s : exists t, replace re repl s = Ok t.
Proof. unfold replace. destruct (exec_total s) as [r ->]. simpl. eauto. Qed.

Lemma replace_from_total repl s : forall pre skip, exists t, replace_from re repl pre skip s = Ok t.
Proof.
  induction s as [|ch s IH]; intros pre skip.
  - destruct skip; simpl; eauto.
    pose proof (start_fuel pre []) as Hf. destruct (m _ _ _ _); eauto. congruence.
  - destruct skip as [|k]; simpl; [|apply IH].
    pose proof (start_fuel pre (ch :: s)) as Hf.
    destruct (m _ _ _ _) as [y| |]; [| |congruence].
    + destruct (length (prev y) - length pre)%nat as [|k].
      * destruct (IH (ch :: pre) 0%nat) as [t ->]. simpl. eauto.
      * destruct (IH (ch :: pre) k) as [t ->]. simpl. eauto.
    + destruct (IH (ch :: pre) 0%nat) as [t ->]. simpl. eauto.
Qed.

Lemma replace_all_total repl s : exists t, replace_all re repl s = Ok t.
Proof. apply replace_from_total. Qed.

Lemma split_from_total s : forall pre cur skip, exists t, split_from re pre cur skip s = Ok t.
Proof.
  induction s as [|ch s IH]; intros pre cur skip; simpl; eauto.
  destruct skip as [|k]; [|apply IH].
  pose proof (start_fuel pre (ch :: s)) as Hf.
  destruct (m _ _ _ _) as [y| |]; [| |congruence].
  - destruct (length (prev y) - length pre)%nat as [|k].
    + destruct cur; [apply IH|].
      destruct (IH (ch :: pre) [ch] 0%nat) as [t ->]. simpl. eauto.
    + destruct (IH (ch :: pre) [] k) as [t ->]. simpl. eauto.
  - apply IH.
Qed.

Lemma split_total s : exists t, split re s = Ok t.
Proof.
  destruct s as [|ch s]; [|apply split_from_total].
  unfold split. pose proof (start_fuel [] []) as Hf.
  destruct (m _ _ _ _); eauto. congruence.
Qed.

Hypothesis Hwf : well_formed (pattern re) = true.

Lemma exec_from_some s : forall pre mr,
  exec_from re pre s = Ok (Some mr) ->
  exists pre' s' y,
    rev pre ++ s = rev pre' ++ s' /\
    Run (ignoreCase re) (pattern re) (start_state pre' s') y /\
    mr = result_of pre' y.
Proof.
  induction s as [|ch s IH]; intros pre mr H; simpl in H.
  - destruct (m _ _ _ _) as [y| |] eqn:Hm; [|discriminate..].
    injection H as <-. apply m_sound in Hm as (y' & Hrun & Hy'); auto.
    injection Hy' as ->. exists pre, [], y. auto.
  - destruct (m _ _ _ _) as [y| |] eqn:Hm; [| |discriminate].
    + injection H as <-. apply m_sound in Hm as (y' & Hrun & Hy'); auto.
      injection Hy' as ->. exists pre, (ch :: s), y. auto.
    + apply IH in H as (pre' & s' & y & Heq & Hrun & ->).
      exists pre', s', y. simpl in Heq. rewrite <- app_assoc in Heq. auto.
Qed.

(** A match result splits the subject around a string of the pattern's
    language, and its groups are the captures of the run that made it. *)
Lemma exec_some s mr :
  exec re s = Ok (Some mr) ->
  s = before mr ++ matched mr ++ after mr /\
  lang (ignoreCase re) (pattern re) (matched mr) /\
  exists x y, Run (ignoreCase re) (pattern re) x y /\ caps x = [] /\
              groups mr = caps y /\ span x y = matched mr.
Proof.
  intros H. apply exec_from_some in H as (pre & s' & y & Heq & Hrun & ->).
  simpl in Heq. subst s.
  pose proof (run_span' _ _ _ _ Hrun) as [H1 H2]. simpl in H1, H2.
  assert (Hm : matched (result_of pre y) = span (start_state pre s') y) by reflexivity.
  rewrite Hm. split; [|split].
  - cbn [before after result_of]. rewrite <- H1. reflexivity.
  - apply run_lang. exact Hrun.
  - exists (start_state pre s'), y. auto.
Qed.

End ExecFacts.

(** ** Replacing every occurrence of one character *)

Lemma replace_from_lit a repl s : forall pre,
  replace_from (RegExp (Atom (Lit a)) false) repl pre 0 s =
  Ok (flat_map (fun ch => if a =? ch then repl else [ch]) s).
Proof.
  induction s as [|ch s IH]; intros pre; simpl; [reflexivity|].
  destruct (a =? ch) eqn:Ha; simpl.
  - replace (S (length pre) - length pre)%nat with 1%nat by lia.
    rewrite IH. reflexivity.
  - rewrite IH. reflexivity.
Qed.

Lemma replace_all_lit a repl s :
  replace_all (RegExp (Atom (Lit a)) false) repl s =
  Ok (flat_map (fun ch => if a =? ch then repl else [ch]) s).
Proof. apply replace_from_lit. Qed.

(** Replacing the rupee sign by itself changes nothing. *)
Lemma normalize_rupee s : replace_all rupee_re [rupee] s = Ok s.
Proof.
  unfold rupee_re. rewrite replace_all_lit. f_equal.
  induction s as [|ch s IH]; [reflexivity|].
  cbn [flat_map]. rewrite IH. destruct (rupee =? ch) eqn:E; [|reflexivity].
  apply N.eqb_eq in E. subst ch. reflexivity.
Qed.

(** [replace(/,/g, "")] keeps the characters that are not commas. *)
Lemma strip_commas s :
  replace_all comma_re [] s = Ok (without_commas s).
Proof.
  unfold comma_re. rewrite replace_all_lit. f_equal. unfold without_commas.
  induction s as [|ch s IH]; [reflexivity|].
  cbn [flat_map List.filter]. rewrite IH. fold comma.
  destruct (comma =? ch); reflexivity.
Qed.

Lemma raw_or_empty raw : to_string (or_else (Some raw) (Some [])) = raw.
Proof. destruct raw; reflexivity. Qed.

Lemma find_total re lines : exists r, find (test re) lines = Ok r.
Proof.
  induction lines as [|l lines IH]; simpl; eauto.
  destruct (test_total re l) as [b ->]. simpl. destruct b; eauto.
Qed.

(** The first line accepted by [find], with its index. *)
Lemma find_some re lines l :
  find (test re) lines = Ok (Some l) ->
  exists i, nth_error lines i = Some l /\ test re l = Ok true /\
            indexOf lines l = Z.of_nat i /\
            forall j l', (j < i)%nat -> nth_error lines j = Some l' ->
                         test re l' = Ok false.
Proof.
  induction lines as [|l0 lines IH]; simpl; [discriminate|].
  destruct (test re l0) as [b|] eqn:Ht; simpl; [|discriminate].
  destruct b.
  - intros [= ->]. exists 0%nat. unfold JS.eqb. rewrite bool_decide_eq_true_2 by reflexivity.
    repeat split; auto. intros j l' Hj. lia.
  - intros H. apply IH in H as (i & Hi & Htrue & Hidx & Hbefore).
    exists (S i). split; [exact Hi|]. split; [exact Htrue|]. split.
    + unfold JS.eqb. rewrite bool_decide_eq_false_2 by congruence.
      rewrite Hidx. destruct (Z.ltb_spec (Z.of_nat i) 0); lia.
    + intros [|j] l' Hj; simpl.
      * intros [= <-]. exact Ht.
      * apply Hbefore. lia.
Qed.

(** ** The extractor, step by step *)

(** [parseFieldsFromRawText] always returns, and its fields are these
    functions of the matches of its patterns. *)
Lemma parse_unfold raw :
  exists pieces mrpMatch qtyMatch myMatch careMatch manufLine nameLine name label looks,
    split newline_re raw = Ok pieces /\
    exec mrp_re raw = Ok mrpMatch /\
    exec qty_re raw = Ok qtyMatch /\
    exec my_re raw = Ok myMatch /\
    exec care_re raw = Ok careMatch /\
    find (test manuf_re) (lines_of pieces) = Ok manufLine /\
    find (test name_re) (lines_of pieces) = Ok nameLine /\
    opt_chain (replace label_re []) manufLine = Ok name /\
    replace label_re [] (to_string nameLine) = Ok label /\
    let lines := lines_of pieces in
    let idx := if truthy manufLine then indexOf lines (to_string manufLine) else (-1)%Z in
    test addr_re (to_string (index lines (idx + 1))) = Ok looks /\
    parseFieldsFromRawText raw = Ok
      {| generic_name := if truthy nameLine then Some (trim label) else None;
         mrp := match mrpMatch with
                | Some mr => if includes raw [rupee]
                             then Some (rupee :: to_string (group 1 mr))
                             else Some (matched mr)
                | None => None
                end;
         net_quantity := fst (qty_of qtyMatch);
         unit := snd (qty_of qtyMatch);
         manufacturer_name := name;
         manufacturer_address :=
           if (0 <=? idx)%Z && (idx + 1 <? Z.of_nat (length lines))%Z && looks
           then index lines (idx + 1) else None;
         month_year := match myMatch with
                       | Some mr => Some (to_string (group 1 mr) ++ str "/" ++
                                          to_string (group 2 mr))
                       | None => None
                       end;
         consumer_care := option_map matched careMatch;
         raw_text := Some raw |}.
Proof.
  destruct (split_total newline_re raw) as [pieces Hsplit].
  destruct (exec_total mrp_re raw) as [mrpMatch Hmrp].
  destruct (exec_total qty_re raw) as [qtyMatch Hqty].
  destruct (exec_total my_re raw) as [myMatch Hmy].
  destruct (exec_total care_re raw) as [careMatch Hcare].
  destruct (find_total manuf_re (lines_of pieces)) as [manufLine Hmanuf].
  destruct (find_total name_re (lines_of pieces)) as [nameLine Hname].
  assert (exists name, opt_chain (replace label_re []) manufLine = Ok name) as [name Hn].
  { destruct manufLine as [l|]; simpl; eauto.
    destruct (replace_total label_re [] l) as [t ->]. simpl. eauto. }
  destruct (replace_total label_re [] (to_string nameLine)) as [label Hlabel].
  set (lines := lines_of pieces) in *.
  set (idx := if truthy manufLine then indexOf lines (to_string manufLine) else (-1)%Z).
  destruct (test_total addr_re (to_string (index lines (idx + 1)))) as [looks Hlooks].
  exists pieces, mrpMatch, qtyMatch, myMatch, careMatch, manufLine, nameLine, name, label, looks.
  repeat (split; [assumption|]).
  unfold parseFieldsFromRawText.
  rewrite raw_or_empty, normalize_rupee. cbn [bind].
  rewrite Hsplit. cbn [bind]. fold (lines_of pieces). fold lines.
  rewrite Hmrp, Hqty. cbn [bind].
  match goal with |- context [bind (if is_match qtyMatch then ?a else ?b) _] =>
    replace (if is_match qtyMatch then a else b) with (Ok (qty_of qtyMatch))
  end.
  2:{ destruct qtyMatch as [mr|]; [|reflexivity].
      cbn [is_match elem bind qty_of].
      destruct (group 1 mr) as [g1|]; cbn [opt_chain bind option_map]; [|reflexivity].
      rewrite strip_commas. reflexivity. }
  cbn [bind].
  rewrite Hmy. cbn [bind]. rewrite Hmanuf. cbn [bind]. rewrite Hn. cbn [bind].
  fold idx. rewrite Hlooks, Hcare. cbn [bind]. rewrite Hname. cbn [bind].
  rewrite Hlabel.
  destruct mrpMatch as [mr|], myMatch as [my|], careMatch as [care|];
    cbn [is_match elem bind option_map group];
    destruct (includes raw [rupee]), (truthy nameLine), looks,
      ((0 <=? idx)%Z && (idx + 1 <? Z.of_nat (length lines))%Z);
    reflexivity.
Qed.

(** * The rule evaluator *)

Lemma and_then_total b re s : exists v, and_then b (test re s) = Ok v.
Proof. destruct b; simpl; [apply test_total | eauto]. Qed.

(** C1. For every extracted record the evaluator returns the ten rules in
    their fixed order; [violations] lists the keys of exactly the failing
    rules in that order, [violation_count] is its length, and [compliant]
    holds if and only if the count is zero. *)
Theorem C1_summary_derivation (ex : ExtractedFields) :
  exists rules summary,
    validateLocally ex = Ok (rules, summary) /\
    List.map rule_key rules = RULE_KEYS /\
    violations summary =
      List.map rule_key (List.filter (fun r => negb (passed r)) rules) /\
    violation_count summary = length (violations summary) /\
    (compliant summary = true <-> violation_count summary = 0%nat).
Proof.
  unfold validateLocally.
  destruct (and_then_total (truthy (net_quantity ex)) numeric_re
              (to_string (net_quantity ex))) as [numeric ->].
  destruct (and_then_total (truthy (mrp ex)) digit_re (to_string (mrp ex)))
    as [format ->].
  destruct (and_then_total (truthy (raw_text ex)) prominent_re
              (to_string (raw_text ex))) as [prominent ->].
  cbn [bind]. eexists _, _. split; [reflexivity|].
  split; [reflexivity|]. split; [reflexivity|]. split; [reflexivity|].
  cbn [compliant violation_count]. apply Nat.eqb_eq.
Qed.

(** * Languages of the extractor's patterns *)

Lemma run_seq_inv icase r1 r2 x z :
  Run icase (Seq r1 r2) x z -> exists y, Run icase r1 x y /\ Run icase r2 y z.
Proof. inversion 1; subst; eauto. Qed.

Lemma run_group_inv icase n r x z :
  Run icase (Group n r) x z ->
  exists y, Run icase r x y /\ z = set_cap n (span x y) y.
Proof. inversion 1; subst; eauto. Qed.

Lemma run_boundary_inv icase x z : Run icase WordBoundary x z -> z = x.
Proof. inversion 1; subst; reflexivity. Qed.

Ltac inv_run :=
  repeat match goal with
  | H : Run _ (Seq _ _) _ _ |- _ =>
      let y := fresh "y" in
      let H1 := fresh "Hrun" in
      apply run_seq_inv in H as (y & H1 & H)
  | H : Run _ (Group _ _) _ _ |- _ =>
      let y := fresh "y" in
      let H1 := fresh "Heq" in
      apply run_group_inv in H as (y & H & H1); subst
  | H : Run _ WordBoundary _ _ |- _ => apply run_boundary_inv in H; subst
  end.

Lemma lang_quant_atom icase a min max greedy s :
  lang icase (Quant (Atom a) min max greedy) s ->
  all_match icase a s /\ (min <= length s)%nat /\
  (forall k, max = Some k -> (length s <= k)%nat).
Proof.
  simpl. intros (ss & -> & Hall & Hmin & Hmax).
  assert (H : all_match icase a (concat ss) /\ length (concat ss) = length ss).
  { clear Hmin Hmax. induction Hall as [|x ss (ch & -> & Hch) _ [IH1 IH2]]; simpl.
    - split; [constructor | reflexivity].
    - split; [constructor; assumption | congruence]. }
  destruct H as [H1 H2]. rewrite H2. auto.
Qed.

Lemma lang_opt icase r s : lang icase (opt r) s -> s = [] \/ lang icase r s.
Proof.
  simpl. intros (ss & -> & Hall & _ & Hmax). specialize (Hmax _ eq_refl).
  destruct ss as [|x [|? ?]]; simpl in *; try lia; auto.
  right. rewrite app_nil_r. inversion Hall; assumption.
Qed.

Lemma digit_match icase ch : atom_match icase (Class [IDigit]) ch = is_digit ch.
Proof. simpl. apply orb_false_r. Qed.

Lemma space_match icase ch : atom_match icase (Class [ISpace]) ch = is_space ch.
Proof. simpl. apply orb_false_r. Qed.

(** [\d{lo,hi}]: between [lo] and [hi] digits. *)
Lemma lang_digits icase lo hi s :
  lang icase (times digit lo hi) s ->
  Forall (fun ch => is_digit ch = true) s /\ (lo <= length s <= hi)%nat.
Proof.
  intros H. apply lang_quant_atom in H as (Hall & Hlo & Hhi).
  specialize (Hhi _ eq_refl). split; [|lia].
  eapply Forall_impl; [exact Hall|]. intros ch. simpl. rewrite orb_false_r. auto.
Qed.

(** Case-insensitive comparison with an ASCII pattern character. *)
Lemma canon_nonletter a c :
  in_range 97 122 a = false -> in_range 65 90 a = false ->
  (canonicalize a =? canonicalize c) = true -> c = a.
Proof.
  unfold canonicalize, to_upper, in_range. intros Ha1 Ha2 H.
  rewrite Ha1 in H. apply N.eqb_eq in H.
  destruct (97 <=? c) eqn:E1, (c <=? 122) eqn:E2; simpl in H; try congruence.
  apply N.leb_le in E1, E2. subst a.
  apply andb_false_iff in Ha2 as [Ha2|Ha2]; apply N.leb_gt in Ha2; lia.
Qed.

Lemma canon_letter a c :
  in_range 97 122 a = true ->
  (canonicalize a =? canonicalize c) = true -> to_lower c = a.
Proof.
  unfold canonicalize, to_upper, to_lower, in_range. intros Ha H.
  rewrite Ha in H. apply N.eqb_eq in H.
  apply andb_prop in Ha as [Ha1 Ha2]. apply N.leb_le in Ha1, Ha2.
  destruct (97 <=? c) eqn:E1, (c <=? 122) eqn:E2; simpl in H;
    destruct (65 <=? c) eqn:E3, (c <=? 90) eqn:E4; simpl;
    repeat match goal with
           | E : (_ <=? _) = true |- _ => apply N.leb_le in E
           | E : (_ <=? _) = false |- _ => apply N.leb_gt in E
           end; lia.
Qed.

Lemma lit_match icase a c :
  in_range 97 122 a = false -> in_range 65 90 a = false ->
  atom_match icase (Lit a) c = true -> c = a.
Proof.
  intros H1 H2. unfold atom_match, citem_match. destruct icase.
  - apply canon_nonletter; assumption.
  - intros H. apply N.eqb_eq in H. congruence.
Qed.

Lemma separator_match icase sep :
  atom_match icase (Class [IChar (chr "."); IChar (chr ",")]) sep = true ->
  sep = chr "." \/ sep = chr ",".
Proof.
  unfold atom_match, existsb. intros H.
  apply orb_prop in H as [H|H]; [left|apply orb_prop in H as [H|H]; [right|discriminate]];
    eapply (lit_match icase); try exact H; reflexivity.
Qed.

Lemma lang_amount icase ilo ihi dlo dhi s :
  lang icase
    (Seq (times digit ilo ihi)
         (opt (Seq (Atom (Class [IChar (chr "."); IChar (chr ",")]))
                   (times digit dlo dhi)))) s ->
  amount_shape ilo ihi dlo dhi s.
Proof.
  intros (ds & frac & -> & Hds & Hfrac).
  apply lang_digits in Hds as [Hds Hlen].
  exists ds, frac. repeat split; try tauto; try lia.
  apply lang_opt in Hfrac as [->|(s1 & ds' & -> & (sep & -> & Hsep) & Hds')]; [auto|].
  right. apply lang_digits in Hds' as [Hds' Hlen'].
  exists sep, ds'. repeat split; try tauto; try lia.
  eapply separator_match; eauto.
Qed.

Lemma amount_nonempty ilo ihi dlo dhi s :
  (1 <= ilo)%nat -> amount_shape ilo ihi dlo dhi s -> s <> [].
Proof.
  intros Hlo (ds & frac & -> & _ & Hlen & _). destruct ds; simpl in *; [lia | discriminate].
Qed.

(** ** The groups of a match *)

Ltac run_facts :=
  repeat match goal with
  | H : Run ?ic ?r ?a ?b |- _ =>
      let Hc := fresh "Hc" in
      let Hl := fresh "Hl" in
      pose proof (run_groupless ic r a b H eq_refl) as Hc;
      pose proof (run_lang ic r a b H) as Hl;
      clear H
  end.

Ltac read_group Hg :=
  unfold group; rewrite Hg; cbn [caps set_cap get_cap Nat.eqb];
  repeat match goal with
         | H : caps _ = _ |- _ =>
             cbn [caps set_cap] in H; rewrite H; cbn [caps set_cap get_cap Nat.eqb]
         end;
  reflexivity.

Lemma mrp_match raw mr :
  exec mrp_re raw = Ok (Some mr) ->
  raw = before mr ++ matched mr ++ after mr /\
  lang true (pattern mrp_re) (matched mr) /\
  exists amount, group 1 mr = Some amount /\ amount_shape 1 5 2 2 amount.
Proof.
  intros H. apply exec_some in H as (Hsplit & Hlang & x & y & Hrun & Hx & Hg & Hspan);
    [|reflexivity].
  split; [assumption|]. split; [assumption|].
  cbn [pattern mrp_re ignoreCase] in Hrun. inv_run. run_facts.
  exists (span y0 y1). split.
  - read_group Hg.
  - eapply lang_amount. unfold mrp_amount in *. eassumption.
Qed.

Lemma qty_match raw mr :
  exec qty_re raw = Ok (Some mr) ->
  exists amount token,
    group 1 mr = Some amount /\ group 2 mr = Some token /\
    amount_shape 1 4 1 2 amount /\
    lang true (alts (List.map word unit_tokens)) token.
Proof.
  intros H. apply exec_some in H as (Hsplit & Hlang & x & y & Hrun & Hx & Hg & Hspan);
    [|reflexivity].
  cbn [pattern qty_re ignoreCase seqs] in Hrun. inv_run. run_facts.
  eexists _, _. split; [|split; [|split]].
  - read_group Hg.
  - read_group Hg.
  - eapply lang_amount. unfold qty_amount in *. eassumption.
  - assumption.
Qed.

(** ** Unit tokens *)

(** A case-insensitive match of a lower-case word is that word once
    lower-cased. *)
Lemma lang_lits_lower w : forall s,
  Forall (fun c => in_range 97 122 c = true) w ->
  lang true (lits w) s -> toLowerCase s = w.
Proof.
  induction w as [|c w IH]; intros s Hw H.
  - simpl in H. subst s. reflexivity.
  - inversion Hw as [|? ? Hc Hw']; subst.
    destruct w as [|c2 w].
    + destruct H as (ch & -> & Hch). simpl. f_equal.
      apply canon_letter; assumption.
    + destruct H as (s1 & s2 & -> & (ch & -> & Hch) & H2).
      simpl. f_equal; [apply canon_letter; assumption|].
      apply IH; assumption.
Qed.

Lemma unit_of_token token :
  lang true (alts (List.map word unit_tokens)) token ->
  exists u,
    or_else (get_prop UNIT_MAP (Some (toLowerCase token)))
            (Some (toLowerCase token)) = Some u /\
    In u canonical_units.
Proof.
  intros H. cbn [alts List.map unit_tokens lang] in H.
  repeat destruct H as [H|H];
    (apply lang_lits_lower in H; [|repeat constructor]);
    rewrite H; eexists; (split; [vm_compute; reflexivity|]);
    vm_compute; tauto.
Qed.

(** * What the matcher finds first *)

Section Priority.

Variable icase : bool.
Variable a : atom.

Lemma m_atom_cons ch s p cs c :
  m icase (Atom a) (MState p (ch :: s) cs) c =
  if atom_match icase a ch then c (MState (ch :: p) s cs) else Failure.
Proof. reflexivity. Qed.

Lemma atom_stops tl p cs c :
  stops_at icase a tl -> m icase (Atom a) (MState p tl cs) c = Failure.
Proof. destruct tl as [|ch tl]; simpl; [reflexivity|]. intros ->. reflexivity. Qed.

(** A greedy unbounded repetition of one atom first hands its continuation
    the longest run of matching characters. *)
Lemma greedy_longest ds : forall fuel min p tl cs c z,
  all_match icase a ds -> stops_at icase a tl ->
  (min <= length ds)%nat -> (min + length (ds ++ tl) < fuel)%nat ->
  c (MState (rev ds ++ p) tl cs) = Matched z ->
  repeat_matcher fuel (m icase (Atom a)) min None true (MState p (ds ++ tl) cs) c
  = Matched z.
Proof.
  induction ds as [|d ds IH]; intros fuel min p tl cs c z Hds Htl Hmin Hfuel Hc;
    (destruct fuel as [|fuel]; [lia|]); rewrite repeat_matcher_S.
  - simpl in Hmin. assert (min = 0%nat) as -> by lia.
    cbn [Nat.eqb negb app]. rewrite atom_stops by assumption. exact Hc.
  - inversion Hds as [|? ? Hd Hds']; subst.
    cbv zeta. rewrite <- app_comm_cons, m_atom_cons, Hd. cbn [rest option_map].
    replace (Nat.eqb (length (ds ++ tl)) (length (d :: ds ++ tl))) with false
      by (symmetry; apply Nat.eqb_neq; simpl; lia).
    rewrite andb_false_r.
    rewrite (IH fuel (Nat.pred min) (d :: p) tl cs c z); auto.
    + destruct (Nat.eqb min 0); reflexivity.
    + simpl in Hmin. lia.
    + simpl in Hfuel. lia.
    + simpl in Hc. rewrite <- app_assoc in Hc. exact Hc.
Qed.

(** A lazy unbounded repetition of one atom hands its continuation the
    shortest run after which the continuation accepts. *)
Lemma lazy_shortest ds : forall fuel p tl cs c z,
  all_match icase a ds ->
  (length (ds ++ tl) < fuel)%nat ->
  (forall ds1 ds2, ds = ds1 ++ ds2 -> ds2 <> [] ->
                   c (MState (rev ds1 ++ p) (ds2 ++ tl) cs) = Failure) ->
  c (MState (rev ds ++ p) tl cs) = Matched z ->
  repeat_matcher fuel (m icase (Atom a)) 0 None false (MState p (ds ++ tl) cs) c
  = Matched z.
Proof.
  induction ds as [|d ds IH]; intros fuel p tl cs c z Hds Hfuel Hfail Hc;
    (destruct fuel as [|fuel]; [lia|]); rewrite repeat_matcher_S.
  - cbn [Nat.eqb negb app]. simpl in Hc. rewrite Hc. reflexivity.
  - inversion Hds as [|? ? Hd Hds']; subst.
    cbn [Nat.eqb negb]. 
    pose proof (Hfail [] (d :: ds) eq_refl ltac:(discriminate)) as Hc0.
    cbn [rev app] in Hc0. rewrite <- app_comm_cons. rewrite Hc0.
    cbv zeta. rewrite m_atom_cons, Hd. cbn [rest].
    replace (Nat.eqb (length (ds ++ tl)) (length (d :: ds ++ tl))) with false
      by (symmetry; apply Nat.eqb_neq; simpl; lia).
    cbn [andb Nat.pred option_map Nat.eqb].
    apply IH; auto.
    + simpl in Hfuel. lia.
    + intros ds1 ds2 -> Hne. specialize (Hfail (d :: ds1) ds2 eq_refl Hne).
      simpl in Hfail. rewrite <- app_assoc in Hfail. exact Hfail.
    + simpl in Hc. rewrite <- app_assoc in Hc. exact Hc.
Qed.

End Priority.

(** An optional pattern that cannot start here is skipped. *)
Lemma opt_skipped icase r x c :
  (forall d, m icase r x d = Failure) -> m icase (opt r) x c = c x.
Proof.
  intros H. cbn [m opt]. rewrite repeat_matcher_S. cbn [Nat.eqb negb].
  rewrite H. reflexivity.
Qed.

Lemma m_seq icase r1 r2 x c :
  m icase (Seq r1 r2) x c = m icase r1 x (fun y => m icase r2 y c).
Proof. reflexivity. Qed.

Lemma m_quant icase r min max greedy x c :
  m icase (Quant r min max greedy) x c =
  repeat_matcher (S (min + length (rest x))) (m icase r) min max greedy x c.
Proof. reflexivity. Qed.

Lemma m_start icase s cs c :
  m icase AssertStart (MState [] s cs) c = c (MState [] s cs).
Proof. reflexivity. Qed.

Lemma m_end icase p cs c :
  m icase AssertEnd (MState p [] cs) c = c (MState p [] cs).
Proof. reflexivity. Qed.

(** ** The numeric rule accepts a stripped quantity *)

Lemma all_digits_match icase s : all_digits s -> all_match icase (Class [IDigit]) s.
Proof.
  intros H. eapply Forall_impl; [exact H|]. intros ch Hch.
  simpl. rewrite Hch. reflexivity.
Qed.

Lemma nonempty_length (s : jsstring) : s <> [] -> (1 <= length s)%nat.
Proof. destruct s; simpl; [congruence | lia]. Qed.

Lemma numeric_accepts q :
  numeric_shape q ->
  exists y, m false (pattern numeric_re) (start_state [] q) Matched = Matched y.
Proof.
  intros [[Hq Hne]|(ds & ds' & -> & Hds & Hne & Hds' & Hne')];
    cbn [pattern numeric_re seqs]; unfold start_state;
    rewrite m_seq, m_start, m_seq; unfold plus at 1, digit at 1;
    rewrite m_quant; cbn [rest].
  - eexists. rewrite <- (app_nil_r q) at 2.
    apply greedy_longest.
    + apply all_digits_match; assumption.
    + exact I.
    + apply nonempty_length; assumption.
    + rewrite app_nil_r. simpl. lia.
    + cbv beta. rewrite m_seq, opt_skipped by reflexivity. reflexivity.
  - eexists. apply greedy_longest.
    + apply all_digits_match; assumption.
    + reflexivity.
    + apply nonempty_length; assumption.
    + simpl. lia.
    + cbv beta. rewrite m_seq. unfold opt. rewrite m_quant, repeat_matcher_S.
      cbn [Nat.eqb negb rest]. cbv zeta. rewrite m_seq, m_atom_cons.
      replace (atom_match false (Lit (chr ".")) (chr ".")) with true by reflexivity.
      unfold plus, digit. rewrite m_quant. cbn [rest].
      rewrite <- (app_nil_r ds') at 2.
      erewrite greedy_longest; [reflexivity | | | | | ].
      * apply all_digits_match; assumption.
      * exact I.
      * apply nonempty_length; assumption.
      * rewrite app_nil_r. simpl. lia.
      * cbn [rest andb Nat.eqb length Nat.add Nat.pred option_map].
        rewrite repeat_matcher_S. reflexivity.
Qed.

Lemma numeric_test q : numeric_shape q -> test numeric_re q = Ok true.
Proof.
  intros H. apply numeric_accepts in H as [y Hy].
  unfold test, exec. rewrite (exec_from_here numeric_re [] q y Hy). reflexivity.
Qed.

Lemma digit_not_comma ch : is_digit ch = true -> negb (comma =? ch) = true.
Proof.
  unfold is_digit, in_range. intros H. apply andb_prop in H as [H1 H2].
  apply N.leb_le in H1, H2. apply negb_true_iff, N.eqb_neq.
  unfold comma, chr. simpl. lia.
Qed.

Lemma filter_digits ds : all_digits ds -> without_commas ds = ds.
Proof.
  unfold without_commas. induction 1 as [|ch ds Hch _ IH]; [reflexivity|].
  cbn [List.filter]. rewrite (digit_not_comma ch Hch), IH. reflexivity.
Qed.

Lemma without_commas_app a b :
  without_commas (a ++ b) = without_commas a ++ without_commas b.
Proof. apply List.filter_app. Qed.

Lemma without_commas_cons ch s :
  without_commas (ch :: s) =
  if negb (comma =? ch) then ch :: without_commas s else without_commas s.
Proof. reflexivity. Qed.

Lemma stripped_numeric amount :
  amount_shape 1 4 1 2 amount ->
  numeric_shape (without_commas amount).
Proof.
  intros (ds & frac & -> & Hds & Hlen & Hfrac).
  assert (Hne : ds <> []) by (destruct ds; simpl in Hlen; [lia | discriminate]).
  rewrite without_commas_app, (filter_digits ds Hds).
  destruct Hfrac as [->|(sep & ds' & -> & [->| ->] & Hds' & Hlen')].
  - left. rewrite app_nil_r. auto.
  - right. exists ds, ds'. rewrite without_commas_cons, (filter_digits ds' Hds').
    replace (negb (comma =? chr ".")) with true by reflexivity.
    repeat split; auto. destruct ds'; simpl in Hlen'; [lia | discriminate].
  - left. rewrite without_commas_cons, (filter_digits ds' Hds').
    replace (negb (comma =? chr ",")) with false by reflexivity. split.
    + apply Forall_app. split; assumption.
    + destruct ds; simpl in Hlen; [lia | discriminate].
Qed.

Lemma stripped_comma_free amount :
  ~ In comma (without_commas amount).
Proof.
  intros H. apply List.filter_In in H as [_ H]. rewrite N.eqb_refl in H. discriminate.
Qed.

(** * The claims about the extractor *)

(** C9. For every input the quantity and the unit are both present or both
    absent; a unit that is present is one of g, kg, ml, L and pcs, each of
    them a value of [UNIT_MAP]; a quantity that is present has no comma and
    is accepted by the pattern of the [net_quantity_numeric] rule. *)
Theorem C9_quantity_and_unit (raw : jsstring) :
  exists ex,
    parseFieldsFromRawText raw = Ok ex /\
    (net_quantity ex = None <-> unit ex = None) /\
    (forall u, unit ex = Some u ->
               In u canonical_units /\ In u (List.map snd UNIT_MAP)) /\
    (forall q, net_quantity ex = Some q ->
               ~ In comma q /\ test numeric_re q = Ok true).
Proof.
  destruct (parse_unfold raw) as
    (pieces & mrpM & qtyM & myM & careM & manufLine & nameLine & name & label &
     looks & _ & _ & Hqty & _ & _ & _ & _ & _ & _ & _ & Hparse).
  eexists. split; [exact Hparse|]. cbn [net_quantity unit].
  destruct qtyM as [mr|]; cbn [qty_of fst snd].
  - apply qty_match in Hqty as (amount & token & -> & -> & Hamount & Htoken).
    cbn [option_map].
    destruct (unit_of_token token Htoken) as (u & -> & Hu).
    split; [split; discriminate|]. split.
    + intros u' [= <-]. split; [exact Hu|].
      vm_compute in Hu. vm_compute. tauto.
    + intros q [= <-]. split; [apply stripped_comma_free|].
      apply numeric_test, stripped_numeric, Hamount.
  - split; [tauto|]. split; intros ? [=].
Qed.

Lemma includes_char s ch : includes s [ch] = true <-> In ch s.
Proof.
  induction s as [|c s IH]; simpl.
  - split; [discriminate | tauto].
  - rewrite andb_true_r, orb_true_iff, IH, N.eqb_eq. split; intros [H|H]; auto.
Qed.

(** C3, as the code has it. Whenever the MRP pattern matches, the [mrp] field
    is the rupee sign followed by the captured amount exactly when the rupee
    sign occurs anywhere in the input text, and the matched text unchanged
    otherwise; in particular a rupee sign inside the matched span gives the
    normalized form. *)
Theorem C3_mrp_normalization (raw : jsstring) (mr : match_result) :
  exec mrp_re raw = Ok (Some mr) ->
  exists ex amount,
    parseFieldsFromRawText raw = Ok ex /\
    group 1 mr = Some amount /\
    amount_shape 1 5 2 2 amount /\
    (In rupee raw -> mrp ex = Some (rupee :: amount)) /\
    (~ In rupee raw -> mrp ex = Some (matched mr)) /\
    (In rupee (matched mr) -> mrp ex = Some (rupee :: amount)).
Proof.
  intros Hexec.
  destruct (parse_unfold raw) as
    (pieces & mrpM & qtyM & myM & careM & manufLine & nameLine & name & label &
     looks & _ & Hmrp & _ & _ & _ & _ & _ & _ & _ & _ & Hparse).
  rewrite Hexec in Hmrp. injection Hmrp as <-.
  destruct (mrp_match raw mr Hexec) as (Hsplit & _ & amount & Hg & Hshape).
  eexists _, amount. split; [exact Hparse|].
  split; [exact Hg|]. split; [exact Hshape|].
  cbn [mrp]. rewrite Hg. cbn [to_string].
  assert (Hin : In rupee raw -> includes raw [rupee] = true) by apply includes_char.
  split; [|split].
  - intros H. rewrite (Hin H). reflexivity.
  - intros H. destruct (includes raw [rupee]) eqn:E; [|reflexivity].
    apply includes_char in E. contradiction.
  - intros H. rewrite Hin; [reflexivity|].
    rewrite Hsplit. apply in_or_app. right. apply in_or_app. left. exact H.
Qed.

Lemma C3_mrp_normalization_witness :
  exists ex amount,
    parseFieldsFromRawText (str "Rs. 45.50") = Ok ex /\
    group 1 (MatchResult [] (str "Rs. 45.50") [] [(1%nat, str "45.50")]) = Some amount /\
    amount_shape 1 5 2 2 amount /\
    (In rupee (str "Rs. 45.50") -> mrp ex = Some (rupee :: amount)) /\
    (~ In rupee (str "Rs. 45.50") -> mrp ex = Some (str "Rs. 45.50")) /\
    (In rupee (str "Rs. 45.50") -> mrp ex = Some (rupee :: amount)).
Proof.
  apply (C3_mrp_normalization (str "Rs. 45.50")
           (MatchResult [] (str "Rs. 45.50") [] [(1%nat, str "45.50")])).
  vm_compute. reflexivity.
Defined.

(** C3 as stated fails: here the matched span is "Rs 50", which has no rupee
    sign, and the field is the normalized form all the same, because a rupee
    sign stands later in the text. *)
Lemma C3_counterexample :
  exists mr ex,
    exec mrp_re (str "Rs 50 " ++ [rupee]) = Ok (Some mr) /\
    parseFieldsFromRawText (str "Rs 50 " ++ [rupee]) = Ok ex /\
    matched mr = str "Rs 50" /\
    ~ In rupee (matched mr) /\
    mrp ex = Some (rupee :: str "50") /\
    mrp ex <> Some (matched mr).
Proof.
  eexists _, _. split; [vm_compute; reflexivity|].
  split; [vm_compute; reflexivity|]. cbn [matched mrp].
  split; [reflexivity|]. split; [|split; [reflexivity | discriminate]].
  vm_compute. intuition discriminate.
Qed.

(** ** Month and year, consumer care, address *)

Lemma lit_exact c ch : atom_match false (Lit c) ch = true -> ch = c.
Proof. simpl. intros H. apply N.eqb_eq in H. congruence. Qed.

Lemma range_exact lo hi ch :
  atom_match false (Class [IRange lo hi]) ch = true -> in_range lo hi ch = true.
Proof. simpl. rewrite !orb_false_r. auto. Qed.

Lemma two_digits s :
  lang false (times digit 2 2) s ->
  exists d1 d2, s = [d1; d2] /\ is_digit d1 = true /\ is_digit d2 = true.
Proof.
  intros H. apply lang_digits in H as [Hall Hlen].
  destruct s as [|d1 [|d2 [|? ?]]]; simpl in Hlen; try lia.
  inversion Hall as [|? ? H1 Hall']; subst. inversion Hall' as [|? ? H2 _]; subst.
  eauto.
Qed.

Lemma my_match raw mr :
  exec my_re raw = Ok (Some mr) ->
  exists mm yyyy,
    group 1 mr = Some mm /\ group 2 mr = Some yyyy /\
    is_month_year (mm ++ str "/" ++ yyyy) = true.
Proof.
  intros H. apply exec_some in H as (Hsplit & Hlang & x & y & Hrun & Hx & Hg & Hspan);
    [|reflexivity].
  cbn [pattern my_re ignoreCase seqs] in Hrun. inv_run. run_facts.
  eexists _, _. split; [read_group Hg|]. split; [read_group Hg|].
  repeat match goal with
         | H : lang _ (star _) _ |- _ => clear H
         | H : lang _ (Atom (Class [_; _; _])) _ |- _ => clear H
         end.
  match goal with
  | H1 : lang false (Alt (Seq (Atom (Lit _)) (Atom (Class _))) _) _ |- _ =>
      rename H1 into Hmm
  end.
  match goal with
  | H2 : lang false (Alt (Seq (word _) _) _) _ |- _ => rename H2 into Hyy
  end.
  destruct Hmm as [(s1 & s2 & -> & (c1 & -> & Hc1') & (c2 & -> & Hc2'))
                  |(s1 & s2 & -> & (c1 & -> & Hc1') & (c2 & -> & Hc2'))];
    destruct Hyy as [(t1 & t2 & -> & (u1 & u2 & -> & (e1 & -> & He1) & (e2 & -> & He2)) & Hd)
                    |(t1 & t2 & -> & (u1 & u2 & -> & (e1 & -> & He1) & (e2 & -> & He2)) & Hd)];
    apply two_digits in Hd as (d1 & d2 & -> & Hd1 & Hd2);
    apply lit_exact in Hc1', He1, He2; apply range_exact in Hc2'; subst;
    cbn [app str List.map list_ascii_of_string is_month_year];
    rewrite Hc2', Hd1, Hd2; reflexivity.
Qed.

Lemma care_match raw mr :
  exec care_re raw = Ok (Some mr) ->
  lang false (pattern care_re) (matched mr) /\ matched mr <> [].
Proof.
  intros H. apply exec_some in H as (_ & Hlang & _); [|reflexivity].
  split; [exact Hlang|].
  cbn [pattern care_re ignoreCase seqs lang] in Hlang.
  destruct Hlang as [(s1 & s2 & -> & (ch & -> & _) & _)
                    |(s1 & s2 & -> & -> & s3 & s4 & -> & Hd & _)].
  - discriminate.
  - apply lang_digits in Hd as [_ Hlen].
    destruct s3; simpl in Hlen; [lia | discriminate].
Qed.

Lemma mrp_nonempty s : lang true (pattern mrp_re) s -> s <> [].
Proof.
  cbn [pattern mrp_re].
  intros (s1 & s2 & -> & _ & H2) Heq.
  apply app_eq_nil in Heq as [_ ->].
  apply lang_amount, amount_nonempty in H2; [congruence | lia].
Qed.

(** A line accepted by the address pattern has a digit or a comma. *)
Lemma addr_test a :
  test addr_re a = Ok true ->
  exists ch, In ch a /\ (is_digit ch = true \/ ch = comma).
Proof.
  unfold test. destruct (exec addr_re a) as [[mr|]|] eqn:He; simpl; try discriminate.
  intros _. apply exec_some in He as (Hsplit & (ch & Hm & Hch) & _); [|reflexivity].
  exists ch. split.
  - rewrite Hsplit, Hm. apply in_or_app. right. left. reflexivity.
  - cbn [atom_match existsb citem_match andb] in Hch.
    rewrite !orb_false_r in Hch. apply orb_prop in Hch as [Hch|Hch].
    + left. exact Hch.
    + right. apply N.eqb_eq in Hch. symmetry. exact Hch.
Qed.

Lemma index_some lines i a : index lines i = Some a -> In a lines.
Proof.
  unfold index. destruct (i <? 0)%Z; [discriminate|]. apply nth_error_In.
Qed.

Lemma line_nonempty pieces a : In a (lines_of pieces) -> a <> [].
Proof.
  unfold lines_of. intros H. apply List.filter_In in H as [_ H].
  destruct a; [discriminate | congruence].
Qed.

Lemma find_none re lines :
  (forall l, In l lines -> test re l = Ok false) -> find (test re) lines = Ok None.
Proof.
  induction lines as [|l lines IH]; intros H; simpl; [reflexivity|].
  rewrite (H l) by (left; reflexivity). simpl. apply IH.
  intros l' Hl'. apply H. right. exact Hl'.
Qed.

Lemma numeric_nonempty s : numeric_shape s -> s <> [].
Proof.
  intros [[_ H]|(ds & ds' & -> & _)]; [exact H|]. destruct ds; discriminate.
Qed.

(** C2, as the code has it. For every input the result has [raw_text] equal
    to the input; [mrp], [net_quantity], [unit], [month_year],
    [consumer_care] and [manufacturer_address] are each absent or a
    non-empty string of the stated shape; [generic_name] and
    [manufacturer_name] are absent or a string, which may be empty; and
    when no pattern matches, every field but [raw_text] is absent. *)
Theorem C2_extracted_fields (raw : jsstring) :
  exists ex,
    parseFieldsFromRawText raw = Ok ex /\
    raw_text ex = Some raw /\
    (forall s, mrp ex = Some s ->
       s <> [] /\
       ((exists amount, s = rupee :: amount /\ amount_shape 1 5 2 2 amount) \/
        lang true (pattern mrp_re) s)) /\
    (forall s, net_quantity ex = Some s -> s <> [] /\ numeric_shape s) /\
    (forall s, unit ex = Some s -> s <> [] /\ In s canonical_units) /\
    (forall s, month_year ex = Some s -> s <> [] /\ is_month_year s = true) /\
    (forall s, consumer_care ex = Some s ->
       s <> [] /\ lang false (pattern care_re) s) /\
    (forall s, manufacturer_address ex = Some s ->
       s <> [] /\ exists ch, In ch s /\ (is_digit ch = true \/ ch = comma)) /\
    (no_recognizable_pattern raw -> ex = no_fields raw).
Proof.
  destruct (parse_unfold raw) as
    (pieces & mrpM & qtyM & myM & careM & manufLine & nameLine & name & label &
     looks & Hsplit & Hmrp & Hqty & Hmy & Hcare & Hmanuf & Hname & Hn & Hlabel &
     Hlooks & Hparse).
  eexists. split; [exact Hparse|].
  cbn [raw_text mrp net_quantity unit month_year consumer_care manufacturer_address].
  split; [reflexivity|].
  split; [|split; [|split; [|split; [|split; [|split]]]]].
  - intros s Hs. destruct mrpM as [mr|]; [|discriminate].
    destruct (mrp_match raw mr Hmrp) as (_ & Hlang & amount & Hg & Hshape).
    rewrite Hg in Hs. destruct (includes raw [rupee]); injection Hs as <-.
    + split; [discriminate|]. left. eauto.
    + split; [apply mrp_nonempty; exact Hlang|]. right. exact Hlang.
  - intros s Hs. destruct qtyM as [mr|]; [|discriminate].
    apply qty_match in Hqty as (amount & token & Hg1 & _ & Hshape & _).
    cbn [qty_of fst] in Hs. rewrite Hg1 in Hs. injection Hs as <-.
    apply stripped_numeric in Hshape. split; [apply numeric_nonempty|]; assumption.
  - intros s Hs. destruct qtyM as [mr|]; [|discriminate].
    apply qty_match in Hqty as (amount & token & _ & Hg2 & _ & Htoken).
    cbn [qty_of snd] in Hs. rewrite Hg2 in Hs. cbn [option_map] in Hs.
    destruct (unit_of_token token Htoken) as (u & Hu & Hin).
    rewrite Hu in Hs. injection Hs as <-. split; [|exact Hin].
    vm_compute in Hin. intuition (subst; discriminate).
  - intros s Hs. destruct myM as [mr|]; [|discriminate].
    apply my_match in Hmy as (mm & yyyy & Hg1 & Hg2 & Hshape).
    rewrite Hg1, Hg2 in Hs. cbn [to_string] in Hs.
    assert (Hs' : s = mm ++ str "/" ++ yyyy) by congruence.
    rewrite Hs'. split; [|exact Hshape].
    intros E. rewrite E in Hshape. discriminate.
  - intros s Hs. destruct careM as [mr|]; [|discriminate].
    injection Hs as <-. apply care_match in Hcare as [H1 H2]. auto.
  - intros s Hs.
    match type of Hs with (if ?g && looks then _ else _) = _ =>
      destruct g; [|discriminate]
    end.
    destruct looks; [|discriminate]. cbn [andb] in Hs.
    rewrite Hs in Hlooks. cbn [to_string] in Hlooks.
    split; [|apply addr_test; exact Hlooks].
    eapply line_nonempty, index_some, Hs.
  - intros (H1 & H2 & H3 & H4 & H5).
    rewrite H1 in Hmrp. rewrite H2 in Hqty. rewrite H3 in Hmy. rewrite H4 in Hcare.
    injection Hmrp as <-. injection Hqty as <-. injection Hmy as <-.
    injection Hcare as <-.
    rewrite find_none in Hmanuf by (intros l Hl; apply (H5 pieces l Hsplit Hl)).
    rewrite find_none in Hname by (intros l Hl; apply (H5 pieces l Hsplit Hl)).
    injection Hmanuf as <-. injection Hname as <-.
    cbn [opt_chain] in Hn. injection Hn as <-. reflexivity.
Qed.

(** C2 as stated fails: a manufacturer line that ends in its colon leaves a
    name that is present and empty. *)
Lemma C2_counterexample :
  exists ex,
    parseFieldsFromRawText (str "Manufacturer:") = Ok ex /\
    manufacturer_name ex = Some [] /\
    manufacturer_name ex <> None.
Proof.
  eexists. split; [vm_compute; reflexivity|]. cbn [manufacturer_name].
  split; [reflexivity | discriminate].
Qed.

(** The hypothesis of the last part of C2 holds of plain text. *)
Example plain_text_has_no_pattern : no_recognizable_pattern (str "hello world").
Proof.
  unfold no_recognizable_pattern.
  repeat (split; [vm_compute; reflexivity|]).
  intros pieces l Hs Hl. vm_compute in Hs. injection Hs as <-.
  vm_compute in Hl. destruct Hl as [<-|[]]. split; vm_compute; reflexivity.
Qed.

(** * Totality *)

(** The evaluator always returns these ten results. *)
Lemma validate_unfold ex :
  exists numeric format prominent,
    validateLocally ex = Ok
      (let rules :=
         [ {| rule_key := "manufacturer_address_present";
              passed := truthy (or_else (manufacturer_name ex) (manufacturer_address ex));
              confidence := if truthy (or_else (manufacturer_name ex) (manufacturer_address ex))
                            then 0.95%float else 0.7%float |};
           {| rule_key := "generic_name_present"; passed := truthy (generic_name ex);
              confidence := if truthy (generic_name ex) then 0.95%float else 0.7%float |};
           {| rule_key := "net_quantity_present"; passed := truthy (net_quantity ex);
              confidence := if truthy (net_quantity ex) then 0.95%float else 0.7%float |};
           {| rule_key := "net_quantity_numeric"; passed := numeric;
              confidence := if numeric then 0.95%float else 0.7%float |};
           {| rule_key := "net_quantity_unit_valid";
              passed := truthy (unit ex) && array_includes valid_units (unit ex);
              confidence := if truthy (unit ex) && array_includes valid_units (unit ex)
                            then 0.95%float else 0.7%float |};
           {| rule_key := "month_year_present"; passed := truthy (month_year ex);
              confidence := if truthy (month_year ex) then 0.95%float else 0.7%float |};
           {| rule_key := "mrp_present"; passed := truthy (mrp ex);
              confidence := if truthy (mrp ex) then 0.95%float else 0.7%float |};
           {| rule_key := "mrp_format_valid"; passed := format;
              confidence := if format then 0.95%float else 0.7%float |};
           {| rule_key := "mrp_prominent_in_text"; passed := prominent;
              confidence := if prominent then 0.95%float else 0.7%float |};
           {| rule_key := "consumer_care_present"; passed := truthy (consumer_care ex);
              confidence := if truthy (consumer_care ex) then 0.95%float else 0.7%float |} ] in
       let failed := List.map rule_key (List.filter (fun r => negb (passed r)) rules) in
       (rules, {| compliant := Nat.eqb (length failed) 0;
                  violations := failed;
                  violation_count := length failed |})) /\
    and_then (truthy (net_quantity ex)) (test numeric_re (to_string (net_quantity ex)))
      = Ok numeric /\
    and_then (truthy (mrp ex)) (test digit_re (to_string (mrp ex))) = Ok format /\
    and_then (truthy (raw_text ex)) (test prominent_re (to_string (raw_text ex)))
      = Ok prominent.
Proof.
  unfold validateLocally.
  destruct (and_then_total (truthy (net_quantity ex)) numeric_re
              (to_string (net_quantity ex))) as [numeric ->].
  destruct (and_then_total (truthy (mrp ex)) digit_re (to_string (mrp ex)))
    as [format ->].
  destruct (and_then_total (truthy (raw_text ex)) prominent_re
              (to_string (raw_text ex))) as [prominent ->].
  exists numeric, format, prominent. auto.
Qed.

(** A rule whose result is [false] is among the violations. *)
Lemma failed_in_violations (rules : list RuleResult) r :
  In r rules -> passed r = false ->
  In (rule_key r) (List.map rule_key (List.filter (fun r => negb (passed r)) rules)).
Proof.
  intros Hin Hp. apply in_map. apply List.filter_In. split; [exact Hin|].
  rewrite Hp. reflexivity.
Qed.

(** C6. The extractor returns a record for every input string, the empty one
    included, and the evaluator returns a result for every record; a pattern
    without a match leaves its field absent and its presence rule failed. *)
Theorem C6_total :
  (forall raw, exists ex rules summary,
      parseFieldsFromRawText raw = Ok ex /\
      validateLocally ex = Ok (rules, summary) /\
      (exec mrp_re raw = Ok None ->
       mrp ex = None /\ In "mrp_present"%string (violations summary)) /\
      (exec qty_re raw = Ok None ->
       net_quantity ex = None /\ unit ex = None /\
       In "net_quantity_present"%string (violations summary)) /\
      (exec my_re raw = Ok None ->
       month_year ex = None /\ In "month_year_present"%string (violations summary)) /\
      (exec care_re raw = Ok None ->
       consumer_care ex = None /\
       In "consumer_care_present"%string (violations summary))) /\
  (forall ex, exists rules summary, validateLocally ex = Ok (rules, summary)) /\
  parseFieldsFromRawText [] = Ok (no_fields []) /\
  (exists rules summary,
      validateLocally (no_fields []) = Ok (rules, summary) /\
      violations summary = RULE_KEYS /\ compliant summary = false).
Proof.
  split; [|split; [|split]].
  - intros raw.
    destruct (parse_unfold raw) as
      (pieces & mrpM & qtyM & myM & careM & manufLine & nameLine & name & label &
       looks & _ & Hmrp & Hqty & Hmy & Hcare & _ & _ & _ & _ & _ & Hparse).
    match type of Hparse with _ = Ok ?e => set (ex := e) in * end.
    destruct (validate_unfold ex) as (numeric & format & prominent & Hv & _).
    eexists ex, _, _. split; [exact Hparse|]. split; [exact Hv|].
    cbv zeta. cbn [violations].
    split; [|split; [|split]]; intros Hnone.
    + rewrite Hnone in Hmrp. injection Hmrp as <-. split; [reflexivity|].
      match goal with |- In _ (List.map _ (List.filter _ ?rs)) =>
        apply (failed_in_violations rs (nth 6 rs (hd (Build_RuleResult "" true 0) rs)))
      end; [simpl; tauto | reflexivity].
    + rewrite Hnone in Hqty. injection Hqty as <-. split; [reflexivity|].
      split; [reflexivity|].
      match goal with |- In _ (List.map _ (List.filter _ ?rs)) =>
        apply (failed_in_violations rs (nth 2 rs (hd (Build_RuleResult "" true 0) rs)))
      end; [simpl; tauto | reflexivity].
    + rewrite Hnone in Hmy. injection Hmy as <-. split; [reflexivity|].
      match goal with |- In _ (List.map _ (List.filter _ ?rs)) =>
        apply (failed_in_violations rs (nth 5 rs (hd (Build_RuleResult "" true 0) rs)))
      end; [simpl; tauto | reflexivity].
    + rewrite Hnone in Hcare. injection Hcare as <-. split; [reflexivity|].
      match goal with |- In _ (List.map _ (List.filter _ ?rs)) =>
        apply (failed_in_violations rs (nth 9 rs (hd (Build_RuleResult "" true 0) rs)))
      end; [simpl; tauto | reflexivity].
  - intros ex. destruct (validate_unfold ex) as (numeric & format & prominent & Hv & _).
    eexists _, _. exact Hv.
  - vm_compute. reflexivity.
  - eexists _, _. split; [vm_compute; reflexivity|]. split; reflexivity.
Qed.

(** * The manufacturer line and the address *)

Lemma trim_start_split icase q :
  exists ws, q = ws ++ trim_start q /\
             all_match icase (Class [ISpace]) ws /\
             stops_at icase (Class [ISpace]) (trim_start q).
Proof.
  induction q as [|c q (ws & Hq & Hws & Hstop)].
  - exists []. repeat split; constructor.
  - simpl. destruct (is_space c) eqn:Hc.
    + exists (c :: ws). split; [simpl; congruence|]. split; [|exact Hstop].
      constructor; [|exact Hws]. rewrite space_match. exact Hc.
    + exists []. split; [reflexivity|]. split; [constructor|].
      unfold stops_at. rewrite space_match. exact Hc.
Qed.

(** A line without a colon is left as it is by the label pattern. *)
Lemma label_no_colon line :
  ~ In colon line -> replace label_re [] line = Ok line.
Proof.
  intros Hno. unfold replace.
  destruct (exec_total label_re line) as [[mr|] He]; rewrite He; [|reflexivity].
  exfalso. apply Hno.
  apply exec_some in He as (Hsplit & Hlang & _); [|reflexivity].
  cbn [pattern label_re seqs ignoreCase] in Hlang.
  destruct Hlang as (s1 & s2 & Hm & _ & s3 & s4 & -> & (ch & -> & Hch) & _).
  apply lit_match in Hch; [|reflexivity..]. subst ch.
  rewrite Hsplit, Hm. apply in_or_app. right. apply in_or_app. left.
  apply in_or_app. right. left. reflexivity.
Qed.

(** With no line terminator before its first colon, a line loses the text
    up to that colon and the white space after it. *)
Lemma label_strip p q :
  ~ In colon p -> Forall (fun c => is_line_terminator c = false) p ->
  replace label_re [] (p ++ colon :: q) = Ok (trim_start q).
Proof.
  intros Hno Hlt.
  destruct (trim_start_split true q) as (ws & Hq & Hws & Hstop).
  assert (Hm : m true (pattern label_re) (start_state [] (p ++ colon :: q)) Matched
               = Matched (MState (rev ws ++ colon :: rev p ++ []) (trim_start q) [])).
  { cbn [pattern label_re seqs]. unfold start_state, lazy_star.
    rewrite m_seq, m_quant. cbn [rest Nat.add].
    apply lazy_shortest.
    - eapply Forall_impl; [exact Hlt|]. intros c Hc. simpl. rewrite Hc. reflexivity.
    - lia.
    - intros ds1 ds2 -> Hne. destruct ds2 as [|d ds2]; [congruence|].
      rewrite m_seq, <- app_comm_cons, m_atom_cons.
      destruct (atom_match true (Lit (chr ":")) d) eqn:Hd; [|reflexivity].
      apply lit_match in Hd; [|reflexivity..]. subst d.
      exfalso. apply Hno. apply in_or_app. right. left. reflexivity.
    - rewrite m_seq. unfold colon at 1. rewrite m_atom_cons.
      replace (atom_match true (Lit (chr ":")) (chr ":")) with true by reflexivity.
      unfold star, space. rewrite m_quant. cbn [rest].
      rewrite Hq at 1 2. apply greedy_longest.
      + exact Hws.
      + exact Hstop.
      + simpl. lia.
      + rewrite <- Hq. simpl. lia.
      + reflexivity. }
  unfold replace, exec. rewrite (exec_from_here label_re [] _ _ Hm). reflexivity.
Qed.

(** C10, as the code has it. If the address is present, the first line that
    has a manufacturer indicator was found, the name is that line with the
    first match of the label pattern removed, and the address is the next
    line, which has a digit or a comma. A line without a colon is kept whole
    as the name; a line whose first colon is preceded by no line terminator
    loses everything up to that colon and the white space after it. *)
Theorem C10_address_follows_manufacturer (raw : jsstring) :
  exists ex,
    parseFieldsFromRawText raw = Ok ex /\
    forall addr, manufacturer_address ex = Some addr ->
      exists pieces i line name,
        split newline_re raw = Ok pieces /\
        nth_error (lines_of pieces) i = Some line /\
        test manuf_re line = Ok true /\
        (forall j l, (j < i)%nat -> nth_error (lines_of pieces) j = Some l ->
                     test manuf_re l = Ok false) /\
        manufacturer_name ex = Some name /\
        replace label_re [] line = Ok name /\
        (~ In colon line -> name = line) /\
        (forall p q, line = p ++ colon :: q -> ~ In colon p ->
                     Forall (fun c => is_line_terminator c = false) p ->
                     name = trim_start q) /\
        nth_error (lines_of pieces) (S i) = Some addr /\
        exists ch, In ch addr /\ (is_digit ch = true \/ ch = comma).
Proof.
  destruct (parse_unfold raw) as
    (pieces & mrpM & qtyM & myM & careM & manufLine & nameLine & name & label &
     looks & Hsplit & _ & _ & _ & _ & Hmanuf & _ & Hn & _ & Hlooks & Hparse).
  eexists. split; [exact Hparse|]. cbn [manufacturer_address manufacturer_name].
  intros addr Haddr.
  destruct manufLine as [line|]; [|discriminate].
  apply find_some in Hmanuf as (i & Hi & Htest & Hidx & Hbefore).
  assert (Hline : truthy (Some line) = true).
  { pose proof (line_nonempty pieces line (nth_error_In _ _ Hi)).
    destruct line; [congruence | reflexivity]. }
  rewrite Hline in Haddr, Hlooks. cbn [to_string] in Haddr, Hlooks.
  rewrite Hidx in Haddr, Hlooks.
  destruct ((0 <=? Z.of_nat i)%Z && (Z.of_nat i + 1 <? Z.of_nat (length (lines_of pieces)))%Z);
    [|discriminate].
  destruct looks; [|discriminate]. cbn [andb] in Haddr.
  rewrite Haddr in Hlooks. cbn [to_string] in Hlooks.
  assert (Hnext : nth_error (lines_of pieces) (S i) = Some addr).
  { unfold index in Haddr. destruct (Z.ltb_spec (Z.of_nat i + 1) 0); [lia|].
    replace (Z.to_nat (Z.of_nat i + 1)) with (S i) in Haddr by lia. exact Haddr. }
  cbn [opt_chain] in Hn.
  destruct (replace_total label_re [] line) as [t Ht]. rewrite Ht in Hn.
  cbn [bind] in Hn. injection Hn as <-.
  exists pieces, i, line, t.
  repeat (split; [assumption || reflexivity|]).
  split; [|split; [|split]].
  - intros Hno. rewrite label_no_colon in Ht by assumption. congruence.
  - intros p q -> Hno Hlt. rewrite label_strip in Ht by assumption. congruence.
  - exact Hnext.
  - apply addr_test. exact Hlooks.
Qed.

(** C10 as stated fails: a carriage return that is not part of a line break
    stays inside the line, the dot of the label pattern does not cross it,
    and the name keeps the text before it. *)
Lemma C10_counterexample :
  exists ex line,
    parseFieldsFromRawText
      (str "Mfg" ++ [13] ++ str "by: Acme" ++ [10] ++ str "12 Main St") = Ok ex /\
    line = str "Mfg" ++ [13] ++ str "by: Acme" /\
    split newline_re (str "Mfg" ++ [13] ++ str "by: Acme" ++ [10] ++ str "12 Main St")
      = Ok [line; str "12 Main St"] /\
    test manuf_re line = Ok true /\
    manufacturer_address ex = Some (str "12 Main St") /\
    manufacturer_name ex = Some (str "Mfg" ++ [13] ++ str "Acme") /\
    after_first_colon line = str " Acme" /\
    manufacturer_name ex <> Some (after_first_colon line) /\
    manufacturer_name ex <> Some (trim_start (after_first_colon line)).
Proof.
  eexists _, _. split; [vm_compute; reflexivity|]. split; [reflexivity|].
  cbn [manufacturer_address manufacturer_name].
  repeat (split; [vm_compute; reflexivity|]).
  split; vm_compute; discriminate.
Qed.

(** * The sample label *)

(** C4. On the sample text the extractor returns the rupee sign followed by
    199.00 as [mrp], 250 as [net_quantity], g as [unit], a name that contains
    "Acme Foods Ltd", 12/2025 as [month_year] and a consumer-care entry that
    contains 1800-123-4567. *)
Theorem C4_sample_extraction :
  exists ex name care,
    parseFieldsFromRawText sample = Ok ex /\
    mrp ex = Some (rupee :: str "199.00") /\
    net_quantity ex = Some (str "250") /\
    unit ex = Some (str "g") /\
    manufacturer_name ex = Some name /\
    includes name (str "Acme Foods Ltd") = true /\
    month_year ex = Some (str "12/2025") /\
    consumer_care ex = Some care /\
    includes care (str "1800-123-4567") = true /\
    care = str "1800-123-4567".
Proof.
  eexists _, _, _. split; [vm_compute; reflexivity|].
  cbn [mrp net_quantity unit manufacturer_name month_year consumer_care].
  repeat (split; [reflexivity|]). reflexivity.
Qed.

(** * The verdict *)

Section FloatOrder.

Local Open Scope float_scope.

(** [a < b] excludes [b <= a]. *)
Lemma SFltb_not_SFleb a b : SFltb a b = true -> SFleb b a = false.
Proof.
  unfold SFltb, SFleb, SFcompare.
  destruct a as [sa|sa| |sa ma ea], b as [sb|sb| |sb mb eb];
    try discriminate; try reflexivity;
    try (destruct sa; discriminate || reflexivity);
    try (destruct sb; discriminate || reflexivity);
    try (destruct sa, sb; discriminate || reflexivity).
  rewrite (Z.compare_antisym ea eb).
  replace (Pos.compare_cont Eq mb ma) with (CompOpp (Pos.compare_cont Eq ma mb))
    by apply (Pos.compare_cont_antisym ma mb Eq).
  destruct sa, sb; try discriminate; try reflexivity;
    destruct (ea ?= eb)%Z; simpl; try discriminate; try reflexivity;
    destruct (Pos.compare_cont Eq ma mb); simpl; discriminate || reflexivity.
Qed.

Lemma ltb_not_leb x y : (x <? y) = true -> (y <=? x) = false.
Proof. rewrite ltb_spec, leb_spec. apply SFltb_not_SFleb. Qed.

(** Below 0.70 is below 0.85. *)
Lemma below_070_not_085 x : (x <? 0.7) = true -> (0.85 <=? x) = false.
Proof.
  rewrite ltb_spec, leb_spec.
  replace (Prim2SF 0.7) with (S754_finite false 6305039478318694 (-53)) by reflexivity.
  replace (Prim2SF 0.85) with (S754_finite false 7656119366529843 (-53)) by reflexivity.
  unfold SFltb, SFleb, SFcompare.
  destruct (Prim2SF x) as [s|s| |s mx ex]; try discriminate; try reflexivity;
    try (destruct s; discriminate || reflexivity).
  destruct s; [reflexivity|].
  rewrite (Z.compare_antisym ex (-53)).
  destruct (ex ?= -53)%Z eqn:E; cbn [CompOpp]; try discriminate; try reflexivity.
  rewrite !Pos.compare_cont_spec.
  destruct (mx ?= 6305039478318694)%positive eqn:E1; cbn [Pos.switch_Eq];
    try discriminate. intros _.
  destruct (7656119366529843 ?= mx)%positive eqn:E2; cbn [Pos.switch_Eq];
    try reflexivity; exfalso.
  - apply Pos.compare_eq in E2. subst mx. vm_compute in E1. discriminate.
  - pose proof (Pos.lt_trans _ _ _ E2 E1) as H. vm_compute in H. discriminate.
Qed.

End FloatOrder.

(** * The average-hash strategy *)

Section Hamming.

Local Open Scope Z_scope.

Lemma popcount_0 n : popcount n 0 = O.
Proof. induction n; simpl; auto. Qed.

Lemma popcount_le n : forall x, (popcount n x <= n)%nat.
Proof.
  induction n; intros x; simpl; [lia|].
  specialize (IHn (Z.div2 x)). destruct (Z.odd x); lia.
Qed.

Lemma land_even_odd a b : Z.land (2 * a) (2 * b + 1) = 2 * Z.land a b.
Proof.
  apply Z.bits_inj'. intros n Hn. rewrite Z.land_spec.
  destruct (Z.eq_dec n 0) as [->|Hne].
  - rewrite !Z.testbit_even_0. reflexivity.
  - replace n with (Z.succ (n - 1)) by lia.
    rewrite !Z.testbit_even_succ, Z.testbit_odd_succ, Z.land_spec by lia.
    reflexivity.
Qed.

Lemma land_odd_even a : Z.land (2 * a + 1) (2 * a) = 2 * a.
Proof.
  apply Z.bits_inj'. intros n Hn. rewrite Z.land_spec.
  destruct (Z.eq_dec n 0) as [->|Hne].
  - rewrite Z.testbit_even_0, andb_false_r. reflexivity.
  - replace n with (Z.succ (n - 1)) by lia.
    rewrite Z.testbit_even_succ, Z.testbit_odd_succ by lia.
    apply andb_diag.
Qed.

Lemma popcount_even n a : popcount (S n) (2 * a) = popcount n a.
Proof.
  simpl popcount. replace (Z.odd (2 * a)) with false
    by (symmetry; rewrite Z.odd_mul; reflexivity).
  rewrite Z.div2_div, Z.mul_comm, Z.div_mul by lia. reflexivity.
Qed.

Lemma popcount_odd n a : popcount (S n) (2 * a + 1) = S (popcount n a).
Proof.
  simpl popcount. replace (Z.odd (2 * a + 1)) with true
    by (symmetry; rewrite Z.odd_add, Z.odd_mul; reflexivity).
  rewrite Z.div2_div, Z.mul_comm, Z.div_add_l by lia. simpl. rewrite Z.add_0_r.
  reflexivity.
Qed.

(** One round of the loop clears the lowest one bit. *)
Lemma clear_lowest n : forall x,
  0 < x < 2 ^ Z.of_nat n ->
  0 <= Z.land x (x - 1) < 2 ^ Z.of_nat n /\
  S (popcount n (Z.land x (x - 1))) = popcount n x.
Proof.
  induction n as [|n IH]; intros x Hx.
  - simpl in Hx. lia.
  - rewrite Nat2Z.inj_succ, Z.pow_succ_r in * by lia.
    pose proof (Z.div2_odd x) as Hdec.
    set (a := Z.div2 x) in *. clearbody a.
    destruct (Z.odd x); simpl Z.b2z in Hdec; subst x.
    + replace (2 * a + 1 - 1) with (2 * a) by lia.
      rewrite land_odd_even.
      split; [lia|]. rewrite popcount_even, popcount_odd. reflexivity.
    + rewrite Z.add_0_r in *.
      assert (Ha : 0 < a < 2 ^ Z.of_nat n) by lia.
      destruct (IH _ Ha) as [Hb Hp].
      replace (2 * a - 1) with (2 * (a - 1) + 1) by lia.
      rewrite land_even_odd.
      split; [lia|]. rewrite !popcount_even. exact Hp.
Qed.

(** With enough rounds the loop returns the number of one bits. *)
Lemma hamming_loop_popcount n : forall fuel x count,
  0 <= x < 2 ^ Z.of_nat n -> (popcount n x < fuel)%nat ->
  hamming_loop fuel x count = Some (count + popcount n x)%nat.
Proof.
  induction fuel as [|fuel IH]; intros x count Hx Hf; [lia|].
  simpl. destruct (Z.eqb_spec x 0) as [->|Hne].
  - rewrite popcount_0. f_equal. lia.
  - destruct (clear_lowest n x) as [Hb Hp]; [lia|].
    rewrite IH by (auto; lia). f_equal. lia.
Qed.

Lemma bound_by_log2 x n : 0 <= x -> 0 < n -> (x = 0 \/ Z.log2 x < n) -> x < 2 ^ n.
Proof.
  intros Hx Hn [->|H]; [apply Z.pow_pos_nonneg; lia|].
  destruct (Z.eq_dec x 0) as [->|Hne]; [apply Z.pow_pos_nonneg; lia|].
  apply Z.log2_lt_pow2; lia.
Qed.

Lemma log2_bound x n : 0 <= x < 2 ^ n -> 0 < n -> Z.log2 x < n.
Proof.
  intros Hx Hn. destruct (Z.eq_dec x 0) as [->|Hne]; [simpl; lia|].
  apply Z.log2_lt_pow2; lia.
Qed.

Lemma lxor_bound a b n :
  0 < n -> 0 <= a < 2 ^ n -> 0 <= b < 2 ^ n -> 0 <= Z.lxor a b < 2 ^ n.
Proof.
  intros Hn Ha Hb. split; [apply Z.lxor_nonneg; lia|].
  apply bound_by_log2; [apply Z.lxor_nonneg; lia | lia |]. right.
  pose proof (Z.log2_lxor a b ltac:(lia) ltac:(lia)).
  pose proof (log2_bound a n Ha Hn). pose proof (log2_bound b n Hb Hn). lia.
Qed.

Lemma lor_bound a b n :
  0 < n -> 0 <= a < 2 ^ n -> 0 <= b < 2 ^ n -> 0 <= Z.lor a b < 2 ^ n.
Proof.
  intros Hn Ha Hb. split; [apply Z.lor_nonneg; lia|].
  apply bound_by_log2; [apply Z.lor_nonneg; lia | lia |]. right.
  rewrite Z.log2_lor by lia.
  pose proof (log2_bound a n Ha Hn). pose proof (log2_bound b n Hb Hn). lia.
Qed.

(** The fingerprint has one bit for each gray value. *)
Lemma hash_bits (avg : float) (gray : list float) : forall h k,
  0 <= h < 2 ^ Z.of_nat k ->
  0 <= fold_left (fun hash g => Z.lor (Z.shiftl hash 1) (if Num.geb g avg then 1 else 0))
                 gray h
    < 2 ^ Z.of_nat (k + length gray).
Proof.
  induction gray as [|g gray IH]; intros h k Hh; simpl.
  - rewrite Nat.add_0_r. exact Hh.
  - replace (k + S (length gray))%nat with (S k + length gray)%nat by lia.
    apply IH. rewrite Nat2Z.inj_succ.
    assert (Hp : 2 ^ Z.succ (Z.of_nat k) = 2 * 2 ^ Z.of_nat k)
      by (apply Z.pow_succ_r; lia).
    apply lor_bound; [lia | rewrite Z.shiftl_mul_pow2 by lia; lia|].
    destruct (Num.geb g avg); lia.
Qed.

Lemma gray_length n : forall data,
  length data = (4 * n)%nat -> length (gray_of data) = n.
Proof.
  induction n as [|n IH]; intros data Hlen.
  - destruct data; [reflexivity | discriminate].
  - destruct data as [|r [|g [|b [|a data]]]]; simpl in Hlen; try lia.
    cbn [gray_of length]. rewrite IH by lia. reflexivity.
Qed.

(** A fingerprint of an 8 by 8 image is a 64-bit value. *)
Lemma hash_64 data : length data = 256%nat -> 0 <= computeAHashBig data < 2 ^ 64.
Proof.
  intros Hlen. unfold computeAHashBig.
  pose proof (gray_length 64 data Hlen) as Hg.
  set (avg := (_ / _)%float).
  pose proof (hash_bits avg (gray_of data) 0 0 ltac:(simpl; lia)) as H.
  rewrite Hg in H. exact H.
Qed.

End Hamming.

Section StrategyA.

Local Open Scope float_scope.

Lemma verdict_eqb_eq a b : verdict_eqb a b = true -> a = b.
Proof. destruct a, b; simpl; congruence. Qed.

Lemma distances_ok : forallb distance_ok (seq 0 65) = true.
Proof. vm_compute. reflexivity. Qed.

Lemma distance_facts dist :
  (dist <= 64)%nat ->
  let s := similarity_of_distance dist in
  (0 <=? s) = true /\ (s <=? 1) = true /\
  (0 <=? Num.toFixed2 s) = true /\ (Num.toFixed2 s <=? 1) = true /\
  verdict_of (Num.toFixed2 s) = verdict_of s.
Proof.
  intros Hd. pose proof distances_ok as H.
  rewrite forallb_forall in H. specialize (H dist).
  assert (Hin : In dist (seq 0 65)) by (apply in_seq; lia).
  apply H in Hin. unfold distance_ok in Hin.
  apply andb_prop in Hin as [Hin H5]. apply andb_prop in Hin as [Hin H4].
  apply andb_prop in Hin as [Hin H3]. apply andb_prop in Hin as [H1 H2].
  cbv zeta. repeat split; try assumption. apply verdict_eqb_eq. exact H5.
Qed.

(** The distance of two 64-bit fingerprints. *)
Lemma hamming_64 fuel h1 h2 :
  (0 <= h1 < 2 ^ 64)%Z -> (0 <= h2 < 2 ^ 64)%Z -> (65 <= fuel)%nat ->
  hammingDistanceHashBigInt fuel h1 h2 = Some (popcount 64 (Z.lxor h1 h2)) /\
  (popcount 64 (Z.lxor h1 h2) <= 64)%nat.
Proof.
  intros H1 H2 Hf. pose proof (popcount_le 64 (Z.lxor h1 h2)) as Hle.
  split; [|exact Hle]. unfold hammingDistanceHashBigInt.
  rewrite (hamming_loop_popcount 64); [reflexivity | | lia].
  apply (lxor_bound h1 h2 64); lia.
Qed.

Lemma similarity_of_hashes_64 fuel h1 h2 :
  (0 <= h1 < 2 ^ 64)%Z -> (0 <= h2 < 2 ^ 64)%Z -> (65 <= fuel)%nat ->
  similarity_of_hashes fuel h1 h2 =
  Some {| similarity := Num.toFixed2 (similarity_of_distance (popcount 64 (Z.lxor h1 h2)));
          flags := [("packaging_layout_diff"%string,
                     Nat.ltb 0 (popcount 64 (Z.lxor h1 h2)))];
          verdict := verdict_of (similarity_of_distance (popcount 64 (Z.lxor h1 h2))) |}.
Proof.
  intros H1 H2 Hf. unfold similarity_of_hashes.
  destruct (hamming_64 fuel h1 h2 H1 H2 Hf) as [-> _]. reflexivity.
Qed.

End StrategyA.

(** C7. For the fingerprints of two 8 by 8 images the loop returns the
    number of one bits of their exclusive or, at most 64; the similarity
    1 - distance/64 and the rounded similarity that is returned lie between 0
    and 1; exchanging the two images gives the same similarity, and an image
    compared with itself gives exactly 1. *)
Theorem C7_hash_similarity (refData userData : list Z) (fuel : nat) :
  length refData = 256%nat -> length userData = 256%nat -> (65 <= fuel)%nat ->
  exists dist r r' r0,
    hammingDistanceHashBigInt fuel (computeAHashBig refData) (computeAHashBig userData)
      = Some dist /\
    dist = popcount 64 (Z.lxor (computeAHashBig refData) (computeAHashBig userData)) /\
    (dist <= 64)%nat /\
    (0 <=? similarity_of_distance dist)%float = true /\
    (similarity_of_distance dist <=? 1)%float = true /\
    cvSimilarityClient fuel refData userData = Some r /\
    similarity r = Num.toFixed2 (similarity_of_distance dist) /\
    (0 <=? similarity r)%float = true /\
    (similarity r <=? 1)%float = true /\
    cvSimilarityClient fuel userData refData = Some r' /\
    similarity r' = similarity r /\
    cvSimilarityClient fuel refData refData = Some r0 /\
    similarity r0 = 1%float.
Proof.
  intros Href Huser Hfuel.
  pose proof (hash_64 refData Href) as H1.
  pose proof (hash_64 userData Huser) as H2.
  destruct (hamming_64 fuel _ _ H1 H2 Hfuel) as [Hd Hle].
  destruct (distance_facts _ Hle) as (A & B & C & D & _).
  eexists _, _, _, _. split; [exact Hd|]. split; [reflexivity|].
  split; [exact Hle|]. split; [exact A|]. split; [exact B|].
  unfold cvSimilarityClient.
  rewrite !similarity_of_hashes_64 by assumption. cbn [similarity].
  split; [reflexivity|]. split; [reflexivity|].
  split; [exact C|]. split; [exact D|].
  split; [reflexivity|]. split; [rewrite Z.lxor_comm; reflexivity|].
  split; [reflexivity|]. rewrite Z.lxor_nilpotent. vm_compute. reflexivity.
Qed.

Lemma C7_hash_similarity_witness :
  exists dist r r' r0,
    hammingDistanceHashBigInt 65 (computeAHashBig (repeat 0%Z 256))
      (computeAHashBig (repeat 255%Z 4 ++ repeat 0%Z 252)) = Some dist /\
    dist = popcount 64 (Z.lxor (computeAHashBig (repeat 0%Z 256))
                               (computeAHashBig (repeat 255%Z 4 ++ repeat 0%Z 252))) /\
    (dist <= 64)%nat /\
    (0 <=? similarity_of_distance dist)%float = true /\
    (similarity_of_distance dist <=? 1)%float = true /\
    cvSimilarityClient 65 (repeat 0%Z 256) (repeat 255%Z 4 ++ repeat 0%Z 252) = Some r /\
    similarity r = Num.toFixed2 (similarity_of_distance dist) /\
    (0 <=? similarity r)%float = true /\
    (similarity r <=? 1)%float = true /\
    cvSimilarityClient 65 (repeat 255%Z 4 ++ repeat 0%Z 252) (repeat 0%Z 256) = Some r' /\
    similarity r' = similarity r /\
    cvSimilarityClient 65 (repeat 0%Z 256) (repeat 0%Z 256) = Some r0 /\
    similarity r0 = 1%float.
Proof.
  apply (C7_hash_similarity (repeat 0%Z 256) (repeat 255%Z 4 ++ repeat 0%Z 252) 65).
  - reflexivity.
  - reflexivity.
  - lia.
Defined.

(** * The label and colour strategy *)

Section StrategyB.

Local Open Scope float_scope.

(** The counter of [forEach] is the size of the intersection. *)
Lemma inter_count (a b : gset (list N)) :
  set_fold (fun x n => if bool_decide (x ∈ b) then S n else n) O a = size (a ∩ b).
Proof.
  apply (set_fold_ind_L (fun r (X : gset (list N)) => r = size (X ∩ b))).
  - rewrite intersection_empty_l_L, size_empty. reflexivity.
  - intros x X r Hx ->. destruct (bool_decide_reflect (x ∈ b)) as [Hb|Hb].
    + assert (({[x]} ∪ X) ∩ b = {[x]} ∪ (X ∩ b)) as -> by set_solver.
      rewrite (size_union {[x]} (X ∩ b)) by set_solver.
      rewrite size_singleton. reflexivity.
    + assert (({[x]} ∪ X) ∩ b = X ∩ b) as -> by set_solver. reflexivity.
Qed.

Lemma union_count (a b : gset (list N)) :
  (Z.of_nat (size a) + Z.of_nat (size b) - Z.of_nat (size (a ∩ b)))%Z
  = Z.of_nat (size (a ∪ b)).
Proof.
  pose proof (size_union_alt a b) as H1.
  pose proof (size_difference_alt b a) as H2.
  assert (E : b ∩ a = a ∩ b) by set_solver.
  rewrite E in H2.
  assert (size (a ∩ b) <= size b)%nat by (apply subseteq_size; set_solver).
  lia.
Qed.

Lemma size_zero (a : gset (list N)) : size a = O -> a = ∅.
Proof. intros H. apply leibniz_equiv, size_empty_iff. exact H. Qed.

(** [jaccardSimilarity] computes the Jaccard index. *)
Lemma jaccard_refines (a b : gset (list N)) :
  jaccardSimilarity a b = jaccard_index a b.
Proof.
  unfold jaccardSimilarity, jaccard_index.
  rewrite inter_count, union_count.
  destruct (decide (a = ∅ /\ b = ∅)) as [[-> ->]|Hne].
  - reflexivity.
  - destruct (Nat.eqb_spec (size a) 0) as [Ha|Ha], (Nat.eqb_spec (size b) 0) as [Hb|Hb];
      cbn [andb].
    + exfalso. apply Hne. split; apply size_zero; assumption.
    + destruct (Z.eqb_spec (Z.of_nat (size (a ∪ b))) 0) as [E|E]; [|reflexivity].
      exfalso. assert (size b <= size (a ∪ b))%nat by (apply subseteq_size; set_solver).
      lia.
    + destruct (Z.eqb_spec (Z.of_nat (size (a ∪ b))) 0) as [E|E]; [|reflexivity].
      exfalso. assert (size a <= size (a ∪ b))%nat by (apply subseteq_size; set_solver).
      lia.
    + destruct (Z.eqb_spec (Z.of_nat (size (a ∪ b))) 0) as [E|E]; [|reflexivity].
      exfalso. assert (size a <= size (a ∪ b))%nat by (apply subseteq_size; set_solver).
      lia.
Qed.

Lemma jaccard_empty : jaccardSimilarity ∅ ∅ = 0.
Proof. reflexivity. Qed.

Lemma palette_empty_l b : paletteSimilarity [] b = 0.
Proof. reflexivity. Qed.

Lemma palette_empty_r a : paletteSimilarity a [] = 0.
Proof. unfold paletteSimilarity. cbn [length Nat.eqb]. rewrite orb_true_r. reflexivity. Qed.

(** Multiplication of numbers is commutative. *)
Lemma mul_comm x y : x * y = y * x.
Proof.
  apply Prim2SF_inj. rewrite !mul_spec. unfold SF64mul, SFmul.
  destruct (Prim2SF x) as [sx|sx| |sx mx ex], (Prim2SF y) as [sy|sy| |sy my ey];
    try reflexivity; rewrite ?(xorb_comm sx sy); try reflexivity.
  rewrite (Pos.mul_comm mx my), (Z.add_comm ex ey). reflexivity.
Qed.

Lemma some_total re labels : exists b, some (test re) labels = Ok b.
Proof.
  induction labels as [|l labels IH]; simpl; eauto.
  destruct (test_total re l) as [b ->]. simpl. destruct b; eauto.
Qed.

Variable lower : jsstring -> jsstring.

(** The result of [googleCVSimilarity] once both responses are there. *)
Lemma similarity_of_responses_some refResp userResp :
  exists flags,
    similarity_of_responses lower (Some refResp) (Some userResp) = Ok
      (let similarity :=
         Num.toFixed2
           (jaccardSimilarity (list_to_set (labels_of lower refResp))
                              (list_to_set (labels_of lower userResp)) * 0.7 +
            paletteSimilarity (firstn 5 (default [] (dominantColors refResp)))
                              (firstn 5 (default [] (dominantColors userResp))) * 0.3) in
       {| similarity := similarity; flags := flags;
          verdict := verdict_of similarity |}).
Proof.
  unfold similarity_of_responses, hasLogoIndication.
  destruct (some_total logo_re (labels_of lower refResp)) as [refLogo ->].
  cbn [bind].
  destruct refLogo.
  - destruct (some_total logo_re (labels_of lower userResp)) as [userLogo ->].
    cbn [bind]. eexists. reflexivity.
  - cbn [bind]. eexists. reflexivity.
Qed.

End StrategyB.

(** C8. For every pair of responses the combined similarity of the label
    strategy is 0.7 times the Jaccard index of the two sets of lower-cased
    labels plus 0.3 times the palette similarity of the first five colours,
    rounded to two decimals; the Jaccard index of two empty sets is 0, and
    the palette similarity is 0 when either palette is empty. *)
Theorem C8_combined_similarity (lower : jsstring -> jsstring)
    (refResp userResp : AnnotateImageResponse) :
  exists r,
    similarity_of_responses lower (Some refResp) (Some userResp) = Ok r /\
    similarity r =
      Num.toFixed2
        (0.7 * jaccard_index (list_to_set (labels_of lower refResp))
                             (list_to_set (labels_of lower userResp)) +
         0.3 * paletteSimilarity (firstn 5 (default [] (dominantColors refResp)))
                                 (firstn 5 (default [] (dominantColors userResp))))%float /\
    jaccardSimilarity ∅ ∅ = 0%float /\
    jaccard_index ∅ ∅ = 0%float /\
    (forall b, paletteSimilarity [] b = 0%float) /\
    (forall a, paletteSimilarity a [] = 0%float).
Proof.
  destruct (similarity_of_responses_some lower refResp userResp) as [flags H].
  eexists. split; [exact H|]. cbv zeta. cbn [similarity].
  split; [|split; [|split; [|split]]].
  - rewrite jaccard_refines, (mul_comm 0.7), (mul_comm 0.3). reflexivity.
  - apply jaccard_empty.
  - reflexivity.
  - apply palette_empty_l.
  - apply palette_empty_r.
Qed.

(** C5. The verdict is a function of the similarity with inclusive lower
    thresholds: at least 0.85 gives [likely_match], at least 0.70 and below
    0.85 gives [likely_match_with_warnings], below 0.70 gives [mismatch];
    0.85 itself, 0.70 itself and 0.6999 fall as these bounds say. Both
    strategies compute their verdict with this function: the hash strategy
    from 1 - distance/64, which for 64-bit fingerprints gives the verdict of
    the rounded similarity it returns, and the label strategy from the
    similarity it returns. *)
Theorem C5_verdict_thresholds :
  (forall s, (0.85 <=? s)%float = true -> verdict_of s = likely_match) /\
  (forall s, (0.7 <=? s)%float = true -> (s <? 0.85)%float = true ->
             verdict_of s = likely_match_with_warnings) /\
  (forall s, (s <? 0.7)%float = true -> verdict_of s = mismatch) /\
  verdict_of 0.85 = likely_match /\
  verdict_of 0.7 = likely_match_with_warnings /\
  verdict_of 0.6999 = mismatch /\
  (forall fuel h1 h2 r,
      similarity_of_hashes fuel h1 h2 = Some r ->
      exists dist,
        hammingDistanceHashBigInt fuel h1 h2 = Some dist /\
        verdict r = verdict_of (similarity_of_distance dist) /\
        ((0 <= h1 < 2 ^ 64)%Z -> (0 <= h2 < 2 ^ 64)%Z -> (65 <= fuel)%nat ->
         verdict r = verdict_of (similarity r))) /\
  (forall lower refResp userResp r,
      similarity_of_responses lower refResp userResp = Ok r ->
      verdict r = verdict_of (similarity r)).
Proof.
  split; [|split; [|split; [|split; [|split; [|split; [|split]]]]]].
  - intros s H. unfold verdict_of, Num.geb. rewrite H. reflexivity.
  - intros s H1 H2. unfold verdict_of, Num.geb.
    rewrite (ltb_not_leb _ _ H2), H1. reflexivity.
  - intros s H. unfold verdict_of, Num.geb.
    rewrite (below_070_not_085 _ H), (ltb_not_leb _ _ H). reflexivity.
  - reflexivity.
  - reflexivity.
  - reflexivity.
  - intros fuel h1 h2 r H. unfold similarity_of_hashes in H.
    destruct (hammingDistanceHashBigInt fuel h1 h2) as [dist|] eqn:Hd; [|discriminate].
    injection H as <-. exists dist. split; [reflexivity|]. split; [reflexivity|].
    intros H1 H2 Hf. cbn [verdict similarity].
    destruct (hamming_64 fuel h1 h2 H1 H2 Hf) as [Hd' Hle].
    assert (Hdist : dist = popcount 64 (Z.lxor h1 h2)) by congruence.
    rewrite Hdist.
    destruct (distance_facts _ Hle) as (_ & _ & _ & _ & E).
    symmetry. exact E.
  - intros lower [refResp|] [userResp|] r H;
      [|cbn [similarity_of_responses] in H; discriminate..].
    destruct (similarity_of_responses_some lower refResp userResp) as [flags H'].
    rewrite H' in H. injection H as <-. reflexivity.
Qed.

(** * The statements at concrete inputs *)

(** C2 at a text without any pattern: every field but [raw_text] is absent. *)
Lemma C2_extracted_fields_witness :
  parseFieldsFromRawText (str "hello world") = Ok (no_fields (str "hello world")).
Proof.
  destruct (C2_extracted_fields (str "hello world"))
    as (ex & Hparse & _ & _ & _ & _ & _ & _ & _ & Hnone).
  rewrite Hparse. f_equal. apply Hnone. apply plain_text_has_no_pattern.
Defined.

(** C5 at 0.9, 0.75 and 0.5, and at two fingerprints that differ in two
    bits. *)
Lemma C5_verdict_thresholds_witness :
  verdict_of 0.9 = likely_match /\
  verdict_of 0.75 = likely_match_with_warnings /\
  verdict_of 0.5 = mismatch /\
  exists r, similarity_of_hashes 65 5 6 = Some r /\
            verdict r = verdict_of (similarity r).
Proof.
  destruct C5_verdict_thresholds as (H1 & H2 & H3 & _ & _ & _ & HA & _).
  split; [apply H1; reflexivity|].
  split; [apply H2; reflexivity|].
  split; [apply H3; reflexivity|].
  eexists. split; [vm_compute; reflexivity|].
  destruct (HA 65%nat 5%Z 6%Z _ eq_refl) as (dist & _ & _ & H).
  apply H; [split; [easy | reflexivity] | split; [easy | reflexivity] | lia].
Defined.

(** C6 at the empty string: no pattern matches, the fields are absent and
    their presence rules are among the violations. *)
Lemma C6_total_witness :
  exists ex rules summary,
    parseFieldsFromRawText [] = Ok ex /\
    validateLocally ex = Ok (rules, summary) /\
    mrp ex = None /\ net_quantity ex = None /\ unit ex = None /\
    month_year ex = None /\ consumer_care ex = None /\
    In "mrp_present"%string (violations summary) /\
    In "net_quantity_present"%string (violations summary) /\
    In "month_year_present"%string (violations summary) /\
    In "consumer_care_present"%string (violations summary).
Proof.
  destruct C6_total as (H & _).
  destruct (H []) as (ex & rules & summary & Hp & Hv & Hmrp & Hqty & Hmy & Hcare).
  destruct (Hmrp eq_refl) as [M1 M2].
  destruct (Hqty eq_refl) as (Q1 & Q2 & Q3).
  destruct (Hmy eq_refl) as [Y1 Y2].
  destruct (Hcare eq_refl) as [K1 K2].
  exists ex, rules, summary. repeat (split; [assumption|]). assumption.
Defined.

(** C9 at a quantity written with a comma and an upper-case unit. *)
Lemma C9_quantity_and_unit_witness :
  In (str "kg") canonical_units /\
  ~ In comma (str "15") /\
  test numeric_re (str "15") = Ok true.
Proof.
  destruct (C9_quantity_and_unit (str "Net 1,5 KG")) as (ex & Hp & _ & Hu & Hq).
  vm_compute in Hp. injection Hp as <-.
  split; [apply (Hu (str "kg")); reflexivity|].
  apply (Hq (str "15")). reflexivity.
Defined.

(** C10 at a manufacturer line followed by an address line. *)
Lemma C10_address_follows_manufacturer_witness :
  exists pieces i line name,
    split newline_re (str "Mfg by: Acme Foods" ++ [10] ++ str "12, Main Road")
      = Ok pieces /\
    nth_error (lines_of pieces) i = Some line /\
    test manuf_re line = Ok true /\
    replace label_re [] line = Ok name /\
    (forall p q, line = p ++ colon :: q -> ~ In colon p ->
                 Forall (fun c => is_line_terminator c = false) p ->
                 name = trim_start q) /\
    nth_error (lines_of pieces) (S i) = Some (str "12, Main Road") /\
    exists ch, In ch (str "12, Main Road") /\ (is_digit ch = true \/ ch = comma).
Proof.
  destruct (C10_address_follows_manufacturer
              (str "Mfg by: Acme Foods" ++ [10] ++ str "12, Main Road"))
    as (ex & Hp & H).
  vm_compute in Hp. injection Hp as <-.
  destruct (H (str "12, Main Road") eq_refl)
    as (pieces & i & line & name & A & B & C & _ & _ & D & _ & E & F & G).
  exists pieces, i, line, name. repeat (split; [assumption|]). assumption.
Defined.

(** * Further properties *)



Lemma m_lits_cs w : forall p s cs c,
  m false (lits w) (MState p s cs) c =
  if starts_with w s
  then c (MState (rev w ++ p) (skipn (length w) s) cs)
  else Failure.
Proof.
  induction w as [|a w IH]; intros p s cs c.
  - reflexivity.
  - assert (Hstep : m false (Seq (Atom (Lit a)) (lits w)) (MState p s cs) c =
                    if starts_with (a :: w) s
                    then c (MState (rev (a :: w) ++ p) (skipn (length (a :: w)) s) cs)
                    else Failure).
    { rewrite m_seq. destruct s as [|ch s]; [reflexivity|].
      rewrite m_atom_cons. cbn [atom_match citem_match starts_with].
      destruct (a =? ch) eqn:E; [|reflexivity].
      apply N.eqb_eq in E. subst ch. rewrite IH. cbn [andb length skipn rev].
      rewrite <- app_assoc. reflexivity. }
    destruct w as [|b w]; [|exact Hstep].
    destruct s as [|ch s]; [reflexivity|].
    cbn [lits]. rewrite m_atom_cons. cbn [atom_match citem_match starts_with].
    destruct (a =? ch) eqn:E; [|reflexivity].
    apply N.eqb_eq in E. subst ch. destruct s; reflexivity.
Qed.

Lemma starts_with_app w s : starts_with w s = true <-> exists tl, s = w ++ tl.
Proof.
  revert s. induction w as [|a w IH]; intros s; simpl.
  - split; eauto.
  - destruct s as [|c s].
    + split; [discriminate | intros [tl H]; discriminate].
    + rewrite andb_true_iff, N.eqb_eq, IH. split.
      * intros [-> [tl ->]]. eauto.
      * intros [tl [= -> ->]]. eauto.
Qed.

Lemma starts_with_skipn w s : starts_with w s = true -> s = w ++ skipn (length w) s.
Proof.
  intros H. apply starts_with_app in H as [tl ->].
  rewrite skipn_app, skipn_all, Nat.sub_diag. reflexivity.
Qed.

(** A pattern that begins with "^" matches at the start of the subject or
    nowhere. *)
Lemma exec_from_anchored r ic s : forall pre,
  pre <> [] -> exec_from (RegExp (Seq AssertStart r) ic) pre s = Ok None.
Proof.
  induction s as [|ch s IH]; intros pre Hpre; cbn [exec_from pattern ignoreCase];
    rewrite m_seq; unfold start_state; cbn [m prev];
    (destruct pre; [congruence|]); [reflexivity|].
  apply IH. discriminate.
Qed.

Lemma exec_anchored r ic s :
  exec (RegExp (Seq AssertStart r) ic) s =
  match m ic r (start_state [] s) Matched with
  | Matched y => Ok (Some (result_of [] y))
  | Failure => Ok None
  | OutOfFuel => Throw FuelExhausted
  end.
Proof.
  unfold exec. destruct s as [|ch s]; cbn [exec_from pattern ignoreCase];
    rewrite m_seq; unfold start_state; rewrite m_start;
    destruct (m ic r _ _); try reflexivity.
  apply exec_from_anchored. discriminate.
Qed.

(** [/^w/.test(s)] for a literal [w]. *)
Lemma test_prefix w s :
  test (RegExp (Seq AssertStart (lits w)) false) s = Ok (starts_with w s).
Proof.
  unfold test. rewrite exec_anchored. unfold start_state. rewrite m_lits_cs.
  destruct (starts_with w s); reflexivity.
Qed.

(** [s.replace(/^w/, "")] for a literal [w]. *)
Lemma replace_prefix w s :
  replace (RegExp (Seq AssertStart (lits w)) false) [] s =
  Ok (if starts_with w s then skipn (length w) s else s).
Proof.
  unfold replace. rewrite exec_anchored. unfold start_state. rewrite m_lits_cs.
  destruct (starts_with w s); reflexivity.
Qed.

(** [/^w$/.test(s)] for a literal [w]. *)
Lemma test_exact w s :
  test (RegExp (seqs [AssertStart; lits w; AssertEnd]) false) s = Ok (JS.eqb w s).
Proof.
  unfold test. cbn [seqs]. rewrite exec_anchored. unfold start_state.
  rewrite m_seq, m_lits_cs. unfold JS.eqb.
  destruct (starts_with w s) eqn:E.
  - apply starts_with_skipn in E. cbn [m rest].
    destruct (skipn (length w) s) as [|c tl] eqn:Hs.
    + rewrite app_nil_r in E. rewrite bool_decide_eq_true_2 by congruence. reflexivity.
    + rewrite bool_decide_eq_false_2; [reflexivity|].
      intros ->. rewrite skipn_all in Hs. discriminate.
  - rewrite bool_decide_eq_false_2; [reflexivity|].
    intros ->. assert (starts_with s s = true) by (apply starts_with_app; exists []; rewrite app_nil_r; reflexivity).
    congruence.
Qed.

Lemma drop_suffix_unfold w s :
  drop_suffix w s =
  if JS.eqb w s then Some []
  else match s with
       | [] => None
       | c :: s' => option_map (cons c) (drop_suffix w s')
       end.
Proof. destruct s; reflexivity. Qed.

Lemma span_matched w pre cs :
  span (start_state pre []) (MState (rev w ++ pre) [] cs) = w.
Proof. apply span_of_mid. reflexivity. Qed.

Lemma m_suffix w p s cs :
  m false (Seq (lits w) AssertEnd) (MState p s cs) Matched =
  if JS.eqb w s then Matched (MState (rev w ++ p) [] cs) else Failure.
Proof.
  rewrite m_seq, m_lits_cs. unfold JS.eqb.
  destruct (starts_with w s) eqn:E.
  - apply starts_with_skipn in E. cbn [m rest].
    destruct (skipn (length w) s) as [|c tl] eqn:Hs.
    + rewrite app_nil_r in E. rewrite bool_decide_eq_true_2 by congruence. reflexivity.
    + rewrite bool_decide_eq_false_2; [reflexivity|].
      intros ->. rewrite skipn_all in Hs. discriminate.
  - rewrite bool_decide_eq_false_2; [reflexivity|].
    intros ->.
    assert (starts_with s s = true)
      by (apply starts_with_app; exists []; rewrite app_nil_r; reflexivity).
    congruence.
Qed.

Lemma exec_from_suffix w s : forall pre,
  exec_from (RegExp (Seq (lits w) AssertEnd) false) pre s =
  Ok (option_map (fun front => MatchResult (rev pre ++ front) w [] [])
                 (drop_suffix w s)).
Proof.
  induction s as [|ch s IH]; intros pre; cbn [exec_from pattern ignoreCase];
    unfold start_state; rewrite m_suffix, drop_suffix_unfold;
    destruct (JS.eqb w _) eqn:E.
  - unfold result_of. cbn [option_map rest caps].
    rewrite span_matched, app_nil_r. reflexivity.
  - reflexivity.
  - unfold result_of. cbn [option_map rest caps].
    rewrite span_matched, app_nil_r. reflexivity.
  - rewrite IH. destruct (drop_suffix w s); cbn [option_map rev]; [|reflexivity].
    rewrite <- app_assoc. reflexivity.
Qed.

(** [s.replace(/w$/, "")] for a literal [w]. *)
Lemma replace_suffix w s :
  replace (RegExp (Seq (lits w) AssertEnd) false) [] s =
  Ok (default s (drop_suffix w s)).
Proof.
  unfold replace, exec. rewrite exec_from_suffix. cbn [bind].
  destruct (drop_suffix w s); cbn [option_map before after default rev app];
    [rewrite app_nil_r|]; reflexivity.
Qed.

Lemma drop_suffix_app w front : drop_suffix w (front ++ w) = Some front.
Proof.
  induction front as [|c front IH]; rewrite drop_suffix_unfold; unfold JS.eqb.
  - rewrite bool_decide_eq_true_2 by reflexivity. reflexivity.
  - rewrite bool_decide_eq_false_2.
    + cbn [app]. rewrite IH. reflexivity.
    + intros H. apply (f_equal (@length _)) in H.
      cbn [app length] in H. rewrite length_app in H. lia.
Qed.

Lemma drop_suffix_some w s : forall front,
  drop_suffix w s = Some front -> s = front ++ w.
Proof.
  induction s as [|c s IH]; intros front; rewrite drop_suffix_unfold;
    unfold JS.eqb; case_bool_decide as Hw.
  - intros [= <-]. subst w. reflexivity.
  - discriminate.
  - intros [= <-]. subst w. reflexivity.
  - destruct (drop_suffix w s) as [f|] eqn:E; [|discriminate].
    intros [= <-]. rewrite (IH f eq_refl). reflexivity.
Qed.

Lemma normalize_unfold input :
  normalizeModelName input =
  Ok (let m := trim (to_string (or_else input (Some []))) in
      if nonempty m then normalized m else STABLE_DEFAULT_MODEL).
Proof.
  unfold normalizeModelName, normalized. cbv zeta.
  destruct (nonempty _); [|reflexivity]. cbn [negb].
  unfold models_prefix_re, latest_suffix_re, gemini_10_re, word.
  rewrite replace_prefix. cbn [bind]. 
  replace (length (str "models/")) with 7%nat by reflexivity.
  rewrite replace_suffix. cbn [bind]. rewrite test_prefix. cbn [bind].
  destruct (starts_with (str "gemini-1.0") _); reflexivity.
Qed.

(** ** Trimming *)

Lemma trim_start_suffix s : exists ws, s = ws ++ trim_start s /\ Forall (fun c => is_space c = true) ws.
Proof.
  induction s as [|c s (ws & Hs & Hws)]; simpl.
  - exists []. split; [reflexivity | constructor].
  - destruct (is_space c) eqn:Hc.
    + exists (c :: ws). split; [simpl; congruence | constructor; assumption].
    + exists []. split; [reflexivity | constructor].
Qed.

Lemma trim_start_blank s :
  Forall (fun c => is_space c = true) s -> trim_start s = [].
Proof. induction 1 as [|c s Hc _ IH]; simpl; [|rewrite Hc]; auto. Qed.

Lemma trim_blank s : Forall (fun c => is_space c = true) s -> trim s = [].
Proof. intros H. unfold trim. rewrite (trim_start_blank s H). reflexivity. Qed.

Lemma trim_start_length s : (length (trim_start s) <= length s)%nat.
Proof.
  destruct (trim_start_suffix s) as (ws & Hs & _).
  rewrite Hs at 2. rewrite length_app. lia.
Qed.

Lemma trim_start_same_length s :
  length (trim_start s) = length s -> trim_start s = s.
Proof.
  intros H. destruct (trim_start_suffix s) as (ws & Hs & _).
  rewrite Hs in H at 2. rewrite length_app in H.
  destruct ws; [exact (eq_sym Hs) | simpl in H; lia].
Qed.

(** A string that [trim] leaves alone has no white space at either end. *)
Lemma trim_fixed n : trim n = n -> trim_start n = n /\ trim_start (rev n) = rev n.
Proof.
  intros H. unfold trim in H.
  pose proof (trim_start_length n) as H1.
  pose proof (trim_start_length (rev (trim_start n))) as H2.
  apply (f_equal (@length _)) in H as Hlen.
  rewrite length_rev in Hlen. rewrite length_rev in H2.
  assert (E1 : trim_start n = n) by (apply trim_start_same_length; lia).
  split; [exact E1|]. rewrite E1 in *.
  apply trim_start_same_length. rewrite length_rev. lia.
Qed.

Lemma trim_start_keeps a tl : a <> [] -> trim_start a = a -> trim_start (a ++ tl) = a ++ tl.
Proof.
  destruct a as [|c a]; [congruence|]. intros _. simpl.
  destruct (is_space c) eqn:Hc; [|reflexivity].
  intros H. pose proof (trim_start_length a) as Hl. rewrite H in Hl. simpl in Hl. lia.
Qed.

Lemma trim_start_app p c q :
  is_space c = false -> trim_start (p ++ c :: q) = trim_start p ++ c :: q.
Proof.
  intros Hc. induction p as [|d p IH]; simpl.
  - rewrite Hc. reflexivity.
  - destruct (is_space d); [exact IH | reflexivity].
Qed.

(** Trimming a path whose last segment has no white space at its ends. *)
Lemma trim_path p c n :
  is_space c = false -> n <> [] -> trim n = n ->
  trim (p ++ c :: n) = trim_start p ++ c :: n.
Proof.
  intros Hc Hn Ht. apply trim_fixed in Ht as [H1 H2]. unfold trim.
  rewrite trim_start_app by exact Hc.
  rewrite rev_app_distr. cbn [rev]. rewrite <- !app_assoc.
  rewrite trim_start_keeps; [| intros E; apply Hn; rewrite <- (rev_involutive n), E; reflexivity | exact H2].
  rewrite !rev_app_distr, !rev_involutive. cbn [rev app].
  rewrite <- app_assoc. reflexivity.
Qed.

(** ** Path segments *)

Lemma split_on_nonempty sep s : split_on sep s <> [].
Proof.
  destruct s as [|c s]; simpl; [discriminate|].
  destruct (sep =? c); [discriminate|]. destruct (split_on sep s); discriminate.
Qed.

Lemma pop_cons x arr : arr <> [] -> pop (x :: arr) = pop arr.
Proof. destruct arr; [congruence | reflexivity]. Qed.

Lemma split_on_plain sep n : ~ In sep n -> split_on sep n = [n].
Proof.
  induction n as [|c n IH]; intros Hn; simpl; [reflexivity|].
  destruct (N.eqb_spec sep c) as [->|Hne]; [exfalso; apply Hn; left; reflexivity|].
  rewrite IH; [reflexivity|]. intros H. apply Hn. right. exact H.
Qed.

(** The last piece of a path is what follows its last separator. *)
Lemma pop_split_on sep a n :
  ~ In sep n -> pop (split_on sep (a ++ sep :: n)) = Some n.
Proof.
  intros Hn. induction a as [|c a IH]; cbn [app split_on].
  - rewrite N.eqb_refl, pop_cons by apply split_on_nonempty.
    rewrite split_on_plain by exact Hn. reflexivity.
  - destruct (sep =? c).
    + rewrite pop_cons by apply split_on_nonempty. exact IH.
    + destruct (split_on sep (a ++ sep :: n)) as [|piece pieces] eqn:E.
      * exfalso. eapply split_on_nonempty. exact E.
      * destruct pieces as [|q pieces]; [|exact IH].
        cbn [pop] in IH. injection IH as ->.
        (* the whole of [a ++ sep :: n] would be one piece *)
        exfalso. clear -E Hn.
        assert (H : forall s, In sep s -> (2 <= length (split_on sep s))%nat).
        { induction s as [|d s IHs]; [intros []|]. intros [->|Hin]; cbn [split_on].
          - rewrite N.eqb_refl. pose proof (split_on_nonempty sep s).
            destruct (split_on sep s); [congruence | simpl; lia].
          - specialize (IHs Hin). destruct (sep =? d); [simpl; lia|].
            destruct (split_on sep s) as [|? [|? ?]]; simpl in *; lia. }
        specialize (H (a ++ sep :: n)). rewrite E in H. simpl in H.
        assert (In sep (a ++ sep :: n)) by (apply in_or_app; right; left; reflexivity).
        specialize (H H0). lia.
Qed.

(** * Model names *)

Lemma normalized_never_10 m : starts_with (str "gemini-1.0") (normalized m) = false.
Proof.
  unfold normalized. cbv zeta. set (x := default _ _).
  destruct (starts_with (str "gemini-1.0") x) eqn:E; [reflexivity | exact E].
Qed.

(** X1. normalizeModelName always returns a name, and never one that starts
    with "gemini-1.0"; for a missing, empty or all-white-space input it
    returns the default "gemini-1.5-flash". *)
Theorem normalize_avoids_old_family (input : option jsstring) :
  exists m,
    normalizeModelName input = Ok m /\
    starts_with (str "gemini-1.0") m = false /\
    (input = None -> m = STABLE_DEFAULT_MODEL) /\
    (forall s, input = Some s -> Forall (fun c => is_space c = true) s ->
               m = STABLE_DEFAULT_MODEL).
Proof.
  rewrite normalize_unfold. eexists. split; [reflexivity|]. cbv zeta.
  split; [|split].
  - destruct (nonempty _); [apply normalized_never_10 | reflexivity].
  - intros ->. reflexivity.
  - intros s -> Hs.
    assert (E : to_string (or_else (Some s) (Some [])) = s) by (destruct s; reflexivity).
    rewrite E, (trim_blank s Hs). reflexivity.
Qed.

Lemma slash_not_space : is_space (chr "/") = false.
Proof. reflexivity. Qed.

Lemma normalized_plain n :
  ~ In (chr "/") n ->
  normalized n =
  let m := default n (drop_suffix (str "-latest") n) in
  if starts_with (str "gemini-1.0") m then STABLE_DEFAULT_MODEL else m.
Proof.
  intros Hn. unfold normalized. cbv zeta.
  assert (H1 : starts_with (str "models/") n = false).
  { destruct (starts_with (str "models/") n) eqn:E; [|reflexivity].
    apply starts_with_app in E as [tl ->]. exfalso. apply Hn.
    vm_compute. tauto. }
  rewrite H1.
  assert (H2 : includes n (str "/") = false).
  { destruct (includes n (str "/")) eqn:E; [|reflexivity].
    apply includes_char in E. contradiction. }
  rewrite H2. reflexivity.
Qed.

Lemma normalized_path a n :
  n <> [] -> ~ In (chr "/") n ->
  normalized (a ++ chr "/" :: n) = normalized n.
Proof.
  intros Hne Hn. rewrite (normalized_plain n Hn). unfold normalized at 1. cbv zeta.
  assert (Hlast : forall b, (if includes (b ++ chr "/" :: n) (str "/")
                then to_string (or_else (pop (split_on (chr "/") (b ++ chr "/" :: n)))
                                        (Some (b ++ chr "/" :: n)))
                else b ++ chr "/" :: n) = n).
  { intros b.
    assert (E : includes (b ++ chr "/" :: n) (str "/") = true).
    { apply includes_char. apply in_or_app. right. left. reflexivity. }
    rewrite E, pop_split_on by exact Hn.
    destruct n; [congruence | reflexivity]. }
  destruct (starts_with (str "models/") (a ++ chr "/" :: n)) eqn:E.
  - (* the prefix is removed; what is left is [n] or still a path to [n] *)
    apply starts_with_app in E as [tl E].
    assert (Hskip : skipn 7 (a ++ chr "/" :: n) = tl).
    { rewrite E. reflexivity. }
    rewrite Hskip.
    assert (Htl : tl = n \/ exists b, tl = b ++ chr "/" :: n).
    { clear Hskip Hlast.
      destruct a as [|a1 [|a2 [|a3 [|a4 [|a5 [|a6 [|a7 a]]]]]]];
        cbn [app str List.map list_ascii_of_string] in E;
        try (injection E; intros; subst;
             first [ left; reflexivity
                   | exfalso; apply Hn; vm_compute; tauto
                   | right; eexists; reflexivity ]).
      all: try (exfalso; apply Hn; injection E; intros; subst; vm_compute; tauto).
      all: try (injection E as _ _ _ _ _ _ E'; first [discriminate E' | idtac]). }
    destruct Htl as [->|[b ->]].
    + assert (H2 : includes n (str "/") = false).
      { destruct (includes n (str "/")) eqn:E'; [|reflexivity].
        apply includes_char in E'. contradiction. }
      rewrite H2. reflexivity.
    + rewrite Hlast. reflexivity.
  - rewrite Hlast. reflexivity.
Qed.

(** X2. For an input p + "/" + n whose last segment n is non-empty, has no
    white space at either end and has no slash, normalizeModelName returns
    what it returns for n alone: everything up to the last slash is dropped,
    whatever p is. *)
Theorem normalize_last_segment (p n : jsstring) :
  n <> [] -> trim n = n -> ~ In (chr "/") n ->
  normalizeModelName (Some (p ++ chr "/" :: n)) = normalizeModelName (Some n).
Proof.
  intros Hne Ht Hn. rewrite !normalize_unfold. cbv zeta. f_equal.
  assert (E : forall s, to_string (or_else (Some s) (Some [])) = s)
    by (intros []; reflexivity).
  rewrite !E, Ht, (trim_path p (chr "/") n slash_not_space Hne Ht).
  rewrite (normalized_path (trim_start p) n Hne Hn).
  destruct n; [congruence|]. destruct (trim_start p); reflexivity.
Qed.

(** X3. For a name n that has no slash, does not start with white space and
    does not start with "gemini-1.0", normalizeModelName(n + "-latest") is n:
    the suffix is removed and nothing else changes (so "-latest" alone gives
    the empty name). *)
Theorem normalize_latest (n : jsstring) :
  ~ In (chr "/") n -> trim_start n = n ->
  starts_with (str "gemini-1.0") n = false ->
  normalizeModelName (Some (n ++ str "-latest")) = Ok n.
Proof.
  intros Hn Ht H10. rewrite normalize_unfold. cbv zeta. f_equal.
  assert (E : to_string (or_else (Some (n ++ str "-latest")) (Some [])) = n ++ str "-latest").
  { destruct n; reflexivity. }
  rewrite E.
  assert (Htrim : trim (n ++ str "-latest") = n ++ str "-latest").
  { unfold trim.
    assert (H1 : trim_start (n ++ str "-latest") = n ++ str "-latest").
    { destruct n as [|c n]; [reflexivity|]. apply trim_start_keeps; [discriminate | exact Ht]. }
    rewrite H1, rev_app_distr.
    replace (rev (str "-latest")) with (str "tsetal-") by reflexivity.
    cbn [str List.map list_ascii_of_string app trim_start].
    replace (is_space (N_of_ascii "t")) with false by reflexivity.
    cbn [rev]. rewrite <- !app_assoc. cbn [app].
    rewrite rev_involutive. reflexivity. }
  rewrite Htrim.
  assert (Hne : nonempty (n ++ str "-latest") = true) by (destruct n; reflexivity).
  rewrite Hne, normalized_plain.
  - cbv zeta. rewrite drop_suffix_app. cbn [default id]. rewrite H10. reflexivity.
  - intros H. apply in_app_or in H as [H|H]; [contradiction|].
    vm_compute in H. intuition discriminate.
Qed.

(** * Lists of models *)

Lemma eqb_true a b : JS.eqb a b = true <-> a = b.
Proof. unfold JS.eqb. apply bool_decide_eq_true. Qed.

Lemma existsb_eqb x (l : list jsstring) : existsb (JS.eqb x) l = true <-> In x l.
Proof.
  rewrite existsb_exists. split.
  - intros (y & Hy & E). apply eqb_true in E. subst. exact Hy.
  - intros H. exists x. split; [exact H | apply eqb_true; reflexivity].
Qed.

Lemma filter_filter_and {A} (f g : A -> bool) l :
  List.filter f (List.filter g l) = List.filter (fun x => g x && f x) l.
Proof.
  induction l as [|x l IH]; [reflexivity|]. cbn [List.filter].
  destruct (g x); cbn [List.filter andb]; [destruct (f x)|]; rewrite IH; reflexivity.
Qed.

Lemma fold_step l : forall set,
  fold_left (fun set x => if existsb (JS.eqb x) set then set else set ++ [x]) l set =
  set ++ List.filter (fun y => negb (existsb (JS.eqb y) set)) (uniq l).
Proof.
  unfold uniq. induction l as [|x l IH]; intros set; cbn [fold_left].
  - cbn [List.filter]. rewrite app_nil_r. reflexivity.
  - rewrite (IH (if existsb (JS.eqb x) [] then [] else [] ++ [x])).
    cbn [existsb app]. rewrite IH.
    destruct (existsb (JS.eqb x) set) eqn:E.
    + f_equal. cbn [List.filter]. rewrite E. cbn [negb].
      rewrite filter_filter_and. apply List.filter_ext_in. intros y _.
      cbn [existsb]. rewrite orb_false_r.
      destruct (JS.eqb y x) eqn:Eyx, (existsb (JS.eqb y) set) eqn:Ey;
        try reflexivity.
      apply eqb_true in Eyx. subst y. congruence.
    + rewrite <- app_assoc. f_equal. cbn [List.filter app]. rewrite E. cbn [negb].
      f_equal. rewrite filter_filter_and. apply List.filter_ext_in. intros y _.
      rewrite existsb_app. cbn [existsb]. rewrite orb_false_r, negb_orb.
      apply andb_comm.
Qed.

Lemma uniq_cons x l :
  uniq (x :: l) = x :: List.filter (fun y => negb (JS.eqb y x)) (uniq l).
Proof.
  unfold uniq at 1. cbn [fold_left existsb app]. rewrite fold_step.
  cbn [app]. f_equal. apply List.filter_ext. intros y. cbn [existsb].
  rewrite orb_false_r. reflexivity.
Qed.

Lemma uniq_in l : forall x, In x (uniq l) <-> In x l.
Proof.
  induction l as [|y l IH]; intros x; [reflexivity|].
  rewrite uniq_cons. cbn [In]. rewrite List.filter_In, IH. split.
  - intros [H|[H _]]; auto.
  - intros [H|H]; [left; exact H|].
    destruct (JS.eqb x y) eqn:E; [left; apply eqb_true in E; congruence|].
    right. split; [exact H | reflexivity].
Qed.

Lemma uniq_nodup l : List.NoDup (uniq l).
Proof.
  induction l as [|y l IH]; [constructor|]. rewrite uniq_cons. constructor.
  - intros H. apply List.filter_In in H as [_ H].
    assert (JS.eqb y y = true) by (apply eqb_true; reflexivity).
    rewrite H0 in H. discriminate.
  - apply List.NoDup_filter. exact IH.
Qed.

Lemma uniq_fixed l : List.NoDup l -> uniq l = l.
Proof.
  induction 1 as [|x l Hx _ IH]; [reflexivity|].
  rewrite uniq_cons, IH. f_equal.
  apply List.forallb_filter_id. apply forallb_forall. intros y Hy.
  destruct (JS.eqb y x) eqn:E; [|reflexivity].
  apply eqb_true in E. subst y. contradiction.
Qed.

(** X4. uniq keeps the first occurrence of every element in the order of the
    array: the result has no duplicates and the same elements, uniq of x
    followed by a list is x followed by uniq of the list without x, an array
    without duplicates is returned unchanged, and uniq is idempotent. *)
Theorem uniq_first_occurrences (arr : list jsstring) :
  List.NoDup (uniq arr) /\
  (forall x, In x (uniq arr) <-> In x arr) /\
  (forall x arr', arr = x :: arr' ->
     uniq arr = x :: List.filter (fun y => negb (JS.eqb y x)) (uniq arr')) /\
  (List.NoDup arr -> uniq arr = arr) /\
  uniq (uniq arr) = uniq arr.
Proof.
  split; [apply uniq_nodup|]. split; [apply uniq_in|].
  split; [intros x arr' ->; apply uniq_cons|].
  split; [apply uniq_fixed|]. apply uniq_fixed, uniq_nodup.
Qed.

Lemma score_spelled m : score m = Ok (score_of m).
Proof.
  unfold score, score_of, flash_re, flash_8b_re, pro_re, gemini_re, word.
  rewrite test_exact. cbn [bind]. destruct (JS.eqb _ m); [reflexivity|].
  rewrite test_prefix. cbn [bind]. destruct (starts_with _ m); [reflexivity|].
  rewrite test_prefix. cbn [bind]. destruct (starts_with _ m); [reflexivity|].
  rewrite test_prefix. cbn [bind]. destruct (starts_with _ m); reflexivity.
Qed.

Section StableSort.

Variable key : jsstring -> Z.
Variable cmp : jsstring -> jsstring -> result Z.
Hypothesis Hcmp : forall a b, cmp a b = Ok (key b - key a)%Z.


Lemma sort_insert_spec x : forall sorted,
  exists r, sort_insert cmp x sorted = Ok r /\
            Permutation r (x :: sorted) /\
            (forall k, having key k r = having key k (x :: sorted)) /\
            (StronglySorted (descending key) sorted -> StronglySorted (descending key) r).
Proof.
  induction sorted as [|y sorted (r & Hr & Hperm & Hst & Hsorted)]; cbn [sort_insert].
  - exists [x]. repeat split; auto. intros _. repeat constructor.
  - rewrite Hcmp. cbn [bind]. destruct (Z.leb_spec (key y - key x) 0) as [Hle|Hgt].
    + exists (x :: y :: sorted). repeat split; auto.
      intros Hs. constructor; [exact Hs|].
      apply StronglySorted_inv in Hs as [_ Hall].
      constructor; [unfold descending; lia|].
      eapply List.Forall_impl; [|exact Hall]. intros z Hz. unfold descending in *. lia.
    + rewrite Hr. cbn [bind]. exists (y :: r). split; [reflexivity|]. split; [|split].
      * rewrite Hperm. apply perm_swap.
      * intros k. unfold having in *. cbn [List.filter]. rewrite Hst. cbn [List.filter].
        destruct (Z.eqb_spec (key y) k), (Z.eqb_spec (key x) k); try reflexivity. lia.
      * intros Hs. apply StronglySorted_inv in Hs as [Hs Hall].
        constructor; [auto|].
        apply List.Forall_forall. intros z Hz.
        apply (Permutation_in _ Hperm) in Hz. destruct Hz as [<-|Hz].
        -- unfold descending. lia.
        -- rewrite List.Forall_forall in Hall. auto.
Qed.

Lemma sort_spec arr :
  exists r, array_sort cmp arr = Ok r /\
            Permutation r arr /\
            (forall k, having key k r = having key k arr) /\
            StronglySorted (descending key) r.
Proof.
  induction arr as [|x arr (s & Hs & Hperm & Hst & Hsorted)]; cbn [array_sort].
  - exists []. repeat split; auto. constructor.
  - rewrite Hs. cbn [bind].
    destruct (sort_insert_spec x s) as (r & Hr & Hperm' & Hst' & Hsorted').
    exists r. split; [exact Hr|]. split; [|split].
    + rewrite Hperm'. constructor. exact Hperm.
    + intros k. rewrite Hst'. unfold having in *. cbn [List.filter]. rewrite Hst. reflexivity.
    + auto.
Qed.

(** There is one stable sorted arrangement only. *)
Lemma stable_sorted_unique l1 : forall l2,
  StronglySorted (descending key) l1 -> StronglySorted (descending key) l2 ->
  (forall k, having key k l1 = having key k l2) -> l1 = l2.
Proof.
  assert (Hin : forall l z, In z l -> In z (having key (key z) l)).
  { intros l z Hz. apply List.filter_In. split; [exact Hz | apply Z.eqb_refl]. }
  assert (Hhead : forall x l l', StronglySorted (descending key) (x :: l) ->
            (forall k, having key k (x :: l) = having key k l') -> forall z, In z l' -> descending key x z).
  { intros x l l' Hs Hk z Hz. apply Hin in Hz. rewrite <- Hk in Hz.
    apply List.filter_In in Hz as [[<-|Hz] _]; [unfold descending; lia|].
    apply StronglySorted_inv in Hs as [_ Hall]. rewrite List.Forall_forall in Hall. auto. }
  induction l1 as [|x l1 IH]; intros l2 H1 H2 Hk.
  - destruct l2 as [|y l2]; [reflexivity|].
    specialize (Hk (key y)). unfold having in Hk. cbn [List.filter] in Hk.
    rewrite Z.eqb_refl in Hk. discriminate.
  - destruct l2 as [|y l2].
    { specialize (Hk (key x)). unfold having in Hk. cbn [List.filter] in Hk.
      rewrite Z.eqb_refl in Hk. discriminate. }
    assert (Hxy : descending key x y) by (eapply (Hhead x l1 (y :: l2)); [exact H1 | exact Hk | left; auto]).
    assert (Hyx : descending key y x).
    { eapply (Hhead y l2 (x :: l1)); [exact H2 | intros k; symmetry; apply Hk | left; auto]. }
    assert (Hkey : key x = key y) by (unfold descending in *; lia).
    pose proof (Hk (key x)) as Hkx. unfold having in Hkx. cbn [List.filter] in Hkx.
    rewrite Z.eqb_refl, <- Hkey, Z.eqb_refl in Hkx. injection Hkx as -> Hrest.
    f_equal. apply IH.
    + apply StronglySorted_inv in H1 as [H1 _]. exact H1.
    + apply StronglySorted_inv in H2 as [H2 _]. exact H2.
    + intros k. specialize (Hk k). unfold having in *. cbn [List.filter] in Hk.
      destruct (key y =? k)%Z; [injection Hk as Hk|]; exact Hk.
Qed.

End StableSort.

Lemma sortByPreference_spec models :
  exists sorted,
    sortByPreference models = Ok sorted /\
    Permutation sorted models /\
    (forall k, having score_of k sorted = having score_of k models) /\
    StronglySorted (descending score_of) sorted.
Proof.
  apply (sort_spec score_of
           (fun a b => let* sb := score b in let* sa := score a in Ok (sb - sa)%Z)).
  intros a b. cbv beta. rewrite !score_spelled. reflexivity.
Qed.

(** X5. sortByPreference returns a permutation of its argument in descending
    order of score (100 for "gemini-1.5-flash", 90, 80 and 50 for the prefixes
    "gemini-1.5-flash-8b", "gemini-1.5-pro" and "gemini-", else 0) that keeps
    the models of equal score in their original order, and it is the only list
    with these properties. *)
Theorem sortByPreference_stable (models : list jsstring) :
  exists sorted,
    sortByPreference models = Ok sorted /\
    Permutation sorted models /\
    StronglySorted (descending score_of) sorted /\
    (forall k, having score_of k sorted = having score_of k models) /\
    (forall l, StronglySorted (descending score_of) l ->
               (forall k, having score_of k l = having score_of k models) -> l = sorted).
Proof.
  destruct (sortByPreference_spec models) as (sorted & Hs & Hperm & Hst & Hsorted).
  exists sorted. split; [exact Hs|]. split; [exact Hperm|]. split; [exact Hsorted|].
  split; [exact Hst|].
  intros l Hl Hk. apply (stable_sorted_unique score_of); auto.
  intros k. rewrite Hst. apply Hk.
Qed.

Lemma array_filter_test re arr :
  (forall m, exists b, test re m = Ok b) ->
  exists kept, array_filter (test re) arr = Ok kept /\
               forall m, In m kept <-> In m arr /\ test re m = Ok true.
Proof.
  intros Ht. induction arr as [|x arr (kept & Hk & Hin)]; cbn [array_filter].
  - exists []. split; [reflexivity|]. intros m. split; [intros [] | intros [[] _]].
  - destruct (Ht x) as [b Hb]. rewrite Hb, Hk. cbn [bind].
    eexists. split; [reflexivity|]. intros m. destruct b; cbn [In]; rewrite Hin.
    + split; [intros [<-|[H1 H2]]; auto | intros [[<-|H1] H2]; auto].
    + split; [intros [H1 H2]; auto | intros [[<-|H1] H2]; [congruence | auto]].
Qed.

Lemma score_of_max m : (score_of m <= 100)%Z.
Proof.
  unfold score_of.
  destruct (JS.eqb _ m); [lia|]. destruct (starts_with _ m); [lia|].
  destruct (starts_with _ m); [lia|]. destruct (starts_with _ m); lia.
Qed.

Lemma sorted_filter (R : jsstring -> jsstring -> Prop) f l :
  StronglySorted R l -> StronglySorted R (List.filter f l).
Proof.
  induction 1 as [|x l Hs IH Hall]; cbn [List.filter]; [constructor|].
  destruct (f x); [|exact IH]. constructor; [exact IH|].
  apply List.Forall_forall. intros y Hy. apply List.filter_In in Hy as [Hy _].
  rewrite List.Forall_forall in Hall. auto.
Qed.

Lemma uniq_sorted (R : jsstring -> jsstring -> Prop) l :
  StronglySorted R l -> StronglySorted R (uniq l).
Proof.
  induction 1 as [|x l Hs IH Hall]; [constructor|].
  rewrite uniq_cons. constructor; [apply sorted_filter; exact IH|].
  apply List.Forall_forall. intros y Hy. apply List.filter_In in Hy as [Hy _].
  apply (proj1 (uniq_in l y)) in Hy. rewrite List.Forall_forall in Hall. auto.
Qed.

(** [getCandidateModels] up to the removal of duplicates. *)
Lemma candidates_unfold (listed : list jsstring) :
  exists gemini sorted,
    candidates_of listed =
    Ok (STABLE_DEFAULT_MODEL ::
        List.filter (fun y => negb (JS.eqb y STABLE_DEFAULT_MODEL)) (uniq sorted)) /\
    (forall m, In m gemini <-> In m listed /\ starts_with (str "gemini-") m = true) /\
    Permutation sorted gemini /\
    StronglySorted (descending score_of) sorted.
Proof.
  unfold candidates_of.
  destruct (array_filter_test gemini_re listed) as (gemini & -> & Hgem).
  { intros m. apply test_total. }
  cbn [bind].
  destruct (sortByPreference_spec gemini) as (sorted & -> & Hperm & _ & Hsorted).
  cbn [bind app]. rewrite uniq_cons. exists gemini, sorted.
  split; [reflexivity|]. split; [|split; assumption].
  intros m. rewrite Hgem. unfold gemini_re, word. rewrite test_prefix.
  split; intros [H1 H2]; split; congruence.
Qed.

Lemma candidate_members (listed gemini sorted : list jsstring) :
  (forall m, In m gemini <-> In m listed /\ starts_with (str "gemini-") m = true) ->
  Permutation sorted gemini ->
  forall m,
    In m (List.filter (fun y => negb (JS.eqb y STABLE_DEFAULT_MODEL)) (uniq sorted)) <->
    m <> STABLE_DEFAULT_MODEL /\ In m listed /\ starts_with (str "gemini-") m = true.
Proof.
  intros Hgem Hperm m. rewrite List.filter_In, uniq_in.
  assert (H : In m sorted <-> In m gemini)
    by (split; apply Permutation_in; [exact Hperm | symmetry; exact Hperm]).
  rewrite H, Hgem, negb_true_iff. unfold JS.eqb. rewrite bool_decide_eq_false.
  tauto.
Qed.

(** The candidates are the default and the listed models of the family,
    each once. *)
Lemma candidates_spec (listed : list jsstring) :
  exists models,
    candidates_of listed = Ok (STABLE_DEFAULT_MODEL :: models) /\
    List.NoDup (STABLE_DEFAULT_MODEL :: models) /\
    (forall m, In m models <->
               m <> STABLE_DEFAULT_MODEL /\ In m listed /\
               starts_with (str "gemini-") m = true).
Proof.
  destruct (candidates_unfold listed) as (gemini & sorted & -> & Hgem & Hperm & _).
  eexists. split; [reflexivity|].
  split; [rewrite <- uniq_cons; apply uniq_nodup|].
  apply (candidate_members listed gemini sorted Hgem Hperm).
Qed.

(** X6. For every list returned by listModelsV1, getCandidateModels returns
    the default "gemini-1.5-flash" first, followed by exactly the listed names
    that start with "gemini-" other than the default, each once, the whole
    list in descending order of score. *)
Theorem candidates_in_order (listed : list jsstring) :
  exists models,
    candidates_of listed = Ok (STABLE_DEFAULT_MODEL :: models) /\
    List.NoDup (STABLE_DEFAULT_MODEL :: models) /\
    (forall m, In m models <->
               m <> STABLE_DEFAULT_MODEL /\ In m listed /\
               starts_with (str "gemini-") m = true) /\
    StronglySorted (descending score_of) (STABLE_DEFAULT_MODEL :: models).
Proof.
  destruct (candidates_unfold listed) as (gemini & sorted & -> & Hgem & Hperm & Hsorted).
  eexists. split; [reflexivity|].
  split; [rewrite <- uniq_cons; apply uniq_nodup|].
  split; [apply (candidate_members listed gemini sorted Hgem Hperm)|].
  (* the default has the highest score, and removing duplicates keeps the order *)
  rewrite <- uniq_cons. apply uniq_sorted. constructor; [exact Hsorted|].
  apply List.Forall_forall. intros m _. unfold descending.
  replace (score_of STABLE_DEFAULT_MODEL) with 100%Z by reflexivity.
  apply score_of_max.
Qed.


Section Completeness.

Variable icase : bool.

Lemma groupless_quant_groupless r : groupless r = true -> quant_groupless r = true.
Proof.
  induction r; simpl; intros H; auto; try discriminate.
  - apply andb_prop in H as [H1 H2]. rewrite IHr1, IHr2; auto.
  - apply andb_prop in H as [H1 H2]. rewrite IHr1, IHr2; auto.
Qed.

Lemma run_shorter r x y : Run icase r x y -> (length (rest y) <= length (rest x))%nat.
Proof.
  intros H. apply run_span in H as (mid & H1 & _). rewrite H1, length_app. lia.
Qed.

(** A run of a pattern without groups that consumes nothing changes
    nothing. *)
Lemma run_no_progress r x y :
  Run icase r x y -> groupless r = true ->
  length (rest y) = length (rest x) -> y = x.
Proof.
  intros H Hg Hlen. pose proof (run_groupless _ _ _ _ H Hg) as Hc.
  apply run_span in H as (mid & H1 & H2).
  rewrite H1, length_app in Hlen.
  destruct mid; [|simpl in Hlen; lia]. simpl in H1, H2.
  destruct x, y; simpl in *; congruence.
Qed.

Lemma at_most_pred a b : at_most a b -> at_most (option_map Nat.pred a) (option_map Nat.pred b).
Proof. destruct a, b; simpl; auto; lia. Qed.

Lemma at_most_trans a b c : at_most a b -> at_most b c -> at_most a c.
Proof. destruct a, b, c; simpl; auto; try lia; tauto. Qed.

Lemma at_most_pred_l a : at_most (option_map Nat.pred a) a.
Proof. destruct a; simpl; auto; lia. Qed.

Lemma at_most_refl a : at_most a a.
Proof. destruct a; simpl; auto. Qed.

(** A repetition allowed by one bound is allowed by a larger one. *)
Lemma quant_max_mono r min max greedy x z :
  Run icase (Quant r min max greedy) x z ->
  forall max', at_most max max' -> Run icase (Quant r min max' greedy) x z.
Proof.
  intros H. remember (Quant r min max greedy) as q eqn:Hq.
  revert min max Hq.
  induction H; intros min' max' Hq max2 Hle; try discriminate.
  - injection Hq as -> <- -> ->. constructor.
  - injection Hq as -> -> -> ->.
    eapply run_quant_step.
    + intros ->. destruct max' as [[|k]|]; simpl in Hle; try congruence; try lia.
    + exact H0.
    + eapply IHRun2; [reflexivity | apply at_most_pred; exact Hle].
Qed.

(** A repetition from zero either stops at once or has a first iteration
    that consumes something. *)
Lemma quant_first_progress r max greedy x z :
  Run icase (Quant r 0 max greedy) x z -> groupless r = true ->
  z = x \/
  exists y, max <> Some 0%nat /\ Run icase r x y /\
            (length (rest y) < length (rest x))%nat /\
            Run icase (Quant r 0 (option_map Nat.pred max) greedy) y z.
Proof.
  intros H Hg. remember (Quant r 0 max greedy) as q eqn:Hq.
  revert max Hq.
  induction H; intros max' Hq; try discriminate.
  - left. reflexivity.
  - injection Hq as -> -> -> ->. clear IHRun1.
    specialize (IHRun2 _ eq_refl).
    pose proof (run_shorter _ _ _ H0) as Hle.
    destruct (Nat.eq_dec (length (rest y)) (length (rest x))) as [Heq|Hne].
    + apply (run_no_progress _ _ _ H0 Hg) in Heq. subst y.
      destruct IHRun2 as [->|(y & Hmax & Hy & Hlt & Hrest)]; [left; reflexivity|].
      right. exists y. repeat split; auto.
      eapply quant_max_mono; [exact Hrest|].
      apply at_most_pred, at_most_pred_l.
    + right. exists y. repeat split; auto. lia.
Qed.

Section Repeat.

Variable r : regex.
Hypothesis Hg : groupless r = true.
Hypothesis Hcomp : forall x y c z,
  Run icase r x y -> c y = Matched z -> fuel_safe x c ->
  exists z', m icase r x c = Matched z'.

Lemma repeat_continues fuel min max greedy x c :
  (min + length (rest x) < S fuel)%nat -> fuel_safe x c ->
  fuel_safe x (fun y =>
    if Nat.eqb min 0 && Nat.eqb (length (rest y)) (length (rest x))
    then Failure
    else repeat_matcher fuel (m icase r) (Nat.pred min) (option_map Nat.pred max)
           greedy y c).
Proof.
  intros Hf Hc y Hy.
  destruct (Nat.eqb min 0) eqn:Hmin; cbn [andb].
  - destruct (Nat.eqb (length (rest y)) (length (rest x))) eqn:Hlen; [discriminate|].
    apply Nat.eqb_eq in Hmin. apply Nat.eqb_neq in Hlen. subst min.
    apply repeat_matcher_fuel; [apply m_fuel | simpl in *; lia |].
    eapply fuel_safe_mono; eauto.
  - apply Nat.eqb_neq in Hmin.
    apply repeat_matcher_fuel; [apply m_fuel | lia |].
    eapply fuel_safe_mono; eauto.
Qed.

Lemma repeat_matcher_complete : forall n min max greedy x z c zz fuel,
  (min + length (rest x) <= n)%nat ->
  Run icase (Quant r min max greedy) x z -> c z = Matched zz ->
  fuel_safe x c -> (min + length (rest x) < fuel)%nat ->
  exists z', repeat_matcher fuel (m icase r) min max greedy x c = Matched z'.
Proof.
  induction n as [|n IH]; intros min max greedy x z c zz fuel Hn Hrun Hc Hsafe Hfuel;
    (destruct fuel as [|fuel]; [lia|]); rewrite repeat_matcher_S;
    pose proof (repeat_continues fuel min max greedy x c Hfuel Hsafe) as Hd;
    pose proof (m_fuel icase r x _ Hd) as Hmr;
    assert (Hcx : c x <> OutOfFuel) by (apply Hsafe; lia);
    cbv zeta in *.
  - (* nothing left to consume and no iteration owed *)
    assert (min = 0%nat) by lia. subst min.
    apply quant_first_progress in Hrun as [->|(y & _ & _ & Hlt & _)]; [|lia | exact Hg].
    destruct max as [[|k]|]; eauto; cbn [Nat.eqb negb andb] in Hmr |- *;
      (destruct greedy;
       [ match goal with |- context [m icase r x ?d] => destruct (m icase r x d) end;
         eauto; congruence
       | rewrite Hc; eauto ]).
  - destruct (Nat.eq_dec min 0%nat) as [->|Hmin].
    + apply quant_first_progress in Hrun as [->|(y & Hmax & Hy & Hlt & Hrest)];
        [| |exact Hg].
      * destruct max as [[|k]|]; eauto; cbn [Nat.eqb negb andb] in Hmr |- *;
          (destruct greedy;
           [ match goal with |- context [m icase r x ?d] => destruct (m icase r x d) end;
             eauto; congruence
           | rewrite Hc; eauto ]).
      * assert (Hnext : exists z2,
          repeat_matcher fuel (m icase r) (Nat.pred 0) (option_map Nat.pred max)
            greedy y c = Matched z2).
        { eapply IH; [ | exact Hrest | exact Hc | | ]; simpl in *; try lia.
          eapply fuel_safe_mono; [|exact Hsafe]. lia. }
        destruct Hnext as [z2 Hz2].
        destruct ((fun H => Hcomp x y _ z2 Hy H Hd)) as [z1 Hz1].
        { cbv beta. replace (Nat.eqb (length (rest y)) (length (rest x))) with false
            by (symmetry; apply Nat.eqb_neq; lia).
          cbn [Nat.eqb andb]. exact Hz2. }
        destruct max as [[|k]|]; [congruence| |]; cbn [Nat.eqb negb] in Hz1 |- *;
          (destruct greedy;
           [ rewrite Hz1; eauto
           | destruct (c x) eqn:Ecx; [eauto | rewrite Hz1; eauto | congruence] ]).
    + inversion Hrun as [| | | | | |r' min' max' greedy' x' y z' Hmax Hy Hrest| | | |]; subst.
      { congruence. }
      pose proof (run_shorter _ _ _ Hy) as Hle.
      assert (Hnext : exists z2,
          repeat_matcher fuel (m icase r) (Nat.pred min) (option_map Nat.pred max)
            greedy y c = Matched z2).
      { eapply IH; [ | exact Hrest | exact Hc | | ]; try lia.
        eapply fuel_safe_mono; [|exact Hsafe]. lia. }
      destruct Hnext as [z2 Hz2].
      replace (Nat.eqb min 0) with false in *
        by (symmetry; apply Nat.eqb_neq; exact Hmin).
      cbn [negb andb] in Hd |- *.
      destruct ((fun H => Hcomp x y _ z2 Hy H Hd)) as [z1 Hz1]; [exact Hz2|].
      destruct max as [[|k]|]; [congruence| |]; eauto.
Qed.

End Repeat.

(** The matcher finds a match whenever the pattern has a run that its
    continuation accepts. *)
Lemma m_complete r :
  quant_groupless r = true ->
  forall x y c z, Run icase r x y -> c y = Matched z -> fuel_safe x c ->
                  exists z', m icase r x c = Matched z'.
Proof.
  induction r; intros Hq x y c z Hrun Hc Hsafe; cbn [quant_groupless] in Hq.
  - inversion Hrun; subst. simpl. eauto.
  - inversion Hrun as [|a' x' ch s' Hr Ha| | | | | | | | |]; subst.
    cbn [m]. rewrite Hr, Ha. eauto.
  - apply andb_prop in Hq as [Hq1 Hq2].
    apply run_seq_inv in Hrun as (y1 & H1 & H2).
    destruct (IHr2 Hq2 y1 y c z H2 Hc) as [z2 Hz2].
    { eapply fuel_safe_mono; [|exact Hsafe]. eapply run_shorter; eauto. }
    cbn [m]. apply (IHr1 Hq1 x y1 (fun y => m icase r2 y c) z2 H1 Hz2).
    intros y' Hy'. apply m_fuel. eapply fuel_safe_mono; eauto.
  - apply andb_prop in Hq as [Hq1 Hq2].
    pose proof (m_fuel icase r1 x c Hsafe) as Hf1.
    cbn [m].
    inversion Hrun; subst.
    + destruct (IHr1 Hq1 x y c z) as [z' ->]; eauto.
    + destruct (m icase r1 x c); [eauto | | congruence].
      eapply IHr2; eauto.
  - cbn [m]. eapply repeat_matcher_complete; eauto.
    intros x0 y0 c0 z0. apply IHr. apply groupless_quant_groupless. exact Hq.
  - apply run_group_inv in Hrun as (y1 & H1 & ->).
    cbn [m].
    apply (IHr Hq x y1 (fun y => c (set_cap n (span x y) y)) z H1 Hc).
    intros y' Hy'. apply Hsafe. simpl. exact Hy'.
  - inversion Hrun as [| | | | | | | |x' Hp| |]; subst. cbn [m]. rewrite Hp. eauto.
  - inversion Hrun as [| | | | | | | | |x' Hp|]; subst. cbn [m]. rewrite Hp. eauto.
  - inversion Hrun as [| | | | | | | | | |x' Hp]; subst. cbn [m]. rewrite Hp. eauto.
Qed.

End Completeness.

(** ** What [exec] finds *)

Section Leftmost.

Variable re : regexp.
Hypothesis Hq : quant_groupless (pattern re) = true.

(** Where the pattern has a run, [exec] finds a match there or before. *)
Lemma exec_from_finds s1 : forall s2 pre y,
  Run (ignoreCase re) (pattern re) (start_state (rev s1 ++ pre) s2) y ->
  exists mr, exec_from re pre (s1 ++ s2) = Ok (Some mr) /\
             (length (before mr) <= length pre + length s1)%nat.
Proof.
  induction s1 as [|ch s1 IH]; intros s2 pre y Hrun.
  - cbn [rev app] in *.
    destruct (m_complete (ignoreCase re) (pattern re) Hq _ _ Matched y Hrun eq_refl
                (fuel_safe_Matched _)) as [z Hz].
    exists (result_of pre z). split; [apply exec_from_here; exact Hz|].
    cbn [result_of before]. rewrite length_rev. lia.
  - cbn [rev app] in *. rewrite <- app_assoc in Hrun. cbn [app] in Hrun.
    cbn [exec_from].
    pose proof (start_fuel re pre (ch :: s1 ++ s2)) as Hf.
    destruct (m _ _ _ _) as [z| |] eqn:Hm; [| |congruence].
    + exists (result_of pre z). split; [reflexivity|].
      cbn [result_of before]. rewrite length_rev. lia.
    + destruct (IH s2 (ch :: pre) y Hrun) as (mr & Hmr & Hlen).
      exists mr. split; [exact Hmr|]. simpl in *. lia.
Qed.

Lemma exec_from_before s : forall pre mr,
  exec_from re pre s = Ok (Some mr) -> (length pre <= length (before mr))%nat.
Proof.
  induction s as [|ch s IH]; intros pre mr; cbn [exec_from];
    destruct (m _ _ _ _) as [z| |]; try discriminate.
  - intros [= <-]. cbn [result_of before]. rewrite length_rev. lia.
  - intros [= <-]. cbn [result_of before]. rewrite length_rev. lia.
  - intros H. apply IH in H. simpl in H. lia.
Qed.

(** The match that [exec] returns begins at the first position from which
    the pattern has a run. *)
Lemma exec_leftmost s mr :
  exec re s = Ok (Some mr) ->
  forall s1 s2 y,
    s = s1 ++ s2 ->
    Run (ignoreCase re) (pattern re) (start_state (rev s1) s2) y ->
    (length (before mr) <= length s1)%nat.
Proof.
  intros He s1 s2 y -> Hrun.
  destruct (exec_from_finds s1 s2 [] y) as (mr' & Hmr' & Hlen).
  { rewrite app_nil_r. exact Hrun. }
  unfold exec in He. rewrite He in Hmr'. injection Hmr' as <-. simpl in Hlen. exact Hlen.
Qed.

Lemma exec_none s :
  exec re s = Ok None ->
  forall s1 s2 y,
    s = s1 ++ s2 ->
    ~ Run (ignoreCase re) (pattern re) (start_state (rev s1) s2) y.
Proof.
  intros He s1 s2 y -> Hrun.
  destruct (exec_from_finds s1 s2 [] y) as (mr' & Hmr' & _).
  { rewrite app_nil_r. exact Hrun. }
  unfold exec in He. congruence.
Qed.

End Leftmost.

(** ** Runs of patterns without assertions *)

Lemma lang_run icase r :
  assertion_free r = true ->
  forall w, lang icase r w ->
  forall p tl cs, exists cs',
    Run icase r (MState p (w ++ tl) cs) (MState (rev w ++ p) tl cs').
Proof.
  induction r; intros Ha w Hw p tl cs; cbn [assertion_free] in Ha;
    try discriminate.
  - simpl in Hw. subst w. exists cs. constructor.
  - destruct Hw as (ch & -> & Hch). exists cs.
    apply (run_atom icase a (MState p ([ch] ++ tl) cs) ch tl); [reflexivity | exact Hch].
  - apply andb_prop in Ha as [Ha1 Ha2].
    destruct Hw as (s1 & s2 & -> & H1 & H2).
    destruct (IHr1 Ha1 s1 H1 p (s2 ++ tl) cs) as [cs1 Hr1].
    destruct (IHr2 Ha2 s2 H2 (rev s1 ++ p) tl cs1) as [cs2 Hr2].
    exists cs2. rewrite <- app_assoc, rev_app_distr, <- app_assoc.
    econstructor; eauto.
  - apply andb_prop in Ha as [Ha1 Ha2]. destruct Hw as [H1|H2].
    + destruct (IHr1 Ha1 w H1 p tl cs) as [cs1 Hr1]. exists cs1.
      apply run_alt_l. exact Hr1.
    + destruct (IHr2 Ha2 w H2 p tl cs) as [cs2 Hr2]. exists cs2.
      apply run_alt_r. exact Hr2.
  - destruct Hw as (ss & -> & Hall & Hmin & Hmax).
    revert min max p cs Hmin Hmax.
    induction Hall as [|s ss Hs Hall IH]; intros min max p cs Hmin Hmax.
    + simpl in Hmin. assert (min = 0%nat) as -> by lia.
      exists cs. constructor.
    + cbn [concat]. rewrite <- app_assoc.
      destruct (IHr Ha s Hs p (concat ss ++ tl) cs) as [cs1 Hr1].
      destruct (IH (Nat.pred min) (option_map Nat.pred max) (rev s ++ p) cs1)
        as [cs2 Hr2].
      * simpl in Hmin. lia.
      * intros k Hk. destruct max as [k'|]; [|discriminate].
        simpl in Hk. injection Hk as <-. specialize (Hmax _ eq_refl). simpl in Hmax. lia.
      * exists cs2. rewrite rev_app_distr, <- app_assoc.
        eapply run_quant_step; [|exact Hr1 | exact Hr2].
        intros ->. specialize (Hmax _ eq_refl). simpl in Hmax. lia.
  - destruct (IHr Ha w Hw p tl cs) as [cs1 Hr1].
    eexists. apply (run_group icase n r _ _ Hr1).
Qed.

(** For a pattern without assertions, [test] tells whether the subject has
    an occurrence of a string of its language. *)
Lemma test_occurs re s :
  well_formed (pattern re) = true -> quant_groupless (pattern re) = true ->
  assertion_free (pattern re) = true ->
  (test re s = Ok true <-> occurs (ignoreCase re) (pattern re) s) /\
  (test re s = Ok false <-> ~ occurs (ignoreCase re) (pattern re) s).
Proof.
  intros Hwf Hq Ha.
  assert (H1 : test re s = Ok true -> occurs (ignoreCase re) (pattern re) s).
  { unfold test. destruct (exec re s) as [[mr|]|] eqn:He; simpl; try discriminate.
    intros _. apply exec_some in He as (Hs & Hl & _); [|exact Hwf].
    exists (before mr), (matched mr), (after mr). auto. }
  assert (H2 : occurs (ignoreCase re) (pattern re) s -> test re s = Ok true).
  { intros (a & w & b & -> & Hw).
    destruct (lang_run (ignoreCase re) (pattern re) Ha w Hw (rev a) b []) as [cs Hr].
    unfold test. destruct (exec re (a ++ w ++ b)) as [[mr|]|] eqn:He; simpl.
    - reflexivity.
    - exfalso. eapply (exec_none re Hq _ He a (w ++ b)); [reflexivity | exact Hr].
    - destruct (exec_total re (a ++ w ++ b)) as [r' Hr']. congruence. }
  split; [split; assumption|]. split.
  - intros Hf Ho. apply H2 in Ho. congruence.
  - intros Hn. destruct (test_total re s) as [[|] Hb]; [|exact Hb].
    apply H1 in Hb. contradiction.
Qed.


Lemma truthy_present o : truthy (present o) = truthy o.
Proof. destruct o as [[|c s]|]; reflexivity. Qed.

Lemma present_or_else a b :
  truthy (or_else (present a) (present b)) = truthy (or_else a b).
Proof. destruct a as [[|c s]|], b as [[|d t]|]; reflexivity. Qed.

Lemma and_then_present o (t : jsstring -> result bool) :
  and_then (truthy (present o)) (t (to_string (present o))) =
  and_then (truthy o) (t (to_string o)).
Proof. destruct o as [[|c s]|]; reflexivity. Qed.

Lemma includes_present arr o :
  truthy (present o) && array_includes arr (present o) =
  truthy o && array_includes arr o.
Proof. destruct o as [[|c s]|]; reflexivity. Qed.

(** X8. validateLocally cannot tell an empty field from a missing one:
    replacing every field that is the empty string by undefined leaves the
    rules and the summary unchanged. *)
Theorem empty_field_is_missing (ex : ExtractedFields) :
  validateLocally (without_empty ex) = validateLocally ex.
Proof.
  unfold validateLocally, without_empty.
  cbn [generic_name mrp net_quantity unit manufacturer_name manufacturer_address
       month_year consumer_care raw_text].
  rewrite present_or_else, includes_present.
  rewrite (and_then_present (net_quantity ex) (test numeric_re)).
  rewrite (and_then_present (mrp ex) (test digit_re)).
  rewrite (and_then_present (raw_text ex) (test prominent_re)).
  rewrite !truthy_present. reflexivity.
Qed.

(** * The evaluator on the extractor's output *)

Lemma violation_iff (rules : list RuleResult) k :
  In k (List.map rule_key (List.filter (fun r => negb (passed r)) rules)) <->
  exists r, In r rules /\ rule_key r = k /\ passed r = false.
Proof.
  rewrite in_map_iff. split.
  - intros (r & Hk & Hr). apply List.filter_In in Hr as [Hr Hp].
    exists r. repeat split; auto. apply negb_true_iff. exact Hp.
  - intros (r & Hr & Hk & Hp). exists r. split; [exact Hk|].
    apply List.filter_In. split; [exact Hr|]. rewrite Hp. reflexivity.
Qed.

Lemma compliant_all_passed (rules : list RuleResult) :
  Nat.eqb (length (List.map rule_key (List.filter (fun r => negb (passed r)) rules))) 0
  = forallb passed rules.
Proof.
  induction rules as [|r rules IH]; [reflexivity|].
  cbn [List.filter forallb]. destruct (passed r); cbn [negb andb]; [exact IH | reflexivity].
Qed.

(** The rules that failed, read off the ten results. *)
Ltac which_rule H :=
  let r := fresh "r" in
  let Hin := fresh "Hin" in
  let Hk := fresh "Hk" in
  let Hp := fresh "Hp" in
  destruct H as (r & Hin & Hk & Hp);
  cbn [In] in Hin;
  repeat (destruct Hin as [<-|Hin]; [cbn [rule_key passed] in Hk, Hp; try discriminate Hk|]);
  try contradiction.

Ltac this_rule n :=
  match goal with
  | |- exists r, In r ?rs /\ _ =>
      exists (nth n rs (Build_RuleResult "" true 0));
      cbn [nth]; split; [simpl; tauto | split; [reflexivity|]]; cbn [passed]
  end.

Lemma amount_has_digit ilo ihi dlo dhi s :
  (1 <= ilo)%nat -> amount_shape ilo ihi dlo dhi s ->
  exists d tl, s = d :: tl /\ is_digit d = true.
Proof.
  intros Hlo (ds & frac & -> & Hds & Hlen & _).
  destruct ds as [|d ds]; [simpl in Hlen; lia|].
  inversion Hds; subst. exists d, (ds ++ frac). auto.
Qed.

Lemma has_digit a d b : is_digit d = true -> test digit_re (a ++ d :: b) = Ok true.
Proof.
  intros Hd. apply (test_occurs digit_re); try reflexivity.
  exists a, [d], b. split; [reflexivity|]. exists d. split; [reflexivity|].
  rewrite digit_match. exact Hd.
Qed.

Lemma truthy_cons c s : truthy (Some (c :: s)) = true.
Proof. reflexivity. Qed.

Lemma truthy_nonempty s : s <> [] -> truthy (Some s) = true.
Proof. destruct s; [congruence | reflexivity]. Qed.

(** A text in which the price pattern matches passes the prominence
    pattern. *)
Lemma price_is_prominent raw mr :
  exec mrp_re raw = Ok (Some mr) -> test prominent_re raw = Ok true.
Proof.
  intros He. destruct (mrp_match raw mr He) as (Hraw & Hl & _).
  apply (test_occurs prominent_re); try reflexivity.
  cbn [pattern mrp_re prominent_re ignoreCase] in *.
  destruct Hl as (s1 & s2 & Hm & [H1|H1] & _).
  - destruct H1 as (ch & -> & Hch).
    exists (before mr), [ch], (s2 ++ after mr).
    split; [rewrite Hraw, Hm, <- !app_assoc; reflexivity|].
    right. right. left. exists ch. auto.
  - cbn [seqs] in H1. destruct H1 as (t1 & t2 & -> & Ht1 & _).
    exists (before mr), t1, (t2 ++ s2 ++ after mr).
    split; [rewrite Hraw, Hm, <- !app_assoc; reflexivity|].
    right. right. right. exists t1, []. split; [rewrite app_nil_r; reflexivity|].
    split; [exact Ht1|]. exists []. repeat split; auto; simpl; try lia. 
Qed.

Lemma canonical_unit_valid u :
  In u canonical_units -> truthy (Some u) && array_includes valid_units (Some u) = true.
Proof.
  intros H. vm_compute in H.
  repeat destruct H as [<-|H]; try contradiction; reflexivity.
Qed.

Lemma and_then_true b t : b = true -> t = Ok true -> and_then b t = Ok true.
Proof. intros -> ->. reflexivity. Qed.

(** What the evaluator sees in the fields that the extractor takes from
    its four patterns over the text. *)
Lemma extracted_rules raw :
  exists ex mrpM qtyM myM careM,
    parseFieldsFromRawText raw = Ok ex /\
    exec mrp_re raw = Ok mrpM /\ exec qty_re raw = Ok qtyM /\
    exec my_re raw = Ok myM /\ exec care_re raw = Ok careM /\
    truthy (mrp ex) = is_match mrpM /\
    and_then (truthy (mrp ex)) (test digit_re (to_string (mrp ex)))
      = Ok (is_match mrpM) /\
    (is_match mrpM = true ->
     and_then (truthy (raw_text ex)) (test prominent_re (to_string (raw_text ex)))
       = Ok true) /\
    truthy (net_quantity ex) = is_match qtyM /\
    and_then (truthy (net_quantity ex)) (test numeric_re (to_string (net_quantity ex)))
      = Ok (is_match qtyM) /\
    truthy (unit ex) && array_includes valid_units (unit ex) = is_match qtyM /\
    truthy (month_year ex) = is_match myM /\
    truthy (consumer_care ex) = is_match careM.
Proof.
  destruct (parse_unfold raw) as
    (pieces & mrpM & qtyM & myM & careM & manufLine & nameLine & name & label &
     looks & _ & Hmrp & Hqty & Hmy & Hcare & _ & _ & _ & _ & _ & Hparse).
  eexists _, mrpM, qtyM, myM, careM. split; [exact Hparse|].
  repeat (split; [assumption|]).
  cbn [mrp net_quantity unit month_year consumer_care raw_text].
  match goal with |- truthy ?v = _ /\ _ =>
    assert (Hm : truthy v = is_match mrpM /\
                 and_then (truthy v) (test digit_re (to_string v)) = Ok (is_match mrpM))
  end.
  { destruct mrpM as [mr|]; [|split; reflexivity].
    destruct (mrp_match raw mr Hmrp) as (_ & Hl & amount & Hg & Hshape).
    destruct (amount_has_digit 1 5 2 2 amount ltac:(lia) Hshape) as (d & tl & -> & Hd).
    rewrite Hg. cbn [to_string].
    destruct (includes raw [rupee]).
    - split; [reflexivity|]. cbn [truthy and_then to_string is_match].
      apply (has_digit [rupee] d tl Hd).
    - rewrite truthy_nonempty by (apply mrp_nonempty; exact Hl).
      split; [reflexivity|]. cbn [and_then to_string is_match].
      cbn [pattern mrp_re lang] in Hl. destruct Hl as (s1 & s2 & -> & _ & H2).
      apply lang_amount in H2.
      destruct (amount_has_digit 1 5 2 2 s2 ltac:(lia) H2) as (d' & tl' & -> & Hd').
      apply has_digit. exact Hd'. }
  destruct Hm as (Hv1 & Hv2).
  split; [exact Hv1|]. split; [exact Hv2|]. split.
  { destruct mrpM as [mr|]; [intros _|discriminate].
    assert (Hne : raw <> []).
    { destruct (mrp_match raw mr Hmrp) as (Hraw & Hl & _).
      apply mrp_nonempty in Hl. intros ->.
      destruct (before mr); [|discriminate]. destruct (matched mr); [congruence | discriminate]. }
    rewrite truthy_nonempty by exact Hne. cbn [and_then to_string].
    eapply price_is_prominent. exact Hmrp. }
  assert (Hq : truthy (fst (qty_of qtyM)) = is_match qtyM /\
               and_then (truthy (fst (qty_of qtyM)))
                 (test numeric_re (to_string (fst (qty_of qtyM)))) = Ok (is_match qtyM) /\
               truthy (snd (qty_of qtyM)) && array_includes valid_units (snd (qty_of qtyM))
                 = is_match qtyM).
  { destruct qtyM as [mr|]; [|repeat split].
    apply qty_match in Hqty as (amount & token & Hg1 & Hg2 & Hshape & Htoken).
    cbn [qty_of fst snd is_match]. rewrite Hg1, Hg2. cbn [option_map].
    apply stripped_numeric in Hshape.
    assert (Ht : truthy (Some (without_commas amount)) = true)
      by (apply truthy_nonempty, numeric_nonempty; exact Hshape).
    split; [exact Ht|]. split; [apply and_then_true; [exact Ht | apply numeric_test; exact Hshape]|].
    destruct (unit_of_token token Htoken) as (u & -> & Hu).
    apply canonical_unit_valid. exact Hu. }
  destruct Hq as (Hq1 & Hq2 & Hq3).
  split; [exact Hq1|]. split; [exact Hq2|]. split; [exact Hq3|]. split.
  - destruct myM as [mr|]; [|reflexivity].
    apply my_match in Hmy as (mm & yyyy & -> & -> & _).
    cbn [to_string is_match]. apply truthy_nonempty.
    destruct mm; discriminate.
  - destruct careM as [mr|]; [|reflexivity].
    apply care_match in Hcare as [_ Hne]. cbn [option_map is_match].
    apply truthy_nonempty. exact Hne.
Qed.

Lemma violation_outcome (rules : list RuleResult) k :
  In k (List.map rule_key (List.filter (fun r => negb (passed r)) rules)) <->
  In (k, false) (outcomes rules).
Proof.
  rewrite violation_iff. unfold outcomes. rewrite in_map_iff. split.
  - intros (r & Hr & <- & Hp). exists r. rewrite Hp. auto.
  - intros (r & [= <- Hp] & Hr). exists r. auto.
Qed.

Lemma all_passed_outcomes (rules : list RuleResult) :
  forallb passed rules = forallb snd (outcomes rules).
Proof. induction rules as [|r rules IH]; simpl; congruence. Qed.

(** The ten results for a scanned text, as [handleOCRFileSelected] obtains
    them from the extractor and the evaluator. *)
Lemma scan_rules raw :
  exists ex rules summary mrpM qtyM myM careM prominent,
    parseFieldsFromRawText raw = Ok ex /\
    validateLocally ex = Ok (rules, summary) /\
    exec mrp_re raw = Ok mrpM /\ exec qty_re raw = Ok qtyM /\
    exec my_re raw = Ok myM /\ exec care_re raw = Ok careM /\
    outcomes rules =
      [ ("manufacturer_address_present",
         truthy (or_else (manufacturer_name ex) (manufacturer_address ex)));
        ("generic_name_present", truthy (generic_name ex));
        ("net_quantity_present", is_match qtyM);
        ("net_quantity_numeric", is_match qtyM);
        ("net_quantity_unit_valid", is_match qtyM);
        ("month_year_present", is_match myM);
        ("mrp_present", is_match mrpM);
        ("mrp_format_valid", is_match mrpM);
        ("mrp_prominent_in_text", prominent);
        ("consumer_care_present", is_match careM) ]%string /\
    (is_match mrpM = true -> prominent = true) /\
    (forall k, In k (violations summary) <-> In (k, false) (outcomes rules)) /\
    compliant summary = forallb snd (outcomes rules).
Proof.
  destruct (extracted_rules raw) as
    (ex & mrpM & qtyM & myM & careM & Hparse & Hmrp & Hqty & Hmy & Hcare &
     M1 & M2 & M3 & Q1 & Q2 & Q3 & Y1 & K1).
  destruct (validate_unfold ex) as (numeric & format & prominent & Hv & Hn & Hf & Hp).
  rewrite Q2 in Hn. injection Hn as <-. rewrite M2 in Hf. injection Hf as <-.
  eexists ex, _, _, mrpM, qtyM, myM, careM, prominent.
  split; [exact Hparse|]. split; [exact Hv|].
  repeat (split; [assumption|]). cbv zeta.
  split; [|split; [|split]].
  - unfold outcomes. cbn [List.map rule_key passed].
    rewrite Q1, Q3, Y1, M1, K1. reflexivity.
  - intros H. apply M3 in H. congruence.
  - intros k. cbn [violations]. apply violation_outcome.
  - cbn [compliant]. rewrite compliant_all_passed. apply all_passed_outcomes.
Qed.

Ltac failing H :=
  cbn [In] in H;
  repeat (destruct H as [H|H]; [try discriminate H|]);
  try contradiction.

(** X9. On the fields extracted from any text, the three quantity rules
    net_quantity_present, net_quantity_numeric and net_quantity_unit_valid
    fail together: each is among the violations exactly when the quantity
    pattern has no match in the text. *)
Theorem quantity_rules_fail_together (raw : jsstring) :
  exists ex rules summary found,
    parseFieldsFromRawText raw = Ok ex /\
    validateLocally ex = Ok (rules, summary) /\
    exec qty_re raw = Ok found /\
    (In "net_quantity_present"%string (violations summary) <-> found = None) /\
    (In "net_quantity_numeric"%string (violations summary) <-> found = None) /\
    (In "net_quantity_unit_valid"%string (violations summary) <-> found = None).
Proof.
  destruct (scan_rules raw) as
    (ex & rules & summary & mrpM & qtyM & myM & careM & prominent &
     Hparse & Hv & _ & Hqty & _ & _ & Hout & _ & Hviol & _).
  exists ex, rules, summary, qtyM.
  split; [exact Hparse|]. split; [exact Hv|]. split; [exact Hqty|].
  rewrite !Hviol, Hout.
  repeat split; intros H;
    try (failing H; injection H as H; destruct qtyM; [discriminate H | reflexivity]);
    subst qtyM; simpl; tauto.
Qed.

(** X10. On the fields extracted from any text, mrp_present and
    mrp_format_valid are violated exactly when the price pattern has no match,
    and mrp_prominent_in_text can only be violated when it has none. *)
Theorem mrp_rules_follow_the_price (raw : jsstring) :
  exists ex rules summary found,
    parseFieldsFromRawText raw = Ok ex /\
    validateLocally ex = Ok (rules, summary) /\
    exec mrp_re raw = Ok found /\
    (In "mrp_present"%string (violations summary) <-> found = None) /\
    (In "mrp_format_valid"%string (violations summary) <-> found = None) /\
    (In "mrp_prominent_in_text"%string (violations summary) -> found = None).
Proof.
  destruct (scan_rules raw) as
    (ex & rules & summary & mrpM & qtyM & myM & careM & prominent &
     Hparse & Hv & Hmrp & _ & _ & _ & Hout & Hprom & Hviol & _).
  exists ex, rules, summary, mrpM.
  split; [exact Hparse|]. split; [exact Hv|]. split; [exact Hmrp|].
  rewrite !Hviol, Hout.
  repeat split; intros H;
    try (failing H; injection H as H; destruct mrpM; [discriminate H | reflexivity]);
    try (subst mrpM; simpl; tauto).
  failing H. injection H as H. destruct mrpM; [|reflexivity].
  specialize (Hprom eq_refl). congruence.
Qed.

(** X11. The summary computed from the fields extracted from a text is
    compliant exactly when a manufacturer name or address and a generic name
    were extracted non-empty and the price, quantity, month/year and consumer-
    care patterns each have a match in the text. *)
Theorem compliant_when_all_found (raw : jsstring) :
  exists ex rules summary,
    parseFieldsFromRawText raw = Ok ex /\
    validateLocally ex = Ok (rules, summary) /\
    (compliant summary = true <->
       truthy (or_else (manufacturer_name ex) (manufacturer_address ex)) = true /\
       truthy (generic_name ex) = true /\
       (exists mr, exec mrp_re raw = Ok (Some mr)) /\
       (exists mr, exec qty_re raw = Ok (Some mr)) /\
       (exists mr, exec my_re raw = Ok (Some mr)) /\
       (exists mr, exec care_re raw = Ok (Some mr))).
Proof.
  destruct (scan_rules raw) as
    (ex & rules & summary & mrpM & qtyM & myM & careM & prominent &
     Hparse & Hv & Hmrp & Hqty & Hmy & Hcare & Hout & Hprom & _ & Hcomp).
  exists ex, rules, summary.
  split; [exact Hparse|]. split; [exact Hv|].
  rewrite Hcomp, Hout, Hmrp, Hqty, Hmy, Hcare. cbn [forallb snd].
  rewrite !andb_true_iff. split.
  - intros (A & B & C & _ & _ & D & E & _ & _ & F & _).
    destruct mrpM, qtyM, myM, careM; try discriminate. repeat split; eauto.
  - intros (A & B & [m1 [= ->]] & [m2 [= ->]] & [m3 [= ->]] & [m4 [= ->]]).
    rewrite (Hprom eq_refl). repeat split; auto.
Qed.

(** * Where the price is taken from *)

Lemma test_of_exec re s r : exec re s = Ok r -> test re s = Ok (is_match r).
Proof. unfold test. intros ->. destruct r; reflexivity. Qed.

(** X12. The extracted mrp is absent exactly when the text has no occurrence
    of a string of the price pattern, and otherwise it is taken from the
    leftmost occurrence: no string of the pattern starts earlier in the text
    than the match used. *)
Theorem mrp_is_first_price (raw : jsstring) :
  exists ex found,
    parseFieldsFromRawText raw = Ok ex /\
    exec mrp_re raw = Ok found /\
    (mrp ex = None <-> found = None) /\
    (found = None <-> ~ occurs true (pattern mrp_re) raw) /\
    (forall mr, found = Some mr ->
       raw = before mr ++ matched mr ++ after mr /\
       lang true (pattern mrp_re) (matched mr) /\
       forall a w b, raw = a ++ w ++ b -> lang true (pattern mrp_re) w ->
                     (length (before mr) <= length a)%nat).
Proof.
  destruct (parse_unfold raw) as
    (pieces & mrpM & qtyM & myM & careM & manufLine & nameLine & name & label &
     looks & _ & Hmrp & _ & _ & _ & _ & _ & _ & _ & _ & Hparse).
  eexists _, mrpM. split; [exact Hparse|]. split; [exact Hmrp|]. cbn [mrp].
  split; [|split].
  - destruct mrpM as [mr|]; [|tauto].
    destruct (includes raw [rupee]); split; discriminate.
  - pose proof (test_of_exec _ _ _ Hmrp) as Ht.
    destruct (test_occurs mrp_re raw eq_refl eq_refl eq_refl) as [[H1 H2] [H3 H4]].
    destruct mrpM as [mr|]; cbn [is_match] in Ht.
    + split; [discriminate|]. intros Hn. apply H1 in Ht. contradiction.
    + split; [intros _; apply H3; exact Ht | reflexivity].
  - intros mr ->. destruct (mrp_match raw mr Hmrp) as (Hraw & Hl & _).
    split; [exact Hraw|]. split; [exact Hl|].
    intros a w b Hs Hw.
    destruct (lang_run true (pattern mrp_re) eq_refl w Hw (rev a) b []) as [cs Hr].
    eapply (exec_leftmost mrp_re eq_refl raw mr Hmrp a (w ++ b)); [exact Hs | exact Hr].
Qed.

(** * The prominence rule *)

Lemma lower_letter a c :
  in_range 97 122 a = true -> to_lower c = a ->
  atom_match true (Lit a) c = true.
Proof.
  unfold atom_match, citem_match, canonicalize, to_upper, to_lower, in_range.
  intros Ha Hc. rewrite Ha. apply andb_prop in Ha as [Ha1 Ha2].
  apply N.leb_le in Ha1, Ha2. apply N.eqb_eq.
  destruct (65 <=? c) eqn:E3, (c <=? 90) eqn:E4; simpl in Hc;
    destruct (97 <=? c) eqn:E1, (c <=? 122) eqn:E2; simpl;
    repeat match goal with
           | E : (_ <=? _) = true |- _ => apply N.leb_le in E
           | E : (_ <=? _) = false |- _ => apply N.leb_gt in E
           end; lia.
Qed.

(** A string that lower-cases to a lower-case word matches it without
    regard to case. *)
Lemma lang_lits_mentions w : forall v,
  Forall (fun c => in_range 97 122 c = true) w ->
  List.map to_lower v = w -> lang true (lits w) v.
Proof.
  induction w as [|a w IH]; intros v Hw Hv.
  - destruct v; [reflexivity | discriminate].
  - destruct v as [|c v]; [discriminate|]. injection Hv as Hc Hv.
    inversion Hw as [|? ? Ha Hw']; subst.
    pose proof (lower_letter _ c Ha eq_refl) as Hm.
    destruct (List.map to_lower v) as [|b w'] eqn:E.
    + destruct v; [|discriminate]. exists c. auto.
    + exists [c], v. split; [reflexivity|]. split; [exists c; auto|].
      apply IH; [exact Hw' | exact E].
Qed.

Lemma occurs_prominent s :
  occurs true (pattern prominent_re) s <->
  In rupee s \/ mentions "mrp" s \/ mentions "price" s \/ mentions "rs" s.
Proof.
  cbn [pattern prominent_re alts]. split.
  - intros (a & w & b & -> & [H|[H|[H|H]]]).
    + right. left. exists a, w, b. split; [reflexivity|].
      apply (lang_lits_lower (str "mrp")); [repeat constructor | exact H].
    + right. right. left. exists a, w, b. split; [reflexivity|].
      apply (lang_lits_lower (str "price")); [repeat constructor | exact H].
    + left. destruct H as (ch & -> & Hch).
      apply lit_match in Hch; [|reflexivity..]. subst ch.
      apply in_or_app. right. left. reflexivity.
    + right. right. right. destruct H as (t1 & t2 & -> & H1 & _).
      exists a, t1, (t2 ++ b). split; [rewrite <- app_assoc; reflexivity|].
      apply (lang_lits_lower (str "rs")); [repeat constructor | exact H1].
  - intros [H|[(a & v & b & -> & Hv)|[(a & v & b & -> & Hv)|(a & v & b & -> & Hv)]]].
    + apply in_split in H as (a & b & ->). exists a, [rupee], b.
      split; [reflexivity|]. right. right. left. exists rupee. auto.
    + exists a, v, b. split; [reflexivity|]. left.
      apply lang_lits_mentions; [repeat constructor | exact Hv].
    + exists a, v, b. split; [reflexivity|]. right. left.
      apply lang_lits_mentions; [repeat constructor | exact Hv].
    + exists a, v, b. split; [reflexivity|]. right. right. right.
      exists v, []. split; [rewrite app_nil_r; reflexivity|].
      split; [apply lang_lits_mentions; [repeat constructor | exact Hv]|].
      exists []. repeat split; auto; simpl; lia.
Qed.

(** X13. The rule mrp_prominent_in_text is violated exactly when raw_text is
    missing or contains neither the rupee sign nor, in any mix of upper and
    lower case, one of the words "mrp", "price" or "rs". *)
Theorem prominence_rule (ex : ExtractedFields) :
  exists rules summary,
    validateLocally ex = Ok (rules, summary) /\
    (In "mrp_prominent_in_text"%string (violations summary) <->
     ~ exists s, raw_text ex = Some s /\
                 (In rupee s \/ mentions "mrp" s \/ mentions "price" s \/
                  mentions "rs" s)).
Proof.
  destruct (validate_unfold ex) as (numeric & format & prominent & Hv & _ & _ & Hp).
  eexists _, _. split; [exact Hv|]. cbv zeta. cbn [violations].
  rewrite violation_outcome. unfold outcomes. cbn [List.map rule_key passed].
  assert (Hprom : prominent = true <->
                  exists s, raw_text ex = Some s /\ occurs true (pattern prominent_re) s).
  { destruct (raw_text ex) as [s|]; cbn [truthy and_then to_string] in Hp.
    - destruct (test_occurs prominent_re s eq_refl eq_refl eq_refl) as [[H1 H2] _].
      destruct s as [|c s]; cbn [truthy and_then to_string] in Hp.
      + injection Hp as <-. split; [discriminate|].
        intros (s & [= <-] & Ho). apply occurs_prominent in Ho.
        destruct Ho as [[]|[H|[H|H]]]; destruct H as (a & v & b & E & Hlow);
          (destruct a; [|discriminate]); destruct v; discriminate.
      + split.
        * intros ->. exists (c :: s). split; [reflexivity|]. apply H1. exact Hp.
        * intros (s' & [= <-] & Ho). apply H2 in Ho. congruence.
    - injection Hp as <-. split; [discriminate|]. intros (s & E & _). discriminate E. }
  split.
  - intros H Hex. failing H. injection H as H.
    assert (prominent = true).
    { apply Hprom. destruct Hex as (s & Hs & Ho). exists s. split; [exact Hs|].
      apply occurs_prominent. exact Ho. }
    congruence.
  - intros Hn. destruct prominent.
    + exfalso. apply Hn. destruct (proj1 Hprom eq_refl) as (s & Hs & Ho).
      exists s. split; [exact Hs|]. apply occurs_prominent. exact Ho.
    + simpl. tauto.
Qed.


Section HashFacts.

Local Open Scope Z_scope.

Lemma popcount_zero n : forall x,
  0 <= x < 2 ^ Z.of_nat n -> popcount n x = O -> x = 0.
Proof.
  induction n as [|n IH]; intros x Hx Hp.
  - simpl in Hx. lia.
  - rewrite Nat2Z.inj_succ, Z.pow_succ_r in Hx by lia.
    pose proof (Z.div2_odd x) as Hdec. cbn [popcount] in Hp.
    destruct (Z.odd x); [discriminate|]. simpl in Hp, Hdec.
    rewrite (IH (Z.div2 x)) in Hdec; [lia | | exact Hp].
    rewrite Z.div2_div. split; [apply Z.div_pos; lia|].
    apply Z.div_lt_upper_bound; lia.
Qed.

Lemma bands_ok : forallb band_ok (seq 0 65) = true.
Proof. vm_compute. reflexivity. Qed.

Lemma band_facts dist :
  (dist <= 64)%nat ->
  verdict_of (similarity_of_distance dist) = verdict_of_distance dist /\
  (Num.toFixed2 (similarity_of_distance dist) <? 1)%float = Nat.ltb 0 dist.
Proof.
  intros Hd. pose proof bands_ok as H.
  rewrite forallb_forall in H. specialize (H dist).
  assert (Hin : In dist (seq 0 65)) by (apply in_seq; lia).
  apply H in Hin. unfold band_ok in Hin. cbv zeta in Hin.
  apply andb_prop in Hin as [H1 H2].
  split; [apply verdict_eqb_eq; exact H1 | apply Bool.eqb_prop; exact H2].
Qed.

Lemma gray_of_opaque n : forall data,
  (length data <= n)%nat -> gray_of (opaque data) = gray_of data.
Proof.
  induction n as [|n IH]; intros data Hlen.
  - destruct data; [reflexivity | simpl in Hlen; lia].
  - destruct data as [|r [|g [|b [|a data]]]]; try reflexivity.
    cbn [opaque gray_of hd_error tl]. f_equal. apply IH. simpl in Hlen. lia.
Qed.

End HashFacts.

(** X14. For two 8x8 images (256 bytes each) and enough loop rounds, the
    verdict of cvSimilarityClient depends only on the Hamming distance of the
    two fingerprints: likely_match up to 9 differing bits,
    likely_match_with_warnings from 10 to 19, mismatch from 20 on. *)
Theorem hash_verdict_by_distance (refData userData : list Z) (fuel : nat) :
  length refData = 256%nat -> length userData = 256%nat -> (65 <= fuel)%nat ->
  exists dist r,
    hammingDistanceHashBigInt fuel (computeAHashBig refData) (computeAHashBig userData)
      = Some dist /\
    cvSimilarityClient fuel refData userData = Some r /\
    verdict r = verdict_of_distance dist.
Proof.
  intros Href Huser Hfuel.
  pose proof (hash_64 refData Href) as H1.
  pose proof (hash_64 userData Huser) as H2.
  destruct (hamming_64 fuel _ _ H1 H2 Hfuel) as [Hd Hle].
  destruct (band_facts _ Hle) as [Hv _].
  eexists _, _. split; [exact Hd|].
  unfold cvSimilarityClient. rewrite similarity_of_hashes_64 by assumption.
  split; [reflexivity|]. exact Hv.
Qed.

(** X15. For two 8x8 images, cvSimilarityClient returns the single flag
    packaging_layout_diff, present exactly when the two fingerprints differ,
    which is exactly when the returned similarity is below 1; equal
    fingerprints give similarity 1 and likely_match. *)
Theorem layout_flag_when_fingerprints_differ (refData userData : list Z) (fuel : nat) :
  length refData = 256%nat -> length userData = 256%nat -> (65 <= fuel)%nat ->
  exists r,
    cvSimilarityClient fuel refData userData = Some r /\
    flags r = [("packaging_layout_diff"%string,
                negb (computeAHashBig refData =? computeAHashBig userData)%Z)] /\
    flags r = [("packaging_layout_diff"%string, (similarity r <? 1)%float)] /\
    (computeAHashBig refData = computeAHashBig userData ->
     similarity r = 1%float /\ verdict r = likely_match).
Proof.
  intros Href Huser Hfuel.
  pose proof (hash_64 refData Href) as H1.
  pose proof (hash_64 userData Huser) as H2.
  destruct (hamming_64 fuel _ _ H1 H2 Hfuel) as [Hd Hle].
  destruct (band_facts _ Hle) as [_ Hlt].
  eexists. unfold cvSimilarityClient.
  rewrite similarity_of_hashes_64 by assumption.
  split; [reflexivity|]. cbn [flags similarity verdict].
  assert (Hflag : Nat.ltb 0 (popcount 64 (Z.lxor (computeAHashBig refData)
                                              (computeAHashBig userData)))
                  = negb (computeAHashBig refData =? computeAHashBig userData)%Z).
  { destruct (Z.eqb_spec (computeAHashBig refData) (computeAHashBig userData)) as [E|E].
    - rewrite E, Z.lxor_nilpotent. reflexivity.
    - cbn [negb]. apply Nat.ltb_lt.
      destruct (popcount 64 _) eqn:Hp; [|lia].
      apply popcount_zero in Hp; [|apply (lxor_bound _ _ 64); lia].
      apply Z.lxor_eq in Hp. contradiction. }
  split; [rewrite Hflag; reflexivity|]. split; [rewrite Hlt; reflexivity|].
  intros E. rewrite E, Z.lxor_nilpotent. split; vm_compute; reflexivity.
Qed.

(** X16. The fingerprint computeAHashBig does not depend on the alpha channel:
    image data that differ only in every fourth byte have the same
    fingerprint. *)
Theorem hash_ignores_alpha (data : list Z) :
  computeAHashBig (opaque data) = computeAHashBig data /\
  forall data', opaque data' = opaque data ->
                computeAHashBig data' = computeAHashBig data.
Proof.
  assert (H : forall d, computeAHashBig (opaque d) = computeAHashBig d).
  { intros d. unfold computeAHashBig.
    rewrite (gray_of_opaque (length d) d (Nat.le_refl _)). reflexivity. }
  split; [apply H|]. intros data' E. rewrite <- (H data'), E. apply H.
Qed.

(** * Labels *)

Lemma ratios_ok :
  forallb (fun u => forallb (ratio_ok u) (seq 0 (S u))) (seq 1 100) = true.
Proof. vm_compute. reflexivity. Qed.

Lemma ratio_facts u i :
  (1 <= u <= 100)%nat -> (i <= u)%nat ->
  let q := (Num.of_nat i / Num.of_nat u)%float in
  (0 <=? q)%float = true /\ (q <=? 1)%float = true /\
  (q =? 1)%float = Nat.eqb i u /\ (q =? 0)%float = Nat.eqb i 0.
Proof.
  intros Hu Hi. pose proof ratios_ok as H.
  rewrite forallb_forall in H. specialize (H u ltac:(apply in_seq; lia)).
  rewrite forallb_forall in H. specialize (H i ltac:(apply in_seq; lia)).
  unfold ratio_ok in H. cbv zeta in *.
  apply andb_prop in H as [H H4]. apply andb_prop in H as [H H3].
  apply andb_prop in H as [H1 H2].
  repeat split; try assumption; apply Bool.eqb_prop; assumption.
Qed.

Section Labels.

Local Open Scope float_scope.

Lemma jaccard_symmetric (a b : gset (list N)) :
  jaccardSimilarity a b = jaccardSimilarity b a.
Proof.
  rewrite !jaccard_refines. unfold jaccard_index.
  assert (E1 : a ∩ b = b ∩ a) by set_solver.
  assert (E2 : a ∪ b = b ∪ a) by set_solver.
  rewrite E1, E2.
  destruct (decide (a = ∅ /\ b = ∅)), (decide (b = ∅ /\ a = ∅)); tauto || reflexivity.
Qed.

(** X17. jaccardSimilarity is symmetric, and for sets of at most 50 labels
    (the maxResults of the request) it lies between 0 and 1, is 1 exactly for
    two equal non-empty sets, and is 0 exactly for two disjoint sets. *)
Theorem jaccard_of_label_sets (a b : gset (list N)) :
  jaccardSimilarity a b = jaccardSimilarity b a /\
  ((size a <= 50)%nat -> (size b <= 50)%nat ->
   (0 <=? jaccardSimilarity a b) = true /\
   (jaccardSimilarity a b <=? 1) = true /\
   ((jaccardSimilarity a b =? 1) = true <-> a = b /\ a <> ∅) /\
   ((jaccardSimilarity a b =? 0) = true <-> a ∩ b = ∅)).
Proof.
  split; [apply jaccard_symmetric|]. intros Ha Hb.
  rewrite jaccard_refines. unfold jaccard_index.
  destruct (decide (a = ∅ /\ b = ∅)) as [[-> ->]|Hne].
  - split; [reflexivity|]. split; [reflexivity|]. split; split.
    + intros H. vm_compute in H. discriminate.
    + intros [_ H]. congruence.
    + intros _. set_solver.
    + reflexivity.
  - assert (Hi : (size (a ∩ b) <= size (a ∪ b))%nat) by (apply subseteq_size; set_solver).
    assert (Hu : (1 <= size (a ∪ b) <= 100)%nat).
    { split.
      - destruct (size (a ∪ b)) eqn:E; [|lia]. apply size_zero in E.
        exfalso. apply Hne. split; set_solver.
      - pose proof (size_union_alt a b) as H1.
        assert (size (b ∖ a) <= size b)%nat by (apply subseteq_size; set_solver).
        lia. }
    destruct (ratio_facts _ _ Hu Hi) as (H1 & H2 & H3 & H4).
    split; [exact H1|]. split; [exact H2|]. split.
    + rewrite H3, Nat.eqb_eq. split.
      * intros E.
        assert (Hsub : a ∩ b = a ∪ b).
        { apply set_eq. intros x. split; [set_solver|]. intros Hx.
          destruct (decide (x ∈ a ∩ b)) as [|Hn]; [assumption|]. exfalso.
          assert (Hlt : (size (a ∩ b) < size (a ∪ b))%nat).
          { apply subset_size. split; [set_solver|]. intros Hsup. apply Hn, Hsup, Hx. }
          lia. }
        split; [set_solver|]. intros ->. apply Hne. split; [reflexivity|]. set_solver.
      * intros [-> _]. f_equal. set_solver.
    + rewrite H4, Nat.eqb_eq. split.
      * apply size_zero.
      * intros ->. apply size_empty.
Qed.

End Labels.

(** * The logo flag *)

Lemma includes_occurs s w : includes s w = true <-> exists a b, s = a ++ w ++ b.
Proof.
  induction s as [|c s IH]; cbn [includes].
  - rewrite orb_false_r, starts_with_app. split.
    + intros [tl E]. exists [], tl. exact E.
    + intros (a & b & E). destruct a; [|discriminate]. exists b. exact E.
  - rewrite orb_true_iff, starts_with_app, IH. split.
    + intros [[tl E]|(a & b & E)].
      * exists [], tl. exact E.
      * exists (c :: a), b. rewrite E. reflexivity.
    + intros (a & b & E). destruct a as [|c' a].
      * left. exists b. exact E.
      * right. injection E as -> E. exists a, b. exact E.
Qed.

Lemma lang_lits_exact w : forall v, lang false (lits w) v <-> v = w.
Proof.
  induction w as [|a w IH]; intros v; [reflexivity|].
  assert (Hstep : lang false (Seq (Atom (Lit a)) (lits w)) v <-> v = a :: w).
  { cbn [lang]. split.
    - intros (s1 & s2 & -> & (ch & -> & Hch) & H2).
      apply lit_exact in Hch. apply IH in H2. subst. reflexivity.
    - intros ->. exists [a], w. split; [reflexivity|]. split; [|apply IH; reflexivity].
      exists a. split; [reflexivity|]. simpl. apply N.eqb_refl. }
  destruct w as [|b w]; [|exact Hstep].
  cbn [lits lang]. split.
  - intros (ch & -> & Hch). apply lit_exact in Hch. subst. reflexivity.
  - intros ->. exists a. split; [reflexivity|]. simpl. apply N.eqb_refl.
Qed.

Lemma test_logo l : test logo_re l = Ok (names_logo l).
Proof.
  destruct (test_occurs logo_re l eq_refl eq_refl eq_refl) as [[H1 H2] [H3 H4]].
  assert (Hiff : occurs false (pattern logo_re) l <-> names_logo l = true).
  { unfold names_logo. rewrite !orb_true_iff, !includes_occurs.
    cbn [pattern logo_re alts]. unfold word. split.
    - intros (a & w & b & -> & [H|[H|H]]); apply lang_lits_exact in H; subst w; eauto.
    - intros [[(a & b & ->)|(a & b & ->)]|(a & b & ->)];
        eexists a, _, b; (split; [reflexivity|]); cbn [lang].
      + left. apply lang_lits_exact. reflexivity.
      + right. left. apply lang_lits_exact. reflexivity.
      + right. right. apply lang_lits_exact. reflexivity. }
  destruct (names_logo l).
  - apply H2, Hiff. reflexivity.
  - apply H4. intros Ho. apply Hiff in Ho. discriminate.
Qed.

Lemma hasLogoIndication_spelled labels :
  hasLogoIndication labels = Ok (existsb names_logo labels).
Proof.
  unfold hasLogoIndication. induction labels as [|l labels IH]; [reflexivity|].
  cbn [some existsb]. rewrite test_logo. cbn [bind].
  destruct (names_logo l); [reflexivity | exact IH].
Qed.

(** X18. googleCVSimilarity returns two flags: packaging_layout_diff, present
    exactly when the returned similarity is below 1, and logo_mismatch,
    present unless both images have a lower-cased label that contains "logo",
    "brand" or "trademark". *)
Theorem logo_mismatch_flag (lower : jsstring -> jsstring)
    (refResp userResp : AnnotateImageResponse) :
  exists r,
    similarity_of_responses lower (Some refResp) (Some userResp) = Ok r /\
    flags r =
      [ ("packaging_layout_diff"%string, (similarity r <? 1)%float);
        ("logo_mismatch"%string,
         negb (logos_agree (labels_of lower refResp) (labels_of lower userResp))) ].
Proof.
  unfold similarity_of_responses, logos_agree.
  rewrite !hasLogoIndication_spelled. cbn [bind].
  destruct (existsb names_logo (labels_of lower refResp)) eqn:E.
  - rewrite ?hasLogoIndication_spelled. cbn [bind]. eexists. split; [reflexivity|].
    cbn [flags similarity negb orb andb]. reflexivity.
  - cbn [bind]. eexists. split; [reflexivity|]. reflexivity.
Qed.


Section Colours.

Local Open Scope float_scope.

Lemma sub_self x : finite x = true -> x - x = 0.
Proof.
  unfold finite. intros H. apply Prim2SF_inj. rewrite sub_spec.
  destruct (Prim2SF x) as [s|s| |s mx ex]; try discriminate.
  - destruct s; reflexivity.
  - unfold SF64sub, SFsub. cbv zeta. rewrite Z.sub_diag. reflexivity.
Qed.

Lemma or_zero_finite o : finite_channel o = true -> finite (Num.or_zero o) = true.
Proof.
  destruct o as [x|]; [|reflexivity]. cbn [finite_channel Num.or_zero].
  intros H. destruct (is_zero x || is_nan x); [reflexivity | exact H].
Qed.

Lemma colorDistance_self rgb :
  finite_channel (red rgb) = true -> finite_channel (green rgb) = true ->
  finite_channel (blue rgb) = true ->
  colorDistance rgb rgb = 0.
Proof.
  intros Hr Hg Hb. unfold colorDistance. cbv zeta.
  rewrite !sub_self by (apply or_zero_finite; assumption).
  vm_compute. reflexivity.
Qed.

Lemma round_not_negative mz ez lz :
  not_negative (binary_round_aux prec emax false mz ez lz).
Proof.
  unfold binary_round_aux.
  destruct (shr_fexp prec emax mz ez lz) as [mrs' e'].
  destruct (shr_fexp prec emax _ e' loc_Exact) as [mrs'' e''].
  destruct (shr_m mrs''); cbn; auto. destruct (_ <=? _)%Z; cbn; auto.
Qed.

Lemma sqrt_not_negative x : not_negative (Prim2SF (sqrt x)).
Proof.
  rewrite sqrt_spec. unfold SF64sqrt, SFsqrt.
  destruct (Prim2SF x) as [s|[|]| |[|] mx ex]; cbn; auto.
  destruct (SFsqrt_core_binary prec emax (Z.pos mx) ex) as [[mz ez] lz].
  apply round_not_negative.
Qed.

(** Nothing that is not negative is below a zero. *)
Lemma not_below_zero d z :
  not_negative (Prim2SF d) -> zero_like z -> (d <? z) = false.
Proof.
  intros Hd [s Hz]. rewrite ltb_spec, Hz. unfold SFltb, SFcompare.
  destruct (Prim2SF d) as [sd|sd| |sd md ed]; cbn in Hd; subst; reflexivity.
Qed.

(** Below something, it is a number, and then at least zero. *)
Lemma below_is_number d y :
  not_negative (Prim2SF d) -> (d <? y) = true -> (0 <=? d) = true.
Proof.
  intros Hd. rewrite ltb_spec, leb_spec.
  replace (Prim2SF 0) with (S754_zero false) by reflexivity.
  unfold SFltb, SFleb, SFcompare.
  destruct (Prim2SF d) as [sd|sd| |sd md ed]; cbn in Hd; subst;
    try reflexivity; try discriminate.
Qed.

(** At least zero and not above it: a zero. *)
Lemma not_above_zero best :
  (0 <=? best) = true -> (0 <? best) = false -> zero_like best.
Proof.
  rewrite ltb_spec, leb_spec.
  replace (Prim2SF 0) with (S754_zero false) by reflexivity.
  unfold SFltb, SFleb, SFcompare, zero_like.
  destruct (Prim2SF best) as [s|[|]| |[|] m e]; try discriminate; eauto.
Qed.

Lemma zero_is_zero_like : zero_like 0.
Proof. exists false. reflexivity. Qed.

Lemma distance_not_negative ca cb : not_negative (Prim2SF (colorDistance ca cb)).
Proof. unfold colorDistance. cbv zeta. apply sqrt_not_negative. Qed.

Lemma nearest_stays_zero ca bRGB : forall best,
  zero_like best -> zero_like (nearest ca bRGB best).
Proof.
  unfold nearest. induction bRGB as [|cb bRGB IH]; intros best Hz; [exact Hz|].
  cbn [fold_left]. cbv zeta.
  rewrite (not_below_zero _ best (distance_not_negative ca cb) Hz). apply IH, Hz.
Qed.

Lemma nearest_at_least_zero ca bRGB : forall best,
  (0 <=? best) = true -> (0 <=? nearest ca bRGB best) = true.
Proof.
  unfold nearest. induction bRGB as [|cb bRGB IH]; intros best Hb; [exact Hb|].
  cbn [fold_left]. cbv zeta.
  destruct (colorDistance ca cb <? best) eqn:E; [|apply IH, Hb].
  apply IH. eapply below_is_number; [apply distance_not_negative | exact E].
Qed.

Lemma nearest_self ca bRGB :
  In ca bRGB ->
  finite_channel (red ca) = true -> finite_channel (green ca) = true ->
  finite_channel (blue ca) = true ->
  zero_like (nearest ca bRGB infinity).
Proof.
  intros Hin Hr Hg Hb. apply in_split in Hin as (l1 & l2 & ->).
  unfold nearest. rewrite fold_left_app. cbn [fold_left]. cbv zeta.
  fold (nearest ca l1 infinity).
  rewrite (colorDistance_self ca Hr Hg Hb).
  pose proof (nearest_at_least_zero ca l1 infinity eq_refl) as Hge.
  fold (nearest ca l2
          (if 0 <? nearest ca l1 infinity then 0 else nearest ca l1 infinity)).
  apply nearest_stays_zero.
  destruct (0 <? nearest ca l1 infinity) eqn:E;
    [apply zero_is_zero_like | apply not_above_zero; assumption].
Qed.

Lemma similarity_at_zero best : zero_like best -> 1 - Num.min best 442 / 442 = 1.
Proof.
  intros [s Hs]. rewrite <- (SF2Prim_Prim2SF best), Hs.
  destruct s; vm_compute; reflexivity.
Qed.

End Colours.

Section Palette.

Local Open Scope float_scope.

(** [paletteSimilarity] when neither palette is empty. *)
Lemma palette_unfold a b :
  a <> [] -> b <> [] ->
  paletteSimilarity a b =
  let aRGB := List.map (fun c => default black (color c)) a in
  let bRGB := List.map (fun c => default black (color c)) b in
  let '(total, count) :=
    fold_left (fun '(total, count) ca =>
                 (total + (1 - Num.min (nearest ca bRGB infinity) 442 / 442), S count))
              aRGB (0, O) in
  if Nat.eqb count 0 then 0 else total / Num.of_nat count.
Proof.
  intros Ha Hb. unfold paletteSimilarity.
  destruct a; [congruence|]. destruct b; [congruence|]. reflexivity.
Qed.

Lemma all_similar (bRGB aRGB : list Color) : forall acc,
  (forall ca, In ca aRGB -> zero_like (nearest ca bRGB infinity)) ->
  fold_left (fun '(total, count) ca =>
               (total + (1 - Num.min (nearest ca bRGB infinity) 442 / 442), S count))
            aRGB acc =
  fold_left (fun '(total, count) (_ : Color) => (total + 1, S count)) aRGB acc.
Proof.
  induction aRGB as [|ca aRGB IH]; intros [total count] H; [reflexivity|].
  cbn [fold_left]. rewrite similarity_at_zero by (apply H; left; reflexivity).
  apply IH. intros ca' Hca'. apply H. right. exact Hca'.
Qed.

Lemma finite_rgb c :
  finite_color c = true ->
  finite_channel (red (default black (color c))) = true /\
  finite_channel (green (default black (color c))) = true /\
  finite_channel (blue (default black (color c))) = true.
Proof.
  unfold finite_color. destruct (color c) as [rgb|]; cbn [default id].
  - intros H. apply andb_prop in H as [H H3]. apply andb_prop in H as [H1 H2]. auto.
  - intros _. repeat split; reflexivity.
Qed.

(** A palette of at most five finite colours is at distance zero from
    itself. *)
Lemma palette_self a :
  a <> [] -> (length a <= 5)%nat -> forallb finite_color a = true ->
  paletteSimilarity a a = 1.
Proof.
  intros Hne Hlen Hfin. rewrite palette_unfold by assumption. cbv zeta.
  rewrite all_similar.
  - destruct a as [|c1 [|c2 [|c3 [|c4 [|c5 [|c6 a]]]]]]; try congruence;
      try (simpl in Hlen; lia); vm_compute; reflexivity.
  - intros ca Hca. apply in_map_iff in Hca as (c & <- & Hc).
    rewrite forallb_forall in Hfin. specialize (Hfin c Hc).
    destruct (finite_rgb c Hfin) as (Hr & Hg & Hb).
    apply nearest_self; [|assumption..].
    apply in_map_iff. exists c. auto.
Qed.

Lemma self_ratio n : (1 <= n <= 50)%nat -> Num.of_nat n / Num.of_nat n = 1.
Proof.
  intros Hn. do 51 (destruct n as [|n]; [try lia; vm_compute; reflexivity|]). lia.
Qed.

Lemma jaccard_self (a : gset (list N)) :
  (size a <= 50)%nat ->
  jaccardSimilarity a a = if decide (a = ∅) then 0 else 1.
Proof.
  intros Ha. rewrite jaccard_refines. unfold jaccard_index.
  destruct (decide (a = ∅)) as [->|Hne].
  - reflexivity.
  - destruct (decide (a = ∅ /\ a = ∅)) as [[? _]|_]; [contradiction|].
    assert (E1 : a ∩ a = a) by set_solver. assert (E2 : a ∪ a = a) by set_solver.
    rewrite E1, E2. apply self_ratio. split; [|exact Ha].
    destruct (size a) eqn:E; [|lia]. apply size_zero in E. contradiction.
Qed.

End Palette.

Lemma size_list_to_set_le (l : list (list N)) :
  (size (list_to_set l : gset (list N)) <= length l)%nat.
Proof.
  induction l as [|x l IH]; [rewrite list_to_set_nil, size_empty; simpl; lia|].
  cbn [list_to_set length].
  pose proof (size_union_alt ({[x]} : gset (list N)) (list_to_set l)) as H.
  assert (size ((list_to_set l : gset (list N)) ∖ {[x]}) <= size (list_to_set l : gset (list N)))%nat
    by (apply subseteq_size; set_solver).
  rewrite size_singleton in H. lia.
Qed.

Lemma list_to_set_empty (l : list (list N)) :
  (list_to_set l : gset (list N)) = ∅ <-> l = [].
Proof.
  split; [|intros ->; reflexivity].
  destruct l as [|x l]; [reflexivity|]. cbn [list_to_set]. set_solver.
Qed.

(** X19. A Vision response with at most 50 labels and finite colour channels
    compared with itself gives similarity 1 and likely_match only when it has
    both labels and colours; with labels only it gives 0.7 and
    likely_match_with_warnings, with colours only 0.3, with neither 0, both
    mismatch. *)
Theorem compared_with_itself (lower : jsstring -> jsstring)
    (resp : AnnotateImageResponse) :
  let labels := labels_of lower resp in
  let colors := firstn 5 (default [] (dominantColors resp)) in
  (length labels <= 50)%nat -> forallb finite_color colors = true ->
  exists r,
    similarity_of_responses lower (Some resp) (Some resp) = Ok r /\
    similarity r = self_similarity labels colors /\
    verdict r = self_verdict labels colors.
Proof.
  intros labels colors.
  assert (Hl : labels_of lower resp = labels) by reflexivity.
  assert (Hco : firstn 5 (default [] (dominantColors resp)) = colors) by reflexivity.
  clearbody labels colors. intros Hlen Hfin.
  destruct (similarity_of_responses_some lower resp resp) as [flags H].
  eexists. split; [exact H|]. cbv zeta. cbn [similarity verdict].
  rewrite Hl, Hco.
  rewrite jaccard_self
    by (eapply Nat.le_trans; [apply size_list_to_set_le | exact Hlen]).
  assert (Hc : paletteSimilarity colors colors =
               match colors with [] => 0%float | _ :: _ => 1%float end).
  { destruct colors as [|c cs] eqn:E; [reflexivity|].
    apply palette_self; [discriminate | | exact Hfin].
    rewrite <- Hco, length_firstn. lia. }
  rewrite Hc.
  destruct (decide ((list_to_set labels : gset (list N)) = ∅)) as [He|He].
  - apply list_to_set_empty in He. rewrite He.
    destruct colors; split; vm_compute; reflexivity.
  - destruct labels as [|l ls]; [exfalso; apply He; reflexivity|].
    destruct colors; split; vm_compute; reflexivity.
Qed.

(** * The model name in the earlier chat client *)

Lemma trim_start_idem s : trim_start (trim_start s) = trim_start s.
Proof.
  induction s as [|c s IH]; [reflexivity|]. simpl.
  destruct (is_space c) eqn:E; [exact IH|]. simpl. rewrite E. reflexivity.
Qed.

Lemma trim_start_head s c tl : trim_start s = c :: tl -> is_space c = false.
Proof.
  induction s as [|d s IH]; [discriminate|]. simpl.
  destruct (is_space d) eqn:E; [exact IH|]. intros [= -> _]. exact E.
Qed.

Lemma trim_idem s : trim (trim s) = trim s.
Proof.
  unfold trim. set (t := trim_start s). set (u := trim_start (rev t)).
  assert (Hu : trim_start u = u) by apply trim_start_idem.
  destruct u as [|c u'] eqn:Eu; [reflexivity|].
  assert (Hfix : trim_start (rev (c :: u')) = rev (c :: u')).
  { destruct (trim_start_suffix (rev t)) as (ws & Hrev & _). fold u in Hrev.
    rewrite Eu in Hrev.
    assert (Ht : t = rev (c :: u') ++ rev ws).
    { rewrite <- rev_app_distr, <- Hrev, rev_involutive. reflexivity. }
    destruct (rev (c :: u')) as [|d v] eqn:Ev.
    { apply (f_equal (@length _)) in Ev. rewrite length_rev in Ev. discriminate. }
    simpl. replace (is_space d) with false; [reflexivity|]. symmetry.
    eapply (trim_start_head (trim_start s)). rewrite trim_start_idem.
    fold t. rewrite Ht. reflexivity. }
  rewrite Hfix, rev_involutive, Hu. reflexivity.
Qed.

Lemma trim_nonempty_fixed s : nonempty (trim s) = true -> trim s <> [].
Proof. destruct (trim s); [discriminate | discriminate]. Qed.

(** A name with a version suffix is accepted by the pattern for it. *)
Lemma versioned_test m : versioned m -> test GeminiBeta.versioned_re m = Ok true.
Proof.
  intros (p & d & -> & Hd).
  assert (Hrun : exists y,
    Run false (pattern GeminiBeta.versioned_re) (start_state (rev p) (str "-00" ++ [d])) y).
  { cbn [pattern GeminiBeta.versioned_re seqs].
    destruct (lang_run false (word "-00") eq_refl (str "-00")
                ltac:(apply lang_lits_exact; reflexivity) (rev p) [d] []) as [cs H1].
    eexists. eapply run_seq; [exact H1|].
    eapply run_seq.
    - apply (run_atom false (Class [IDigit]) _ d []); [reflexivity|].
      rewrite digit_match. exact Hd.
    - apply run_end. reflexivity. }
  destruct Hrun as [y Hrun].
  unfold test. destruct (exec GeminiBeta.versioned_re _) as [[mr|]|] eqn:He; cbn [bind].
  - reflexivity.
  - exfalso. eapply (exec_none GeminiBeta.versioned_re eq_refl _ He p); [reflexivity | exact Hrun].
  - destruct (exec_total GeminiBeta.versioned_re (p ++ str "-00" ++ [d])) as [r Hr].
    congruence.
Qed.

Lemma default_not_versioned : ~ versioned GeminiBeta.DEFAULT_GEMINI_MODEL.
Proof.
  intros (p & d & E & Hd). apply (f_equal (@rev _)) in E.
  rewrite !rev_app_distr in E. cbn [rev app] in E.
  vm_compute in E. injection E as <-. discriminate Hd.
Qed.

(** X7. In the earlier revision of the chat client, normalizeModelName always
    returns a non-empty name without white space at either end that neither
    starts with "projects/" nor ends in "-00" and a digit; it is idempotent,
    and GEMINI_MODEL is that name (its fallback to the default is never
    taken). *)
Theorem beta_model_name (input : option jsstring) :
  exists m,
    GeminiBeta.normalizeModelName input = Ok m /\
    m <> [] /\ trim m = m /\
    starts_with (str "projects/") m = false /\
    ~ versioned m /\
    GeminiBeta.normalizeModelName (Some m) = Ok m /\
    GeminiBeta.GEMINI_MODEL input = Ok m.
Proof.
  assert (Hdef : GeminiBeta.DEFAULT_GEMINI_MODEL <> [] /\
                 trim GeminiBeta.DEFAULT_GEMINI_MODEL = GeminiBeta.DEFAULT_GEMINI_MODEL /\
                 starts_with (str "projects/") GeminiBeta.DEFAULT_GEMINI_MODEL = false /\
                 ~ versioned GeminiBeta.DEFAULT_GEMINI_MODEL /\
                 GeminiBeta.normalizeModelName (Some GeminiBeta.DEFAULT_GEMINI_MODEL)
                   = Ok GeminiBeta.DEFAULT_GEMINI_MODEL).
  { split; [discriminate|]. split; [reflexivity|]. split; [reflexivity|].
    split; [apply default_not_versioned | vm_compute; reflexivity]. }
  assert (Hgm : forall m, m <> [] -> GeminiBeta.normalizeModelName input = Ok m ->
                          GeminiBeta.GEMINI_MODEL input = Ok m).
  { intros m Hm H. unfold GeminiBeta.GEMINI_MODEL. rewrite H. cbn [bind].
    destruct m; [congruence | reflexivity]. }
  unfold GeminiBeta.normalizeModelName at 1.
  set (m := trim (to_string (or_else input (Some [])))).
  assert (Hm : GeminiBeta.normalizeModelName input =
               GeminiBeta.normalizeModelName (Some m)).
  { unfold GeminiBeta.normalizeModelName.
    assert (E : to_string (or_else (Some m) (Some [])) = m) by (destruct m; reflexivity).
    rewrite E. fold m.
    assert (Ht : trim m = m) by (unfold m; apply trim_idem).
    rewrite Ht. reflexivity. }
  destruct (nonempty m) eqn:Hne; cbn [negb].
  - unfold GeminiBeta.projects_re, word. rewrite test_prefix. cbn [bind].
    destruct (starts_with (str "projects/") m) eqn:Hp.
    + exists GeminiBeta.DEFAULT_GEMINI_MODEL. split; [reflexivity|].
      destruct Hdef as (A & B & C & D & E). repeat (split; [assumption|]).
      apply Hgm; [exact A|]. unfold GeminiBeta.normalizeModelName. fold m.
      rewrite Hne. cbn [negb]. unfold GeminiBeta.projects_re, word.
      rewrite test_prefix, Hp. reflexivity.
    + destruct (test_total GeminiBeta.versioned_re m) as [b Hb]. rewrite Hb. cbn [bind].
      assert (Hsame : GeminiBeta.normalizeModelName input =
                      Ok (if b then GeminiBeta.DEFAULT_GEMINI_MODEL else m)).
      { unfold GeminiBeta.normalizeModelName. fold m. rewrite Hne. cbn [negb].
        unfold GeminiBeta.projects_re, word. rewrite test_prefix, Hp. cbn [bind].
        rewrite Hb. cbn [bind]. destruct b; reflexivity. }
      destruct b.
      * exists GeminiBeta.DEFAULT_GEMINI_MODEL. split; [reflexivity|].
        destruct Hdef as (A & B & C & D & E). repeat (split; [assumption|]).
        apply Hgm; [exact A | exact Hsame].
      * exists m. split; [reflexivity|].
        assert (Hm0 : m <> []) by (destruct m; [discriminate | discriminate]).
        split; [exact Hm0|]. split; [apply trim_idem|]. split; [exact Hp|]. split.
        -- intros Hv. apply versioned_test in Hv. congruence.
        -- split; [rewrite <- Hm; exact Hsame | apply Hgm; [exact Hm0 | exact Hsame]].
  - exists GeminiBeta.DEFAULT_GEMINI_MODEL. split; [reflexivity|].
    destruct Hdef as (A & B & C & D & E). repeat (split; [assumption|]).
    apply Hgm; [exact A|]. unfold GeminiBeta.normalizeModelName. fold m.
    rewrite Hne. reflexivity.
Qed.

(** * Order of the two images *)

(** X20. googleCVSimilarity is not symmetric in its two images: there are two
    responses for which it returns 0.8 and likely_match_with_warnings in one
    order, and 1 and likely_match in the other, because paletteSimilarity
    averages over the colours of its first argument only. *)
Theorem label_strategy_is_not_symmetric (lower : jsstring -> jsstring) :
  exists refResp userResp r r',
    similarity_of_responses lower (Some refResp) (Some userResp) = Ok r /\
    similarity_of_responses lower (Some userResp) (Some refResp) = Ok r' /\
    similarity r = 0.8%float /\ verdict r = likely_match_with_warnings /\
    similarity r' = 1%float /\ verdict r' = likely_match.
Proof.
  exists (labelled [black; white; white]), (labelled [black]).
  destruct (similarity_of_responses_some lower (labelled [black; white; white])
              (labelled [black])) as [flags H].
  destruct (similarity_of_responses_some lower (labelled [black])
              (labelled [black; white; white])) as [flags' H'].
  eexists _, _. split; [exact H|]. split; [exact H'|]. cbv zeta.
  cbn [similarity verdict].
  assert (E : labels_of lower (labelled [black; white; white]) =
              labels_of lower (labelled [black])) by reflexivity.
  rewrite E.
  rewrite (jaccard_self (list_to_set (labels_of lower (labelled [black])))).
  - destruct (decide _) as [He|_].
    + apply list_to_set_empty in He. discriminate He.
    + repeat split; vm_compute; reflexivity.
  - eapply Nat.le_trans; [apply size_list_to_set_le|]. simpl. lia.
Qed.

(** * The text of a direct OCR call *)

Lemma trim_start_nil s : trim_start s = [] -> blank s.
Proof.
  induction s as [|c s IH]; [constructor|]. simpl.
  destruct (is_space c) eqn:E; [|discriminate]. intros H.
  constructor; [exact E | apply IH; exact H].
Qed.

Lemma trim_nil s : trim s = [] <-> blank s.
Proof.
  split; [|apply trim_blank]. unfold trim. intros H.
  apply (f_equal (@rev _)) in H. rewrite rev_involutive in H. cbn [rev] in H.
  apply trim_start_nil in H.
  assert (Hb : blank (trim_start s)).
  { unfold blank in *. apply Forall_rev in H. rewrite rev_involutive in H. exact H. }
  destruct (trim_start_suffix s) as (ws & Hs & Hws).
  rewrite Hs. apply Forall_app. split; assumption.
Qed.

Lemma blank_join texts :
  blank (join [10] texts) <-> Forall blank texts.
Proof.
  induction texts as [|t texts IH]; [split; constructor|].
  destruct texts as [|t' texts].
  - cbn [join]. split; [intros H; constructor; [exact H | constructor]|].
    intros H. inversion H; assumption.
  - change (join [10] (t :: t' :: texts)) with (t ++ [10] ++ join [10] (t' :: texts)).
    unfold blank at 1. rewrite !Forall_app. split.
    + intros (H1 & _ & H3). constructor; [exact H1 | apply IH; exact H3].
    + intros H. inversion H as [|? ? H1 H2]; subst. split; [exact H1|].
      split; [repeat constructor | apply IH; exact H2].
Qed.

Lemma ocr_text_returned (data : Api.OCRData) raw :
  Api.text_of_ocr_data data = Return raw -> raw <> [] /\ trim raw = raw.
Proof.
  unfold Api.text_of_ocr_data. destruct (Api.IsErroredOnProcessing data); [discriminate|].
  cbv zeta.
  destruct (trim (join [10] _)) as [|c t] eqn:E; cbn [nonempty negb]; [discriminate|].
  intros [= <-]. split; [discriminate|]. rewrite <- E. apply trim_idem.
Qed.

(** X21. From the body of an OK response, scanOCRDirectOCRSpace throws
    "OCR.Space error: ..." when the body is flagged as errored (with "Errored
    on processing" for a missing or empty message), throws "OCR returned empty
    text..." when every parsed text is white space only, and otherwise returns
    the trimmed join of the parsed texts; the text it returns is never empty
    and has no white space at either end. *)
Theorem ocr_text_is_never_blank (data : Api.OCRData) :
  let texts := List.map Api.parsed_text (default [] (Api.ParsedResults data)) in
  (Api.IsErroredOnProcessing data = true ->
   exists msg,
     Api.text_of_ocr_data data = ThrowError (str "OCR.Space error: " ++ msg) /\
     (Api.ErrorMessage data = Api.NoMessage \/
      Api.ErrorMessage data = Api.OneMessage [] ->
      msg = str "Errored on processing")) /\
  (Api.IsErroredOnProcessing data = false -> Forall blank texts ->
   Api.text_of_ocr_data data =
   ThrowError (str "OCR returned empty text. Try a clearer image or different language setting.")) /\
  (Api.IsErroredOnProcessing data = false -> ~ Forall blank texts ->
   exists raw,
     Api.text_of_ocr_data data = Return raw /\
     raw = trim (join [10] texts) /\ raw <> [] /\ trim raw = raw) /\
  (forall raw, Api.text_of_ocr_data data = Return raw -> raw <> [] /\ trim raw = raw).
Proof.
  intros texts.
  split; [|split; [|split; [|apply ocr_text_returned]]].
  - intros He. unfold Api.text_of_ocr_data. rewrite He. cbv zeta.
    eexists. split; [reflexivity|]. intros [->| ->]; reflexivity.
  - intros He Hb. unfold Api.text_of_ocr_data. rewrite He. cbv zeta. fold texts.
    apply blank_join, trim_nil in Hb. rewrite Hb. reflexivity.
  - intros He Hb.
    pose proof (ocr_text_returned data) as Hret.
    unfold Api.text_of_ocr_data in *. rewrite He in *. cbv zeta in *.
    fold texts in Hret |- *.
    destruct (trim (join [10] texts)) as [|c t] eqn:E.
    + exfalso. apply Hb, blank_join, trim_nil. exact E.
    + cbn [nonempty negb] in *. eexists. split; [reflexivity|].
      split; [reflexivity|]. apply Hret. reflexivity.
Qed.

(** * The payload of a data URL *)

Lemma split_on_first sep a b :
  ~ In sep a ->
  split_on sep (a ++ sep :: b) = a :: split_on sep b.
Proof.
  induction a as [|c a IH]; intros Ha; cbn [app split_on].
  - rewrite N.eqb_refl. reflexivity.
  - destruct (N.eqb_spec sep c) as [->|Hne]; [exfalso; apply Ha; left; reflexivity|].
    rewrite IH; [reflexivity|]. intros H. apply Ha. right. exact H.
Qed.

(** X22. toBase64 returns the part of the data URL between its first and its
    second comma (the whole rest when there is no second one), and the empty
    string for a data URL without a comma. *)
Theorem data_url_payload (header payload rest : jsstring) :
  ~ In (chr ",") header -> ~ In (chr ",") payload ->
  Vision.base64_of_data_url (header ++ chr "," :: payload) = payload /\
  Vision.base64_of_data_url (header ++ chr "," :: payload ++ chr "," :: rest) = payload /\
  Vision.base64_of_data_url header = [].
Proof.
  intros Hh Hp. unfold Vision.base64_of_data_url. split; [|split].
  - rewrite split_on_first, split_on_plain by assumption.
    cbn [index Z.ltb Z.compare Z.to_nat Pos.to_nat Pos.iter_op Nat.add nth_error].
    destruct payload; reflexivity.
  - rewrite !split_on_first by assumption.
    cbn [index Z.ltb Z.compare Z.to_nat Pos.to_nat Pos.iter_op Nat.add nth_error].
    destruct payload; reflexivity.
  - rewrite split_on_plain by assumption. reflexivity.
Qed.

(** * The chat client *)

Lemma alt_words_test w1 w2 s :
  test (RegExp (Alt (lits w1) (lits w2)) false) s = Ok (includes s w1 || includes s w2).
Proof.
  destruct (test_total (RegExp (Alt (lits w1) (lits w2)) false) s) as [b Hb].
  rewrite Hb. f_equal.
  assert (Hwf : forall w, well_formed (lits w) = true /\ quant_groupless (lits w) = true /\
                          assertion_free (lits w) = true).
  { induction w as [|c [|d w] IH]; [cbn; auto | cbn; auto |].
    destruct IH as (H1 & H2 & H3).
    change (lits (c :: d :: w)) with (Seq (Atom (Lit c)) (lits (d :: w))).
    cbn [well_formed quant_groupless assertion_free]. rewrite H1, H2, H3. auto. }
  destruct (Hwf w1) as (A1 & B1 & C1), (Hwf w2) as (A2 & B2 & C2).
  destruct (test_occurs (RegExp (Alt (lits w1) (lits w2)) false) s) as [Ht Hf];
    cbn [pattern well_formed quant_groupless assertion_free];
    rewrite ?A1, ?A2, ?B1, ?B2, ?C1, ?C2; try reflexivity.
  cbn [pattern ignoreCase] in Ht, Hf.
  assert (Hocc : occurs false (Alt (lits w1) (lits w2)) s <->
                 includes s w1 || includes s w2 = true).
  { rewrite orb_true_iff, !includes_occurs. unfold occurs. cbn [lang]. split.
    - intros (a & w & b' & -> & [H|H]); apply lang_lits_exact in H; subst w; eauto.
    - intros [(a & b' & ->)|(a & b' & ->)]; exists a; eexists; exists b';
        (split; [reflexivity|]); [left | right]; apply lang_lits_exact; reflexivity. }
  destruct b.
  - symmetry. apply Hocc, Ht. exact Hb.
  - destruct (includes s w1 || includes s w2) eqn:E; [|reflexivity].
    exfalso. apply (proj1 Hf Hb). apply Hocc. reflexivity.
Qed.

Section ClientFacts.

Import Web GeminiClient.

Variable platform : Platform.
Variable KEY : jsstring.

Lemma truthy_match (o : option jsstring) :
  (if truthy o then o else None) = match o with
                                   | Some (_ :: _) => o
                                   | _ => None
                                   end.
Proof. destruct o as [[|c s]|]; reflexivity. Qed.

Lemma or_else_text (txt : jsstring) : to_string (or_else (Some txt) (Some [])) = txt.
Proof. destruct txt; reflexivity. Qed.

(** [attempt] as a function of the replies. *)
Lemma attempt_unfold contents sys model st :
  attempt platform KEY contents sys model st =
  match encodeURIComponent model with
  | None => (Throws (URIError platform), st)
  | Some enc =>
      let first := sent st ++ [first_post KEY contents sys enc] in
      let reqs := if complains (network platform first)
                  then first ++ [second_post KEY contents enc] else first in
      match verdict_of_reply (network platform reqs) with
      | inl text =>
          (Returns text,
           {| sent := reqs;
              discoveredModels := Some (default [] (discoveredModels st) ++ [model]);
              tried := tried st ++ [tried_entry model];
              lastError := None |})
      | inr e =>
          (Returns (JBool false),
           {| sent := reqs;
              discoveredModels := discoveredModels st;
              tried := tried st ++ [tried_entry model];
              lastError := Some e |})
      end
  end.
Proof.
  unfold attempt. destruct (encodeURIComponent model) as [enc|]; [|reflexivity].
  unfold bindM at 1. unfold ret at 1. unfold bindM at 1. unfold write at 1.
  cbv zeta. rewrite truthy_match.
  fold (endpoint KEY enc). fold (first_post KEY contents sys enc).
  fold (second_post KEY contents enc). fold (tried_entry model).
  unfold try_catch, bindM, fetch, write, read, remember, json_of, ret, throw.
  cbn [sent tried lastError discoveredModels set_sent set_tried set_lastError
       set_discoveredModels].
  unfold system_instruction_re, word. 
  set (first := sent st ++ [first_post KEY contents sys enc]).
  destruct (network platform first) as [res|reason] eqn:E1; cbn [complains].
  - destruct (ok res) eqn:Hok; cbn [negb andb].
    + cbn [verdict_of_reply]. rewrite E1. cbn [verdict_of_reply]. rewrite Hok.
      destruct (json_body res) as [reason|data]; [reflexivity|].
      destruct (truthy_value (Some (first_text data))); reflexivity.
    + destruct (status res =? 400) eqn:H400.
      * rewrite or_else_text, alt_words_test. unfold lift.
        destruct (includes _ _ || includes _ _).
        -- cbn [sent tried lastError discoveredModels set_sent set_tried set_lastError
                set_discoveredModels andb].
           destruct (network platform (first ++ _)) as [res2|reason2]; [|reflexivity].
           cbn [verdict_of_reply].
           destruct (ok res2); cbn [negb]; [|reflexivity].
           destruct (json_body res2) as [reason|data]; [reflexivity|].
           destruct (truthy_value (Some (first_text data))); reflexivity.
        -- cbn [andb]. rewrite E1. cbn [verdict_of_reply]. rewrite Hok.
           rewrite !orb_true_r. reflexivity.
      * cbn [andb]. rewrite E1. cbn [verdict_of_reply]. rewrite Hok.
        destruct ((status res =? 404) || (status res =? 403) || false); reflexivity.
  - rewrite E1. reflexivity.
Qed.

Lemma map_strip names :
  map_result (replace models_prefix_re []) names =
  Ok (List.map (fun n => if starts_with (str "models/") n then skipn 7 n else n) names).
Proof.
  induction names as [|n names IH]; [reflexivity|].
  cbn [map_result List.map]. rewrite IH. unfold models_prefix_re, word.
  rewrite replace_prefix. reflexivity.
Qed.

(** [listModelsV1] as a function of the reply. *)
Lemma listModelsV1_unfold st :
  listModelsV1 platform KEY st =
  match discoveredModels st with
  | Some models => (Returns (Some models), st)
  | None =>
      let reqs := sent st ++ [GET (models_url KEY)] in
      let names := match listed_names (network platform reqs) with
                   | Some names => uniq names
                   | None => []
                   end in
      (Returns (Some names),
       {| sent := reqs; discoveredModels := Some names; tried := tried st;
          lastError := lastError st |})
  end.
Proof.
  unfold listModelsV1. unfold bindM at 1. unfold read at 1.
  destruct (discoveredModels st) as [models|] eqn:Hd; [reflexivity|].
  cbv zeta. fold (models_url KEY).
  unfold try_catch, bindM, fetch, write, read, json_of, ret, throw.
  cbn [sent tried lastError discoveredModels set_sent set_tried set_lastError
       set_discoveredModels].
  destruct (network platform (sent st ++ [GET (models_url KEY)])) as [res|reason];
    cbn [listed_names]; [|reflexivity].
  destruct (ok res); cbn [negb]; [|reflexivity].
  destruct (json_body res) as [reason|data]; [reflexivity|].
  destruct (prop "models" (Some data)) as [[| | | |models|]|] eqn:Hm;
    cbn [truthy_value]; try reflexivity;
    try (match goal with |- context [if ?b then _ else _] => destruct b end; reflexivity).
  rewrite map_strip. unfold lift. reflexivity.
Qed.

Lemma verdict_inl reply (text : json) :
  verdict_of_reply reply = inl text ->
  exists res data,
    reply = Resolved res /\ ok res = true /\ json_body res = inr data /\
    text = first_text data /\ truthy_value (Some text) = true.
Proof.
  destruct reply as [res|reason]; cbn [verdict_of_reply]; [|discriminate].
  destruct (ok res) eqn:Hok; [|discriminate].
  destruct (json_body res) as [reason|data] eqn:Hj; [discriminate|].
  destruct (truthy_value (Some (first_text data))) eqn:Ht; [|discriminate].
  intros [= <-]. exists res, data. auto.
Qed.

Lemma string_and_truthy_some out t :
  string_and_truthy out = Some t -> out = JString t /\ t <> [].
Proof.
  destruct out as [| | |[|c s]| |]; cbn [string_and_truthy]; try discriminate.
  intros [= <-]. split; [reflexivity | discriminate].
Qed.

Lemma filter_listing_app a b :
  List.filter is_listing a = [] -> List.filter is_listing b = [] ->
  List.filter is_listing (a ++ b) = [].
Proof. intros Ha Hb. rewrite List.filter_app, Ha, Hb. reflexivity. Qed.

(** The loop over the models to try. *)
Lemma try_models_spec contents sys : forall ms st out st',
  for_of ms (fun m => bindM (attempt platform KEY contents sys m)
                            (fun out => ret (string_and_truthy out))) st = (out, st') ->
  exists done rest posts,
    ms = done ++ rest /\
    tried st' = tried st ++ List.map tried_entry done /\
    sent st' = sent st ++ posts /\ List.filter is_listing posts = [] /\
    (length posts <= 2 * length done)%nat /\
    (discoveredModels st <> None -> discoveredModels st' <> None) /\
    (exists more, default [] (discoveredModels st') =
                  default [] (discoveredModels st) ++ more /\
                  forall x, In x more -> In x done) /\
    (done = [] -> st' = st) /\
    match out with
    | Returns (Some t) =>
        t <> [] /\
        exists model known enc res data,
          In model done /\ discoveredModels st' = Some (known ++ [model]) /\
          encodeURIComponent model = Some enc /\
          (exists before body, sent st' = before ++ [POST (endpoint KEY enc) body]) /\
          network platform (sent st') = Resolved res /\ ok res = true /\
          json_body res = inr data /\ first_text data = JString t
    | Returns None =>
        rest = [] /\
        (done <> [] -> lastError st' = None ->
         exists res data,
           network platform (sent st') = Resolved res /\ ok res = true /\
           json_body res = inr data /\
           truthy_value (Some (first_text data)) = true /\
           string_and_truthy (first_text data) = None)
    | Throws e =>
        e = URIError platform /\
        exists m rest', rest = m :: rest' /\ encodeURIComponent m = None
    | Fails _ => False
    end.
Proof.
  set (body := fun m => bindM (attempt platform KEY contents sys m)
                              (fun out => ret (string_and_truthy out))).
  induction ms as [|m ms IH]; intros st out st'.
  - cbn [for_of]. unfold ret. intros [= <- <-].
    exists [], [], []. rewrite !app_nil_r. cbn [List.map length List.filter].
    repeat split; auto; try (intros H; contradiction).
    exists []. rewrite app_nil_r. split; [reflexivity | intros x []].
  - cbn [for_of]. unfold bindM at 1. unfold body at 1. unfold bindM at 1.
    rewrite attempt_unfold.
    destruct (encodeURIComponent m) as [enc|] eqn:Henc.
    2:{ intros [= <- <-]. exists [], (m :: ms), []. rewrite !app_nil_r.
        cbn [List.map length List.filter app]. repeat split; auto.
        - exists []. rewrite app_nil_r. split; [reflexivity | intros x []].
        - exists m, ms. auto. }
    cbv zeta.
    set (first := sent st ++ [first_post KEY contents sys enc]).
    set (reqs := if complains (network platform first)
                 then first ++ [second_post KEY contents enc] else first).
    assert (Hreqs : exists posts before body',
               reqs = sent st ++ posts /\ List.filter is_listing posts = [] /\
               (length posts <= 2)%nat /\
               reqs = before ++ [POST (endpoint KEY enc) body']).
    { unfold reqs, first. destruct (complains _).
      - exists [first_post KEY contents sys enc; second_post KEY contents enc],
               (sent st ++ [first_post KEY contents sys enc]),
               {| contents := contents; systemInstruction := None |}.
        split; [rewrite <- app_assoc; reflexivity|].
        split; [reflexivity|]. split; [simpl; lia | reflexivity].
      - eexists [first_post KEY contents sys enc], (sent st), _.
        split; [reflexivity|]. split; [reflexivity|].
        split; [simpl; lia | reflexivity]. }
    destruct Hreqs as (posts & before & body' & Hposts & Hfilter & Hlen & Hlast).
    destruct (verdict_of_reply (network platform reqs)) as [text|e] eqn:Hv.
    + apply verdict_inl in Hv as (res & data & Hres & Hok & Hj & -> & Htruthy).
      unfold ret at 1.
      destruct (string_and_truthy (first_text data)) as [t|] eqn:Hs.
      * intros [= <- <-]. exists [m], ms, posts.
        cbn [sent tried discoveredModels lastError List.map length app].
        split; [reflexivity|]. split; [reflexivity|]. split; [exact Hposts|].
        split; [exact Hfilter|]. split; [lia|]. split; [discriminate|].
        split; [exists [m]; split; [reflexivity | auto]|].
        split; [discriminate|].
        apply string_and_truthy_some in Hs as [Hs Hne]. split; [exact Hne|].
        exists m, (default [] (discoveredModels st)), enc, res, data.
        split; [left; reflexivity|]. split; [reflexivity|]. split; [exact Henc|].
        split; [eauto|]. auto.
      * intros Hloop. apply IH in Hloop
          as (done & rest & posts' & -> & Htried & Hsent & Hf' & Hl' & Hdm & (more & Hmore & Hmem) & Hsame & Hout).
        cbn [sent tried discoveredModels lastError] in *.
        exists (m :: done), rest, (posts ++ posts').
        split; [reflexivity|].
        split; [rewrite Htried; cbn [List.map]; rewrite <- app_assoc; reflexivity|].
        split; [rewrite Hsent, Hposts, <- app_assoc; reflexivity|].
        split; [apply filter_listing_app; assumption|].
        split; [rewrite length_app; cbn [length]; lia|].
        split; [intros _; apply Hdm; discriminate|].
        split; [exists ([m] ++ more); split;
                 [rewrite Hmore, app_assoc; reflexivity
                 |intros x [<-|Hx]; [left; reflexivity | right; apply Hmem, Hx]]|].
        split; [discriminate|].
        destruct out as [[t|]|e|e]; [| |exact Hout|exact Hout].
        -- destruct Hout as (Hne & model & known & enc' & res' & data' & Hin & Hrest).
           split; [exact Hne|]. exists model, known, enc', res', data'.
           split; [right; exact Hin | exact Hrest].
        -- destruct Hout as (-> & Hlast'). split; [reflexivity|].
           intros _ Hnone. destruct done as [|d done].
           ++ rewrite (Hsame eq_refl). cbn [sent]. exists res, data. auto.
           ++ apply Hlast'; [discriminate | exact Hnone].
    + unfold ret at 1. cbn [string_and_truthy].
      intros Hloop. apply IH in Hloop
        as (done & rest & posts' & -> & Htried & Hsent & Hf' & Hl' & Hdm & (more & Hmore & Hmem) & Hsame & Hout).
      cbn [sent tried discoveredModels lastError] in *.
      exists (m :: done), rest, (posts ++ posts').
      split; [reflexivity|].
      split; [rewrite Htried; cbn [List.map]; rewrite <- app_assoc; reflexivity|].
      split; [rewrite Hsent, Hposts, <- app_assoc; reflexivity|].
      split; [apply filter_listing_app; assumption|].
      split; [rewrite length_app; cbn [length]; lia|].
      split; [exact Hdm|].
      split; [exists more; split; [exact Hmore | intros x Hx; right; apply Hmem, Hx]|].
      split; [discriminate|].
      destruct out as [[t|]|e'|e']; [| |exact Hout|exact Hout].
      * destruct Hout as (Hne & model & known & enc' & res' & data' & Hin & Hrest).
        split; [exact Hne|]. exists model, known, enc', res', data'.
        split; [right; exact Hin | exact Hrest].
      * destruct Hout as (-> & Hlast'). split; [reflexivity|].
        intros _ Hnone. destruct done as [|d done].
        -- rewrite (Hsame eq_refl) in Hnone. cbn [lastError] in Hnone. discriminate.
        -- apply Hlast'; [discriminate | exact Hnone].
Qed.

Lemma for_of_filter (keep : jsstring -> bool) (body : jsstring -> M (option jsstring)) : forall ms st,
  for_of ms (fun m => if keep m then body m else ret None) st =
  for_of (List.filter keep ms) body st.
Proof.
  induction ms as [|m ms IH]; intros st; [reflexivity|].
  cbn [for_of List.filter]. destruct (keep m).
  - cbn [for_of]. unfold bindM. destruct (body m st) as [[[t|]|e|e] st1]; auto.
  - unfold bindM at 1. unfold ret at 1. apply IH.
Qed.

Lemma filter_not_default models :
  List.NoDup (STABLE_DEFAULT_MODEL :: models) ->
  List.filter (fun m => negb (existsb (JS.eqb m) [STABLE_DEFAULT_MODEL]))
              (STABLE_DEFAULT_MODEL :: models) = models.
Proof.
  intros Hnd. inversion Hnd as [|? ? Hnotin _]; subst.
  cbn [List.filter existsb]. unfold JS.eqb at 1.
  rewrite bool_decide_eq_true_2 by reflexivity. cbn [orb negb].
  induction models as [|m models IH]; [reflexivity|].
  cbn [List.filter existsb]. unfold JS.eqb at 1.
  rewrite bool_decide_eq_false_2.
  - cbn [orb negb]. f_equal. apply IH.
    + inversion Hnd as [|? ? _ Hnd']; subst. inversion Hnd'; subst.
      constructor; [|assumption]. intros H. apply Hnotin. right. exact H.
    + intros H. apply Hnotin. right. exact H.
  - intros ->. apply Hnotin. left. reflexivity.
Qed.

Lemma default_model_normalized :
  normalizeModelName (Some STABLE_DEFAULT_MODEL) = Ok STABLE_DEFAULT_MODEL.
Proof. vm_compute. reflexivity. Qed.

Lemma default_model_encoded :
  encodeURIComponent STABLE_DEFAULT_MODEL = Some STABLE_DEFAULT_MODEL.
Proof. vm_compute. reflexivity. Qed.

(** The course of [generateWithGemini]. *)
Lemma generate_cases messages sys st :
  nonempty KEY = true ->
  exists out1 st1,
    for_of [STABLE_DEFAULT_MODEL]
      (fun m => bindM (attempt platform KEY (contents_of messages) sys m)
                      (fun out => ret (string_and_truthy out)))
      (set_lastError None (set_tried [] st)) = (out1, st1) /\
    match out1 with
    | Returns (Some t) =>
        generateWithGemini platform KEY messages sys st = (Returns t, st1)
    | Returns None =>
        exists listed st2 models out2 st3,
          listModelsV1 platform KEY st1 = (Returns (Some listed), st2) /\
          candidates_of listed = Ok (STABLE_DEFAULT_MODEL :: models) /\
          for_of models
            (fun m => bindM (attempt platform KEY (contents_of messages) sys m)
                            (fun out => ret (string_and_truthy out))) st2 = (out2, st3) /\
          generateWithGemini platform KEY messages sys st =
          match out2 with
          | Returns (Some t) => (Returns t, st3)
          | Returns None =>
              (Throws (new_Error
                         (match lastError st3 with
                          | Some e => message_or_string e
                          | None => str "Gemini request failed"
                          end ++
                          match tried st3 with
                          | [] => []
                          | _ :: _ => str "; tried: " ++ join (str ", ") (tried st3)
                          end)), st3)
          | Throws e => (Throws e, st3)
          | Fails e => (Fails e, st3)
          end
    | Throws e => generateWithGemini platform KEY messages sys st = (Throws e, st1)
    | Fails e => generateWithGemini platform KEY messages sys st = (Fails e, st1)
    end.
Proof.
  intros Hkey.
  set (body := fun m => bindM (attempt platform KEY (contents_of messages) sys m)
                              (fun out => ret (string_and_truthy out))).
  destruct (for_of [STABLE_DEFAULT_MODEL] body (set_lastError None (set_tried [] st)))
    as [out1 st1] eqn:H1.
  exists out1, st1. split; [reflexivity|].
  assert (Hgen : forall k,
    match out1 with
    | Returns (Some t) => k = (Returns t, st1)
    | Returns None =>
        k = bindM (getCandidateModels platform KEY) (fun discovered =>
              bindM (for_of discovered
                      (fun m => if negb (existsb (JS.eqb m) [STABLE_DEFAULT_MODEL])
                                then body m else ret None))
                    (fun returned =>
                       match returned with
                       | Some text => ret text
                       | None =>
                           bindM (read tried) (fun tried =>
                           bindM (read lastError) (fun lastError =>
                             match lastError with
                             | Some e =>
                                 throw (new_Error
                                   (message_or_string e ++
                                    match tried with
                                    | [] => []
                                    | _ :: _ => str "; tried: " ++ join (str ", ") tried
                                    end))
                             | None =>
                                 throw (new_Error
                                   (str "Gemini request failed" ++
                                    match tried with
                                    | [] => []
                                    | _ :: _ => str "; tried: " ++ join (str ", ") tried
                                    end))
                             end))
                       end)) st1
    | Throws e => k = (Throws e, st1)
    | Fails e => k = (Fails e, st1)
    end -> generateWithGemini platform KEY messages sys st = k).
  { intros k Hk. unfold generateWithGemini. rewrite Hkey. cbn [negb].
    fold (contents_of messages). cbv zeta. fold body.
    unfold bindM at 1. unfold write at 1. cbv beta iota.
    unfold bindM at 1. unfold write at 1. cbv beta iota.
    rewrite default_model_normalized. unfold bindM at 1. unfold lift at 1.
    cbv beta iota. change (uniq [STABLE_DEFAULT_MODEL]) with [STABLE_DEFAULT_MODEL].
    unfold bindM at 1. rewrite H1. cbv beta iota.
    destruct out1 as [[t|]|e|e]; subst k; reflexivity. }
  destruct out1 as [[t|]|e|e]; try (apply Hgen; reflexivity).
  unfold getCandidateModels in Hgen. unfold bindM at 1 2 in Hgen.
  rewrite listModelsV1_unfold in Hgen.
  destruct (candidates_spec
              (match discoveredModels st1 with
               | Some models => models
               | None => match listed_names (network platform (sent st1 ++ [GET (models_url KEY)])) with
                         | Some names => uniq names
                         | None => []
                         end
               end)) as (models & Hc & Hnd & _).
  destruct (discoveredModels st1) as [known|] eqn:Hd; cbv beta iota zeta in Hgen.
  - rewrite Hc in Hgen. unfold lift at 1 in Hgen. cbv beta iota in Hgen.
    destruct (for_of models body st1) as [out2 st3] eqn:H2.
    exists known, st1, models, out2, st3.
    rewrite listModelsV1_unfold, Hd.
    split; [reflexivity|]. split; [exact Hc|]. split; [exact H2|].
    apply Hgen. unfold bindM at 1.
    rewrite (for_of_filter (fun m => negb (existsb (JS.eqb m) [STABLE_DEFAULT_MODEL]))
               body).
    rewrite (filter_not_default models Hnd), H2.
    destruct out2 as [[t|]|e|e]; try reflexivity.
    unfold bindM, read, throw. destruct (lastError st3), (tried st3); reflexivity.
  - rewrite Hc in Hgen. unfold lift at 1 in Hgen. cbv beta iota in Hgen.
    match type of Hgen with context [bindM _ _ ?s] => set (st2 := s) in * end.
    destruct (for_of models body st2) as [out2 st3] eqn:H2.
    eexists _, st2, models, out2, st3.
    rewrite listModelsV1_unfold, Hd.
    split; [reflexivity|]. split; [exact Hc|]. split; [exact H2|].
    apply Hgen. unfold bindM at 1.
    rewrite (for_of_filter (fun m => negb (existsb (JS.eqb m) [STABLE_DEFAULT_MODEL]))
               body).
    rewrite (filter_not_default models Hnd), H2.
    destruct out2 as [[t|]|e|e]; try reflexivity.
    unfold bindM, read, throw. destruct (lastError st3), (tried st3); reflexivity.
Qed.

(** X23. The closure attempt of generateWithGemini throws only the URIError of
    a model name that cannot be encoded, before any request. Otherwise it
    records the model in tried, sends one request, sends it once more without
    system instruction when the reply has status 400 and a text that contains
    "systemInstruction" or "system_instruction", and then acts on the last
    reply alone: a good reply with a truthy text makes it return the text,
    clear lastError and append the model to discoveredModels; every other
    reply (rejection, any failing status, unreadable JSON, no text) makes it
    return false with the error kept in lastError. *)
Theorem attempt_follows_last_reply (contents : list Content)
    (systemInstruction : option jsstring) (model : jsstring) (st : State) :
  match encodeURIComponent model with
  | None =>
      attempt platform KEY contents systemInstruction model st =
      (Throws (URIError platform), st)
  | Some encoded =>
      let first := first_post KEY contents systemInstruction encoded in
      exists out st',
        attempt platform KEY contents systemInstruction model st = (Returns out, st') /\
        tried st' = tried st ++ [tried_entry model] /\
        sent st' = sent st ++ first ::
                   (if complains (network platform (sent st ++ [first]))
                    then [second_post KEY contents encoded] else []) /\
        match verdict_of_reply (network platform (sent st')) with
        | inl text =>
            out = text /\ truthy_value (Some text) = true /\ lastError st' = None /\
            discoveredModels st' = Some (default [] (discoveredModels st) ++ [model])
        | inr e =>
            out = JBool false /\ lastError st' = Some e /\
            discoveredModels st' = discoveredModels st
        end
  end.
Proof.
  rewrite attempt_unfold. destruct (encodeURIComponent model) as [enc|]; [|reflexivity].
  cbv zeta.
  set (first := sent st ++ [first_post KEY contents systemInstruction enc]).
  set (reqs := if complains (network platform first)
               then first ++ [second_post KEY contents enc] else first).
  assert (Hreqs : reqs = sent st ++ first_post KEY contents systemInstruction enc ::
                         (if complains (network platform first)
                          then [second_post KEY contents enc] else [])).
  { unfold reqs, first. destruct (complains _); [|reflexivity].
    rewrite <- app_assoc. reflexivity. }
  destruct (verdict_of_reply (network platform reqs)) as [text|e] eqn:Hv.
  - eexists _, _. split; [reflexivity|]. cbn [sent tried lastError discoveredModels].
    split; [reflexivity|]. split; [exact Hreqs|]. rewrite Hv.
    apply verdict_inl in Hv as (res & data & _ & _ & _ & _ & Ht). auto.
  - eexists _, _. split; [reflexivity|]. cbn [sent tried lastError discoveredModels].
    split; [reflexivity|]. split; [exact Hreqs|]. rewrite Hv. auto.
Qed.

(** X24. generateWithGemini never returns an empty string: a returned text is
    the non-empty string at candidates[0].content.parts[0].text of the reply
    to the last request made, that reply was OK, and the model it was sent to
    is the last entry of discoveredModels. Without an API key it throws
    "Gemini API key missing" and changes nothing. *)
Theorem gemini_text_is_last_reply (messages : list ChatMessage)
    (systemInstruction : option jsstring) (st : State) :
  match generateWithGemini platform KEY messages systemInstruction st with
  | (Returns text, st') =>
      text <> [] /\
      exists model known encoded res data,
        discoveredModels st' = Some (known ++ [model]) /\
        encodeURIComponent model = Some encoded /\
        (exists before body, sent st' = before ++ [POST (endpoint KEY encoded) body]) /\
        network platform (sent st') = Resolved res /\ ok res = true /\
        json_body res = inr data /\ first_text data = JString text
  | (Throws e, st') =>
      nonempty KEY = false -> e = new_Error (str "Gemini API key missing") /\ st' = st
  | (Fails _, _) => False
  end.
Proof.
  destruct (nonempty KEY) eqn:Hkey.
  2:{ unfold generateWithGemini. rewrite Hkey. unfold throw. cbn [negb]. auto. }
  destruct (generate_cases messages systemInstruction st Hkey) as (out1 & st1 & H1 & Hgen).
  apply try_models_spec in H1
    as (done1 & rest1 & posts1 & _ & _ & _ & _ & _ & _ & _ & _ & Hout1).
  destruct out1 as [[t|]|e|e].
  - rewrite Hgen. destruct Hout1 as (Hne & model & known & enc & res & data & _ & Hrest).
    split; [exact Hne|]. exists model, known, enc, res, data. exact Hrest.
  - destruct Hgen as (listed & st2 & models & out2 & st3 & _ & _ & H2 & ->).
    apply try_models_spec in H2
      as (done2 & rest2 & posts2 & _ & _ & _ & _ & _ & _ & _ & _ & Hout2).
    destruct out2 as [[t|]|e|e]; [| |discriminate|exact Hout2].
    + destruct Hout2 as (Hne & model & known & enc & res & data & _ & Hrest).
      split; [exact Hne|]. exists model, known, enc, res, data. exact Hrest.
    + discriminate.
  - rewrite Hgen. discriminate.
  - destruct Hout1.
Qed.

Lemma listing_step st1 listed st2 :
  listModelsV1 platform KEY st1 = (Returns (Some listed), st2) ->
  discoveredModels st2 = Some listed /\
  tried st2 = tried st1 /\ lastError st2 = lastError st1 /\
  ((discoveredModels st1 = Some listed /\ st2 = st1) \/
   (discoveredModels st1 = None /\ sent st2 = sent st1 ++ [GET (models_url KEY)] /\
    listed = match listed_names (network platform (sent st1 ++ [GET (models_url KEY)])) with
             | Some names => uniq names
             | None => []
             end)).
Proof.
  rewrite listModelsV1_unfold. destruct (discoveredModels st1) as [known|] eqn:Hd.
  - intros [= <- <-]. split; [exact Hd|]. split; [reflexivity|]. split; [reflexivity|].
    left. auto.
  - cbv zeta. intros [= <- <-]. cbn [sent tried lastError discoveredModels].
    split; [reflexivity|]. split; [reflexivity|]. split; [reflexivity|]. right. auto.
Qed.

Lemma default_is_tried messages sys st0 out1 st1 :
  for_of [STABLE_DEFAULT_MODEL]
    (fun m => bindM (attempt platform KEY (contents_of messages) sys m)
                    (fun out => ret (string_and_truthy out))) st0 = (out1, st1) ->
  tried st1 = tried st0 ++ [tried_entry STABLE_DEFAULT_MODEL] /\
  (exists posts, sent st1 = sent st0 ++ first_post KEY (contents_of messages) sys
                                          STABLE_DEFAULT_MODEL :: posts /\
                 List.filter is_listing posts = []) /\
  exists returned, out1 = Returns returned.
Proof.
  cbn [for_of]. unfold bindM at 1 2. rewrite attempt_unfold, default_model_encoded.
  cbv zeta.
  set (first := sent st0 ++ [_]).
  assert (Hposts : exists posts,
             (if complains (network platform first)
              then first ++ [second_post KEY (contents_of messages) STABLE_DEFAULT_MODEL]
              else first) =
             sent st0 ++ first_post KEY (contents_of messages) sys STABLE_DEFAULT_MODEL :: posts /\
             List.filter is_listing posts = []).
  { unfold first. destruct (complains _).
    - eexists [_]. rewrite <- app_assoc. split; reflexivity.
    - exists []. split; reflexivity. }
  destruct (verdict_of_reply _) as [text|e]; unfold ret.
  - destruct (string_and_truthy text); intros [= <- <-];
      cbn [sent tried]; eauto.
  - cbn [string_and_truthy]. intros [= <- <-]. cbn [sent tried]. eauto.
Qed.

(** The requests of one call and the list of models. *)
Lemma call_requests messages sys st :
  let st' := snd (generateWithGemini platform KEY messages sys st) in
  exists new,
    sent st' = sent st ++ new /\
    (length (List.filter is_listing new) <= 1)%nat /\
    (discoveredModels st <> None ->
     List.filter is_listing new = [] /\ discoveredModels st' <> None) /\
    (List.filter is_listing new <> [] -> discoveredModels st' <> None) /\
    (nonempty KEY = true -> discoveredModels st' <> None).
Proof.
  cbv zeta. destruct (nonempty KEY) eqn:Hkey.
  2:{ unfold generateWithGemini. rewrite Hkey. unfold throw. cbn [negb snd].
      exists []. rewrite app_nil_r. cbn [List.filter length].
      repeat split; auto; try discriminate; try (intros H; contradiction). }
  destruct (generate_cases messages sys st Hkey) as (out1 & st1 & H1 & Hgen).
  pose proof (default_is_tried _ _ _ _ _ H1) as (_ & _ & returned & ->).
  apply try_models_spec in H1
    as (done1 & rest1 & posts1 & _ & _ & Hs1 & Hf1 & _ & Hdm1 & _ & _ & Hout1).
  cbn [sent discoveredModels set_lastError set_tried] in Hs1, Hdm1.
  destruct returned as [t|].
  - rewrite Hgen. cbn [snd]. exists posts1. rewrite Hf1.
    destruct Hout1 as (_ & model & known & enc & res & data & _ & Hd & _).
    rewrite Hd. cbn [length]. repeat split; auto; try discriminate; try lia; try (intros H; contradiction).
  - destruct Hgen as (listed & st2 & models & out2 & st3 & Hl & _ & H2 & Hgen).
    apply listing_step in Hl as (Hd2 & _ & _ & Hl).
    apply try_models_spec in H2
      as (done2 & rest2 & posts2 & _ & _ & Hs2 & Hf2 & _ & Hdm2 & _ & _ & _).
    assert (Hd3 : discoveredModels st3 <> None) by (apply Hdm2; rewrite Hd2; discriminate).
    assert (Hst : snd (generateWithGemini platform KEY messages sys st) = st3).
    { rewrite Hgen. destruct out2 as [[t|]|e|e]; reflexivity. }
    rewrite Hst. destruct Hl as [(Hd1 & ->)|(Hd1 & Hs12 & _)].
    + exists (posts1 ++ posts2).
      rewrite Hs2, Hs1, <- app_assoc, (filter_listing_app _ _ Hf1 Hf2).
      cbn [length]. repeat split; auto; try lia; try (intros H; contradiction).
    + exists (posts1 ++ [GET (models_url KEY)] ++ posts2).
      rewrite Hs2, Hs12, Hs1, <- !app_assoc.
      rewrite List.filter_app, Hf1, List.filter_app, Hf2. cbn [List.filter is_listing app length].
      split; [reflexivity|]. split; [lia|]. split; [|auto].
      intros Hd. exfalso. apply (Hdm1 Hd). exact Hd1.
Qed.

(** X25. listModelsV1 never throws. With discoveredModels set it returns that
    list without a request; otherwise it makes one GET request and sets
    discoveredModels to what it returns: the distinct names of the reply, or
    the empty list when the request or the reading of the reply fails. *)
Theorem listing_is_remembered (st : State) :
  exists names st',
    listModelsV1 platform KEY st = (Returns (Some names), st') /\
    discoveredModels st' = Some names /\
    match discoveredModels st with
    | Some known => names = known /\ st' = st
    | None =>
        sent st' = sent st ++ [GET (models_url KEY)] /\
        List.NoDup names /\
        match listed_names (network platform (sent st')) with
        | Some listed => forall m, In m names <-> In m listed
        | None => names = []
        end
    end.
Proof.
  rewrite listModelsV1_unfold. destruct (discoveredModels st) as [known|] eqn:Hd.
  - exists known, st. auto.
  - cbv zeta. eexists _, _. split; [reflexivity|].
    cbn [sent discoveredModels]. split; [reflexivity|]. split; [reflexivity|].
    destruct (listed_names _) as [listed|].
    + split; [apply uniq_nodup | apply uniq_in].
    + split; [constructor | reflexivity].
Qed.

(** X26. Over any sequence of calls of generateWithGemini the list of models
    is requested at most once, and not at all when discoveredModels is already
    set; once it has been requested, or after any call made with an API key,
    discoveredModels stays set, so a failed listing is never repeated. *)
Theorem models_listed_once (calls : list (list ChatMessage * option jsstring))
    (st : State) :
  exists new,
    sent (session platform KEY calls st) = sent st ++ new /\
    (length (List.filter is_listing new) <= 1)%nat /\
    (discoveredModels st <> None ->
     List.filter is_listing new = [] /\
     discoveredModels (session platform KEY calls st) <> None) /\
    (List.filter is_listing new <> [] ->
     discoveredModels (session platform KEY calls st) <> None) /\
    (nonempty KEY = true -> calls <> [] ->
     discoveredModels (session platform KEY calls st) <> None).
Proof.
  revert st. induction calls as [|[messages sys] calls IH]; intros st.
  - exists []. rewrite app_nil_r. cbn [session List.filter length].
    repeat split; auto; try (intros H; contradiction).
  - cbn [session].
    destruct (call_requests messages sys st) as (new1 & Hs1 & Hl1 & Hd1 & Hf1 & Hk1).
    cbv zeta in Hs1, Hd1, Hf1, Hk1.
    set (st1 := snd (generateWithGemini platform KEY messages sys st)) in *.
    destruct (IH st1) as (new2 & Hs2 & Hl2 & Hd2 & Hf2 & Hk2).
    exists (new1 ++ new2). rewrite Hs2, Hs1, <- app_assoc, List.filter_app, length_app.
    split; [reflexivity|].
    assert (Hcase : List.filter is_listing new1 = [] \/
                    (List.filter is_listing new1 <> [] /\
                     List.filter is_listing new2 = [] /\
                     discoveredModels (session platform KEY calls st1) <> None)).
    { destruct (List.filter is_listing new1) as [|r l] eqn:E; [left; reflexivity|].
      right. split; [discriminate|]. apply Hd2, Hf1. discriminate. }
    split; [|split; [|split]].
    + destruct Hcase as [->|(_ & -> & _)]; cbn [length]; lia.
    + intros Hd. destruct (Hd1 Hd) as [-> Hd']. destruct (Hd2 Hd') as [-> Hd''].
      auto.
    + destruct Hcase as [->|(_ & _ & H)]; [|intros _; exact H].
      cbn [app]. exact Hf2.
    + intros Hkey _. destruct (Hd2 (Hk1 Hkey)) as [_ H]. exact H.
Qed.

(** X27. With an API key, the first request of generateWithGemini always goes
    to the model "gemini-1.5-flash", with the system instruction only when it
    is non-empty; when the reply to it is OK and carries a non-empty text,
    that text is returned, no other request is made and the model is appended
    to discoveredModels. *)
Theorem gemini_default_first (messages : list ChatMessage)
    (systemInstruction : option jsstring) (st : State) :
  nonempty KEY = true ->
  let first := first_post KEY (contents_of messages) systemInstruction
                          STABLE_DEFAULT_MODEL in
  match generateWithGemini platform KEY messages systemInstruction st with
  | (out, st') =>
      exists more,
        sent st' = sent st ++ first :: more /\
        forall text,
          verdict_of_reply (network platform (sent st ++ [first])) = inl (JString text) ->
          out = Returns text /\ more = [] /\
          discoveredModels st' =
          Some (default [] (discoveredModels st) ++ [STABLE_DEFAULT_MODEL])
  end.
Proof.
  intros Hkey first.
  destruct (generate_cases messages systemInstruction st Hkey) as (out1 & st1 & H1 & Hgen).
  pose proof (default_is_tried _ _ _ _ _ H1) as (_ & (posts1 & Hs1 & _) & returned & ->).
  cbn [sent set_lastError set_tried] in Hs1. fold first in Hs1.
  assert (Hgood : forall text,
            verdict_of_reply (network platform (sent st ++ [first])) = inl (JString text) ->
            returned = Some text /\
            st1 = {| sent := sent st ++ [first];
                     discoveredModels :=
                       Some (default [] (discoveredModels st) ++ [STABLE_DEFAULT_MODEL]);
                     tried := [tried_entry STABLE_DEFAULT_MODEL];
                     lastError := None |}).
  { intros text Hv. revert H1. cbn [for_of]. unfold bindM at 1 2.
    rewrite attempt_unfold, default_model_encoded. cbv zeta.
    cbn [sent tried discoveredModels lastError set_lastError set_tried]. fold first.
    pose proof Hv as Hv'.
    apply verdict_inl in Hv' as (res & data & Hres & Hok & _ & _ & Htruthy).
    rewrite Hres. cbn [complains]. rewrite Hok. cbn [negb andb].
    rewrite Hv. unfold ret.
    destruct text as [|c text]; [discriminate Htruthy|].
    cbn [string_and_truthy app]. intros [= <- <-]. auto. }
  destruct returned as [t|].
  - destruct (generateWithGemini _ _ _ _ _) as [out st']. injection Hgen as -> ->.
    exists posts1. split; [exact Hs1|]. intros text Hv.
    destruct (Hgood text Hv) as [[= ->] ->]. cbn [sent] in Hs1.
    split; [reflexivity|]. split; [|reflexivity].
    change (sent st ++ [first]) with (sent st ++ first :: []) in Hs1.
    apply app_inv_head in Hs1. injection Hs1 as <-. reflexivity.
  - destruct Hgen as (listed & st2 & models & out2 & st3 & Hl & _ & H2 & Hgen).
    apply listing_step in Hl as (_ & _ & _ & Hl).
    apply try_models_spec in H2
      as (done2 & rest2 & posts2 & _ & _ & Hs2 & _).
    destruct (generateWithGemini _ _ _ _ _) as [out st'].
    assert (Hst : st' = st3) by (destruct out2 as [[t|]|e|e]; congruence).
    subst st'. 
    assert (Hsent : exists more, sent st3 = sent st ++ first :: more).
    { destruct Hl as [(_ & ->)|(_ & Hs12 & _)].
      - exists (posts1 ++ posts2). rewrite Hs2, Hs1, <- app_assoc. reflexivity.
      - exists (posts1 ++ [GET (models_url KEY)] ++ posts2).
        rewrite Hs2, Hs12, Hs1, <- !app_assoc. reflexivity. }
    destruct Hsent as [more Hsent]. exists more. split; [exact Hsent|].
    intros text Hv. destruct (Hgood text Hv) as [[=] _].
Qed.

(** X28. When generateWithGemini throws although it has an API key, either a
    candidate model name could not be encoded (URIError), or every candidate
    was tried exactly once, the default first and then the candidates computed
    from the list of models, and the error message is the message of the last
    error ("Gemini request failed" when there is none) followed by "; tried: "
    and the models tried, separated by ", ". When discoveredModels was set
    before the call, only models of that list are tried besides the default. *)
Theorem gemini_failure_report (messages : list ChatMessage)
    (systemInstruction : option jsstring) (st : State) :
  nonempty KEY = true ->
  match generateWithGemini platform KEY messages systemInstruction st with
  | (Throws e, st') =>
      exists listed models remembered,
        candidates_of listed = Ok (STABLE_DEFAULT_MODEL :: models) /\
        List.NoDup (STABLE_DEFAULT_MODEL :: models) /\
        discoveredModels st' = Some (listed ++ remembered) /\
        (forall known, discoveredModels st = Some known ->
                       forall m, In m models -> In m known) /\
        ((e = URIError platform /\
          exists m, In m models /\ encodeURIComponent m = None) \/
         (tried st' = List.map tried_entry (STABLE_DEFAULT_MODEL :: models) /\
          e = new_Error
                (match lastError st' with
                 | Some e' => message_or_string e'
                 | None => str "Gemini request failed"
                 end ++ str "; tried: " ++ join (str ", ") (tried st'))))
  | _ => True
  end.
Proof.
  intros Hkey.
  destruct (generate_cases messages systemInstruction st Hkey) as (out1 & st1 & H1 & Hgen).
  pose proof (default_is_tried _ _ _ _ _ H1) as (Ht1 & _ & returned & ->).
  cbn [tried set_lastError set_tried app] in Ht1.
  apply try_models_spec in H1
    as (done1 & rest1 & posts1 & Hms1 & _ & _ & _ & _ & Hdm1 & (more1 & Hmore1 & Hin1) & _).
  cbn [discoveredModels set_lastError set_tried] in Hdm1, Hmore1.
  destruct returned as [t|]; [rewrite Hgen; exact I|].
  destruct Hgen as (listed & st2 & models & out2 & st3 & Hl & Hc & H2 & Hgen).
  apply listing_step in Hl as (Hd2 & Ht2 & _ & Hl).
  apply try_models_spec in H2
    as (done2 & rest2 & posts2 & Hms2 & Ht3 & _ & _ & _ & Hdm2 & (more2 & Hmore2 & _) & _ & Hout2).
  rewrite Hd2 in Hmore2, Hdm2. cbn [default id] in Hmore2.
  assert (Hd3 : discoveredModels st3 = Some (listed ++ more2)).
  { destruct (discoveredModels st3) as [l|]; [cbn [default id] in Hmore2; congruence|].
    exfalso. apply Hdm2; [discriminate | reflexivity]. }
  assert (Hknown : forall known, discoveredModels st = Some known ->
                                 forall m, In m models -> In m known).
  { intros known Hk m Hm.
    destruct (candidates_spec listed) as (models' & Hc' & Hnd & Hin).
    rewrite Hc in Hc'. injection Hc' as <-.
    apply Hin in Hm as (Hne & Hm & _).
    rewrite Hk in Hmore1, Hdm1. cbn [default id] in Hmore1.
    destruct Hl as [(Hd1 & _)|(Hd1 & _)].
    - rewrite Hd1 in Hmore1. cbn [default id] in Hmore1. subst listed.
      apply in_app_or in Hm as [Hm|Hm]; [exact Hm|]. exfalso.
      apply Hin1 in Hm.
      assert (In m [STABLE_DEFAULT_MODEL])
        by (rewrite Hms1; apply in_or_app; left; exact Hm).
      destruct H as [H|[]]. congruence.
    - exfalso. apply Hdm1; [discriminate | exact Hd1]. }
  assert (Hnd : List.NoDup (STABLE_DEFAULT_MODEL :: models)).
  { destruct (candidates_spec listed) as (models' & Hc' & Hnd & _).
    rewrite Hc in Hc'. injection Hc' as <-. exact Hnd. }
  rewrite Hgen. destruct out2 as [[t|]|e|e]; try exact I.
  - exists listed, models, more2.
    split; [exact Hc|]. split; [exact Hnd|]. split; [exact Hd3|]. split; [exact Hknown|]. right.
    destruct Hout2 as [-> _]. rewrite app_nil_r in Hms2. subst done2.
    assert (Htried : tried st3 = List.map tried_entry (STABLE_DEFAULT_MODEL :: models)).
    { rewrite Ht3, Ht2, Ht1. reflexivity. }
    split; [exact Htried|].
    rewrite Htried. reflexivity.
  - exists listed, models, more2.
    split; [exact Hc|]. split; [exact Hnd|]. split; [exact Hd3|]. split; [exact Hknown|]. left.
    destruct Hout2 as (-> & m & rest' & -> & Hm). split; [reflexivity|].
    exists m. split; [|exact Hm]. rewrite Hms2. apply in_or_app. right. left. reflexivity.
Qed.

End ClientFacts.

(** * The direct scan *)

(** X29. From the body of the OCR response, the direct scan of
    handleOCRFileSelected ends either in the error toast with one of the
    messages of scanOCRDirectOCRSpace, or in a result with scan_id "direct-
    ocrspace" whose fields are those extracted from the returned text
    (raw_text is that text, non-empty and without white space at either end)
    and whose ten rules, in their fixed order, and summary are those of
    validateLocally: extraction and evaluation never add a failure of their
    own. *)
Theorem direct_scan_outcome (data : Api.OCRData) :
  match Api.text_of_ocr_data data with
  | ThrowError description => Scanner.direct_scan data = Scanner.Toast description
  | Return raw =>
      raw <> [] /\ trim raw = raw /\
      exists res,
        Scanner.direct_scan data = Scanner.Result res /\
        Scanner.scan_id res = str "direct-ocrspace" /\
        parseFieldsFromRawText raw = Ok (Scanner.extracted res) /\
        raw_text (Scanner.extracted res) = Some raw /\
        validateLocally (Scanner.extracted res) =
          Ok (Scanner.rules res, Scanner.summary res) /\
        List.map rule_key (Scanner.rules res) =
          [ "manufacturer_address_present"; "generic_name_present";
            "net_quantity_present"; "net_quantity_numeric";
            "net_quantity_unit_valid"; "month_year_present"; "mrp_present";
            "mrp_format_valid"; "mrp_prominent_in_text";
            "consumer_care_present" ]%string /\
        compliant (Scanner.summary res) = forallb passed (Scanner.rules res)
  end.
Proof.
  unfold Scanner.direct_scan.
  destruct (Api.text_of_ocr_data data) as [raw|description] eqn:Hocr; [|reflexivity].
  destruct (ocr_text_returned data raw Hocr) as [Hne Htrim].
  split; [exact Hne|]. split; [exact Htrim|].
  destruct (parse_unfold raw) as
    (pieces & mrpM & qtyM & myM & careM & manufLine & nameLine & name & label &
     looks & _ & _ & _ & _ & _ & _ & _ & _ & _ & _ & Hparse).
  rewrite Hparse. cbn [bind].
  match goal with |- context [validateLocally ?e] => set (ex := e) end.
  destruct (validate_unfold ex) as (numeric & format & prominent & Hv & _).
  rewrite Hv. cbv zeta. cbn [bind fst snd].
  eexists. split; [reflexivity|].
  cbn [Scanner.scan_id Scanner.extracted Scanner.rules Scanner.summary].
  split; [reflexivity|]. split; [reflexivity|]. split; [reflexivity|].
  split; [rewrite Hv; reflexivity|]. split; [reflexivity|].
  cbn [compliant]. apply compliant_all_passed.
Qed.

(** * Instances of the further properties *)

Lemma normalize_last_segment_witness :
  normalizeModelName (Some (str "publishers/google/models" ++ chr "/" :: str "gemini-1.5-pro")) =
  normalizeModelName (Some (str "gemini-1.5-pro")).
Proof.
  apply (normalize_last_segment (str "publishers/google/models") (str "gemini-1.5-pro")).
  - discriminate.
  - reflexivity.
  - intros H. repeat (destruct H as [H|H]; [discriminate H|]). exact H.
Defined.

Lemma normalize_latest_witness :
  normalizeModelName (Some (str "gemini-1.5-pro" ++ str "-latest")) =
  Ok (str "gemini-1.5-pro").
Proof.
  apply (normalize_latest (str "gemini-1.5-pro")).
  - intros H. repeat (destruct H as [H|H]; [discriminate H|]). exact H.
  - reflexivity.
  - reflexivity.
Defined.

Lemma hash_verdict_by_distance_witness :
  exists dist r,
    hammingDistanceHashBigInt 65 (computeAHashBig (repeat 0%Z 256))
      (computeAHashBig (repeat 255%Z 4 ++ repeat 0%Z 252)) = Some dist /\
    cvSimilarityClient 65 (repeat 0%Z 256) (repeat 255%Z 4 ++ repeat 0%Z 252) = Some r /\
    verdict r = verdict_of_distance dist.
Proof.
  apply (hash_verdict_by_distance (repeat 0%Z 256) (repeat 255%Z 4 ++ repeat 0%Z 252) 65).
  - reflexivity.
  - reflexivity.
  - lia.
Defined.

Lemma layout_flag_when_fingerprints_differ_witness :
  exists r,
    cvSimilarityClient 65 (repeat 0%Z 256) (repeat 255%Z 4 ++ repeat 0%Z 252) = Some r /\
    flags r = [("packaging_layout_diff"%string,
                negb (computeAHashBig (repeat 0%Z 256) =?
                      computeAHashBig (repeat 255%Z 4 ++ repeat 0%Z 252))%Z)] /\
    flags r = [("packaging_layout_diff"%string, (similarity r <? 1)%float)] /\
    (computeAHashBig (repeat 0%Z 256) = computeAHashBig (repeat 255%Z 4 ++ repeat 0%Z 252) ->
     similarity r = 1%float /\ verdict r = likely_match).
Proof.
  apply (layout_flag_when_fingerprints_differ (repeat 0%Z 256)
           (repeat 255%Z 4 ++ repeat 0%Z 252) 65).
  - reflexivity.
  - reflexivity.
  - lia.
Defined.

Lemma compared_with_itself_witness :
  exists r,
    similarity_of_responses toLowerCase (Some (labelled [black; white]))
      (Some (labelled [black; white])) = Ok r /\
    similarity r = 1%float /\ verdict r = likely_match.
Proof.
  apply (compared_with_itself toLowerCase (labelled [black; white])).
  - vm_compute. lia.
  - reflexivity.
Defined.

Lemma data_url_payload_witness :
  Vision.base64_of_data_url
    (str "data:image/png;base64" ++ chr "," :: str "iVBORw0KGgo=") = str "iVBORw0KGgo=" /\
  Vision.base64_of_data_url
    (str "data:image/png;base64" ++ chr "," :: str "iVBORw0KGgo=" ++ chr "," :: str "x") =
  str "iVBORw0KGgo=" /\
  Vision.base64_of_data_url (str "data:image/png;base64") = [].
Proof.
  apply (data_url_payload (str "data:image/png;base64") (str "iVBORw0KGgo=") (str "x")).
  - intros H. repeat (destruct H as [H|H]; [discriminate H|]). exact H.
  - intros H. repeat (destruct H as [H|H]; [discriminate H|]). exact H.
Defined.

Section ClientWitnesses.

Import Web GeminiClient.

Lemma gemini_default_first_witness :
  let messages := [ {| role := user; content := str "Hi" |} ] in
  let first := first_post (str "key") (contents_of messages) None STABLE_DEFAULT_MODEL in
  match generateWithGemini (answering (str "Hello")) (str "key") messages None fresh with
  | (out, st') =>
      exists more,
        sent st' = sent fresh ++ first :: more /\
        forall text,
          verdict_of_reply (network (answering (str "Hello")) (sent fresh ++ [first])) =
          inl (JString text) ->
          out = Returns text /\ more = [] /\
          discoveredModels st' =
          Some (default [] (discoveredModels fresh) ++ [STABLE_DEFAULT_MODEL])
  end.
Proof.
  apply (gemini_default_first (answering (str "Hello")) (str "key")
           [ {| role := user; content := str "Hi" |} ] None fresh).
  reflexivity.
Defined.

Lemma gemini_failure_report_witness :
  match generateWithGemini offline (str "key") [] None fresh with
  | (Throws e, st') =>
      exists listed models remembered,
        candidates_of listed = Ok (STABLE_DEFAULT_MODEL :: models) /\
        List.NoDup (STABLE_DEFAULT_MODEL :: models) /\
        discoveredModels st' = Some (listed ++ remembered) /\
        (forall known, discoveredModels fresh = Some known ->
                       forall m, In m models -> In m known) /\
        ((e = URIError offline /\
          exists m, In m models /\ encodeURIComponent m = None) \/
         (tried st' = List.map tried_entry (STABLE_DEFAULT_MODEL :: models) /\
          e = new_Error
                (match lastError st' with
                 | Some e' => message_or_string e'
                 | None => str "Gemini request failed"
                 end ++ str "; tried: " ++ join (str ", ") (tried st'))))
  | _ => True
  end.
Proof.
  apply (gemini_failure_report offline (str "key") [] None fresh). reflexivity.
Defined.

End ClientWitnesses.
